(** * Tasks-up: the task list component (TodoList.jsx)

    A shallow embedding of the date/time extraction, the due-date parser,
    the reminder loop and the filter projection of [TodoList.jsx], and the
    properties of them stated in the specification; then the rest of the
    component (the counter, the notifications and the host they need, the
    toast, the handlers and the table they write to) with properties read
    off the code.

    JavaScript strings are sequences of UTF-16 code units; regular
    expressions are kept as syntax trees and run by a backtracking matcher
    that follows the continuation-passing semantics of ECMA-262 (22.2.2). *)

From Stdlib Require Import ZArith NArith Ascii String Lia.
From stdpp Require Import gmap list sorting.

Local Open Scope nat_scope.

(** ** JavaScript strings *)

Module JS.

(** A string value: the list of its UTF-16 code units. *)
Abbreviation jsstring := (list N).

(** A literal of ASCII text. *)
Definition lit (s : string) : jsstring :=
  map N_of_ascii (list_ascii_of_string s).

(** [\d] *)
Definition is_digit (c : N) : bool := ((48 <=? c) && (c <=? 57))%N.

(** [[\/\-]] *)
Definition is_sep (c : N) : bool := ((c =? 47) || (c =? 45))%N.

(** [\s], and the characters [String.prototype.trim] strips: WhiteSpace and
    LineTerminator of ECMA-262. *)
Definition is_space (c : N) : bool :=
  ((9 <=? c) && (c <=? 13) || (c =? 32) || (c =? 160) || (c =? 5760)
   || (8192 <=? c) && (c <=? 8202) || (c =? 8232) || (c =? 8233)
   || (c =? 8239) || (c =? 8287) || (c =? 12288) || (c =? 65279))%N.

(** The word characters of [\b]: [[A-Za-z0-9_]]. *)
Definition is_word (c : N) : bool :=
  ((65 <=? c) && (c <=? 90) || (97 <=? c) && (c <=? 122)
   || (48 <=? c) && (c <=? 57) || (c =? 95))%N.

(** [Canonicalize] under the [i] flag (no [u] flag): the upper-case form of a
    code unit, except that a code unit above 127 never maps into ASCII.  All
    pattern characters of this program are ASCII, so only the ASCII part of
    the mapping can make a comparison succeed. *)
Definition canonicalize (ignoreCase : bool) (c : N) : N :=
  if ignoreCase && (97 <=? c)%N && (c <=? 122)%N then (c - 32)%N else c.

(** [String.prototype.toUpperCase] on the ASCII letters.  The program
    applies it to the text captured by [(AM|PM)] only, which under the [i]
    flag consists of ASCII letters. *)
Definition toUpperCase (s : jsstring) : jsstring := map (canonicalize true) s.

Fixpoint trimStart (s : jsstring) : jsstring :=
  match s with
  | c :: s' => if is_space c then trimStart s' else s
  | [] => []
  end.

Definition trimEnd (s : jsstring) : jsstring := rev (trimStart (rev s)).

(** [String.prototype.trim] *)
Definition trim (s : jsstring) : jsstring := trimEnd (trimStart s).

(** Decimal value of a run of digits, most significant first. *)
Definition digitsValue (s : jsstring) : Z :=
  fold_left (fun acc c => (10 * acc + (Z.of_N c - 48))%Z) s 0%Z.

Fixpoint leadingDigits (s : jsstring) : jsstring :=
  match s with
  | c :: s' => if is_digit c then c :: leadingDigits s' else []
  | [] => []
  end.

(** [parseInt(s, 10)] on the strings this program passes to it: the text of
    a [\d{m,n}] capture, which has no sign and no leading blank; its value
    is the decimal value of the leading run of digits. *)
Definition parseInt (s : jsstring) : Z := digitsValue (leadingDigits s).

(** The decimal digits of [n], most significant first, before [acc]. *)
Fixpoint decimalDigits (fuel : nat) (n : N) (acc : jsstring) : jsstring :=
  match fuel with
  | O => acc
  | S fuel' =>
      let acc' := (48 + n mod 10)%N :: acc in
      if (n <? 10)%N then acc' else decimalDigits fuel' (n / 10)%N acc'
  end.

(** [String(n)] for a Number that is a non-negative safe integer (below
    2^53): its decimal digits.  The program applies it to the day, the month
    and the year of a calendar date; beyond the safe integers a Number
    prints other digits, or an exponent, which this definition does not
    follow. *)
Definition String_ (n : N) : jsstring := decimalDigits (S (N.to_nat (N.log2 n))) n [].

(** [s.padStart(len, "0")] *)
Definition padStart0 (len : nat) (s : jsstring) : jsstring :=
  replicate (len - length s) 48%N ++ s.

End JS.

(** ** Regular expressions *)

Module RegExp.
Import JS.

(** The pattern syntax used by the program.  A class is a predicate on code
    units; the classes of this program ([\d], [\s], [[\/\-]]) hold no
    letters, so the [i] flag leaves them as they are. *)
Inductive regex : Type :=
  | Cls (p : N → bool)                         (* a character class *)
  | Chr (c : N)                                (* a pattern character *)
  | Seq (r1 r2 : regex)                        (* r1 r2 *)
  | Alt (r1 r2 : regex)                        (* r1|r2 *)
  | Rep (r : regex) (min : nat) (max : option nat)  (* greedy r{min,max} *)
  | Group (n : nat) (r : regex)                (* the n-th capturing ( ) *)
  | WordBoundary.                              (* \b *)

Declare Scope regex_scope.
Delimit Scope regex_scope with re.
Bind Scope regex_scope with regex.
Infix "⋅" := Seq (at level 41, right associativity) : regex_scope.

(** The state of a match: the input split at the current end index (the
    part before it reversed), and the captures found so far. *)
Record MatchState : Type := mkState {
  before : list N;
  after : list N;
  captures : gmap nat jsstring
}.

Definition endIndex (x : MatchState) : nat := length (before x).

(** Indices of the capturing groups inside a pattern. *)
Fixpoint groups (r : regex) : list nat :=
  match r with
  | Cls _ | Chr _ | WordBoundary => []
  | Seq r1 r2 | Alt r1 r2 => groups r1 ++ groups r2
  | Rep r1 _ _ => groups r1
  | Group n r1 => n :: groups r1
  end.

Definition clearCaptures (gs : list nat) (x : MatchState) : MatchState :=
  mkState (before x) (after x) (foldr delete (captures x) gs).

Definition IsWordChar (c : option N) : bool :=
  match c with Some c => is_word c | None => false end.

Definition Continuation := MatchState → option MatchState.

(** One character: consumed when [p] accepts it. *)
Definition CharacterSetMatcher (p : N → bool) (x : MatchState) (c : Continuation)
  : option MatchState :=
  match after x with
  | ch :: rest => if p ch then c (mkState (ch :: before x) rest (captures x)) else None
  | [] => None
  end.

(** [RepeatMatcher] of ECMA-262 for a greedy quantifier.  [fuel] bounds the
    number of iterations: [max] of them when the quantifier has an upper
    bound; otherwise the [min] compulsory ones and one for each remaining
    character, since a further iteration that consumes nothing is rejected. *)
Fixpoint RepeatMatcher (m : MatchState → Continuation → option MatchState)
    (gs : list nat) (fuel : nat) (min : nat) (max : option nat)
    (x : MatchState) (c : Continuation) : option MatchState :=
  match max with
  | Some O => c x
  | _ =>
    match fuel with
    | O => None
    | S fuel' =>
        let d : Continuation := fun y =>
          if (min =? 0) && (endIndex y =? endIndex x) then None
          else RepeatMatcher m gs fuel' (pred min) (pred <$> max) y c in
        let xr := clearCaptures gs x in
        if min =? 0 then
          match m xr d with
          | Some z => Some z
          | None => c x
          end
        else m xr d
    end
  end.

(** The number of iterations a quantifier can make at [x]: its upper bound,
    or, without one, the [min] forced iterations and one for each code unit
    left, an iteration that consumes nothing being rejected.  Theorem
    [exec_complete] shows that this bound is never the reason for a failed
    match. *)
Definition repeatFuel (min : nat) (max : option nat) (x : MatchState) : nat :=
  match max with
  | Some n => n
  | None => S (min + length (after x))
  end.

(** The matcher of a pattern: [exec ic r x c] matches [r] at state [x] and
    calls the continuation [c] on each candidate end state, in priority
    order, until [c] succeeds. *)
Fixpoint exec (ic : bool) (r : regex) (x : MatchState) (c : Continuation)
  : option MatchState :=
  match r with
  | Cls p => CharacterSetMatcher p x c
  | Chr a =>
      CharacterSetMatcher (fun ch => (canonicalize ic ch =? canonicalize ic a)%N) x c
  | Seq r1 r2 => exec ic r1 x (fun y => exec ic r2 y c)
  | Alt r1 r2 =>
      match exec ic r1 x c with
      | Some z => Some z
      | None => exec ic r2 x c
      end
  | Rep r1 min max =>
      RepeatMatcher (exec ic r1) (groups r1) (repeatFuel min max x) min max x c
  | Group n r1 =>
      exec ic r1 x (fun y =>
        c (mkState (before y) (after y)
             (<[n := take (endIndex y - endIndex x) (after x)]> (captures y))))
  | WordBoundary =>
      if negb (Bool.eqb (IsWordChar (head (before x))) (IsWordChar (head (after x))))
      then c x else None
  end.

(** The result of a successful match. *)
Record MatchResult : Type := mkResult {
  index : nat;                      (* where the match starts *)
  matched : jsstring;               (* element 0: the matched text *)
  group : gmap nat jsstring         (* elements 1, 2, ...: the captures *)
}.

(** [RegExpBuiltinExec] without the [g] and [y] flags: try each start index
    from 0 to the length of the input. *)
Fixpoint search (ic : bool) (r : regex) (bef aft : list N) : option MatchResult :=
  match exec ic r (mkState bef aft ∅) Some with
  | Some y =>
      Some (mkResult (length bef) (take (endIndex y - length bef) aft) (captures y))
  | None =>
      match aft with
      | ch :: aft' => search ic r (ch :: bef) aft'
      | [] => None
      end
  end.

(** A pattern with its flags. *)
Record RegExp : Type := mkRegExp { source : regex; ignoreCase : bool }.

(** [text.match(re)] for a pattern without the [g] flag. *)
Definition match_ (text : jsstring) (re : RegExp) : option MatchResult :=
  search (ignoreCase re) (source re) [] text.

(** [text.replace(re, "")] for a pattern without the [g] flag. *)
Definition replaceEmpty (text : jsstring) (re : RegExp) : jsstring :=
  match match_ text re with
  | Some m => take (index m) text ++ drop (index m + length (matched m)) text
  | None => text
  end.

(** Abbreviations for the quantifiers and classes of the patterns. *)
Abbreviation digit := (Cls is_digit).
Abbreviation space := (Cls is_space).
Abbreviation rep r min max := (Rep r min (Some max)).
Abbreviation plus r := (Rep r 1 None).
Abbreviation opt r := (Rep r 0 (Some 1)).

End RegExp.

(** ** Dates *)

Module Date.
Local Open Scope Z_scope.

(** A date built by [new Date(year, month, day, hours, minutes, 0, 0)], kept
    as the arguments of the constructor. *)
Record Date : Type := mkDate {
  year : Z; month : Z; day : Z; hours : Z; minutes : Z
}.

#[global] Instance Date_eq_dec : EqDecision Date.
Proof. solve_decision. Defined.

Definition msPerDay : Z := 86400000.

Definition DayFromYear (y : Z) : Z :=
  365 * (y - 1970) + (y - 1969) / 4 - (y - 1901) / 100 + (y - 1601) / 400.

Definition InLeapYear (y : Z) : bool :=
  ((y mod 4 =? 0) && negb (y mod 100 =? 0) || (y mod 400 =? 0))%Z.

(** Days of the year before month [m] (0-based). *)
Definition DayWithinYear (y m : Z) : Z :=
  nth (Z.to_nat m) [0; 31; 59; 90; 120; 151; 181; 212; 243; 273; 304; 334] 0
  + (if InLeapYear y && (2 <=? m) then 1 else 0).

(** [MakeDay]: month and day may lie outside their calendar range. *)
Definition MakeDay (y m dt : Z) : Z :=
  let ym := y + m / 12 in
  let mn := m mod 12 in
  DayFromYear ym + DayWithinYear ym mn + dt - 1.

Definition MakeTime (h mi sec ms : Z) : Z :=
  h * 3600000 + mi * 60000 + sec * 1000 + ms.

Definition MakeDate (dy tm : Z) : Z := dy * msPerDay + tm.

(** [TimeClip]: a time value outside the supported range is [NaN]. *)
Definition TimeClip (t : Z) : option Z :=
  if Z.abs t <=? 8640000000000000 then Some t else None.

(** [getTime()]: the time value in milliseconds since the epoch, [None] for
    an invalid date.  [LocalTZA] is the offset of the host's time zone at a
    local time. *)
Definition getTime (LocalTZA : Z → Z) (dt : Date) : option Z :=
  let yr := if (0 <=? year dt) && (year dt <=? 99) then 1900 + year dt else year dt in
  let t := MakeDate (MakeDay yr (month dt) (day dt))
             (MakeTime (hours dt) (minutes dt) 0 0) in
  TimeClip (t - LocalTZA t).

End Date.

(** ** The component *)

Import JS RegExp Date.
Local Open Scope regex_scope.

(** [[\/\-]] and [(AM|PM)] *)
Abbreviation sep := (Cls is_sep).
Abbreviation AM_PM := (Alt (Chr 65 ⋅ Chr 77) (Chr 80 ⋅ Chr 77)).

(** [/(\d{1,2}[\/\-]\d{1,2}[\/\-]\d{2,4})(\s+\d{1,2}:\d{2}\s?(AM|PM)?)?/i] *)
Definition dateTimeRegex : RegExp :=
  mkRegExp
    (Group 1 (rep digit 1 2 ⋅ sep ⋅ rep digit 1 2 ⋅ sep ⋅ rep digit 2 4)
     ⋅ opt (Group 2 (plus space ⋅ rep digit 1 2 ⋅ Chr 58 ⋅ rep digit 2 2
                     ⋅ opt space ⋅ opt (Group 3 AM_PM))))
    true.

(** [/\b\d{1,2}:\d{2}\s?(AM|PM)\b/i] *)
Definition timeRegex : RegExp :=
  mkRegExp
    (WordBoundary ⋅ rep digit 1 2 ⋅ Chr 58 ⋅ rep digit 2 2 ⋅ opt space
     ⋅ Group 1 AM_PM ⋅ WordBoundary)
    true.

(** [/(\d{1,2})[\/\-](\d{1,2})[\/\-](\d{2,4})/] *)
Definition dateMatchRegex : RegExp :=
  mkRegExp
    (Group 1 (rep digit 1 2) ⋅ sep ⋅ Group 2 (rep digit 1 2) ⋅ sep
     ⋅ Group 3 (rep digit 2 4))
    false.

(** [/(\d{1,2}):(\d{2})\s?(AM|PM)?/i] *)
Definition timeMatchRegex : RegExp :=
  mkRegExp
    (Group 1 (rep digit 1 2) ⋅ Chr 58 ⋅ Group 2 (rep digit 2 2) ⋅ opt space
     ⋅ opt (Group 3 AM_PM))
    true.

(** Truthiness of a value that is a string, [null] or [undefined]. *)
Definition truthy (v : option jsstring) : bool :=
  match v with
  | Some (_ :: _) => true
  | _ => false
  end.

(** [m?.[0] || null] *)
Definition matchedOrNull (m : option MatchResult) : option jsstring :=
  match m with
  | Some r => if truthy (Some (matched r)) then Some (matched r) else None
  | None => None
  end.

Definition extractDateTime (text : jsstring) : option jsstring :=
  matchedOrNull (match_ text dateTimeRegex).

Definition extractTimeOnly (text : jsstring) : option jsstring :=
  matchedOrNull (match_ text timeRegex).

Definition removeDateTime (text : jsstring) : jsstring :=
  trim (replaceEmpty text dateTimeRegex).

(** The local calendar fields of [new Date()]. *)
Record Today : Type := mkToday { getDate : N; getMonth : N; getFullYear : N }.

Definition getTodayDate (d : Today) : jsstring :=
  let dd := padStart0 2 (String_ (getDate d)) in
  let mm := padStart0 2 (String_ (getMonth d + 1)) in
  let yyyy := String_ (getFullYear d) in
  dd ++ lit "-" ++ mm ++ lit "-" ++ yyyy.

(** A capture that took part in the match; [[]] stands for [undefined],
    which no capture of these patterns can be confused with where it is
    read. *)
Definition capture (m : MatchResult) (n : nat) : jsstring :=
  default [] (group m !! n).

Definition parseUserDate (userDateStr : option jsstring) : option Date :=
  if negb (truthy userDateStr) then None else
  let str := default [] userDateStr in
  match match_ str dateMatchRegex with
  | None => None
  | Some dateMatch =>
      let day := parseInt (capture dateMatch 1) in
      let month := (parseInt (capture dateMatch 2) - 1)%Z in
      let year := parseInt (capture dateMatch 3) in
      let year := if (year <? 100)%Z then (year + 2000)%Z else year in
      let '(hours, minutes) :=
        match match_ str timeMatchRegex with
        | None => (0%Z, 0%Z)
        | Some timeMatch =>
            let hours := parseInt (capture timeMatch 1) in
            let minutes := parseInt (capture timeMatch 2) in
            let period := group timeMatch !! 3 in
            if truthy period then
              if bool_decide (toUpperCase (default [] period) = lit "PM")
                 && negb (hours =? 12)%Z
              then ((hours + 12)%Z, minutes)
              else if bool_decide (toUpperCase (default [] period) = lit "AM")
                      && (hours =? 12)%Z
              then (0%Z, minutes)
              else (hours, minutes)
            else (hours, minutes)
        end in
      Some (mkDate year month day hours minutes)
  end.

(** A row of the [tasks] table. *)
Record Task : Type := mkTask {
  id : Z;
  text : jsstring;
  userDate : option jsstring;
  completed : bool
}.

(** The object handed to [insert]; the store assigns the id. *)
Record NewRow : Type := mkNewRow {
  newText : jsstring;
  newUserDate : option jsstring;
  newCompleted : bool
}.

(** [addTask]: the row inserted for the input [newTask], [None] when the
    input is blank and nothing is inserted. *)
Definition addTask (today : Today) (newTask : jsstring) : option NewRow :=
  if negb (truthy (Some (trim newTask))) then None else
  let fullDate := extractDateTime newTask in
  let timeOnly := extractTimeOnly newTask in
  let finalDate :=
    if negb (truthy fullDate) && truthy timeOnly
    then Some (getTodayDate today) else fullDate in
  Some (mkNewRow (removeDateTime newTask) finalDate false).

(** What the reminder loop does to the outside. *)
Inductive Effect : Type :=
  | ShowToast (task : Task)
  | SendNotification (task : Task).

(** The state the loop keeps during a session: [notifiedTasksRef.current]
    and the effects performed so far, oldest first. *)
Record Reminder : Type := mkReminder {
  notifiedTasks : gset Z;
  effects : list Effect
}.

Section Loop.

(** The time zone of the host. *)
Variable LocalTZA : Z → Z.

(** The body of the [forEach] of [checkDueTasks], for one task, where
    [sendNotification] returns; [granted] tells whether it creates a
    notification.  ([sendNotification] throws in a host without the
    Notification API: [checkTaskIn] below is the body in any host, and
    agrees with this one where [sendNotification] returns.) *)
Definition checkTask (now : Z) (granted : bool) (st : Reminder) (task : Task)
  : Reminder :=
  if completed task || bool_decide (id task ∈ notifiedTasks st) then st else
  match parseUserDate (userDate task) with
  | None => st
  | Some taskDate =>
      match getTime LocalTZA taskDate with
      | None => st
      | Some due =>
          let timeDiff := (due - now)%Z in
          if (-5000 <=? timeDiff)%Z && (timeDiff <=? 5000)%Z then
            mkReminder ({[id task]} ∪ notifiedTasks st)
              (effects st ++ ShowToast task
                 :: (if granted then [SendNotification task] else []))
          else st
      end
  end.

Definition checkDueTasks (tasks : list Task) (now : Z) (granted : bool)
    (st : Reminder) : Reminder :=
  foldl (checkTask now granted) st tasks.

(** One run of [checkDueTasks] in which [sendNotification] returns: the
    task list it sees, the clock, whether notifications are created. *)
Record Tick : Type := mkTick { tasks : list Task; now : Z; granted : bool }.

(** A session of such runs: the loop starts with nothing notified and runs
    tick after tick; the task list may change between two ticks. *)
Definition runTicks (ticks : list Tick) (st : Reminder) : Reminder :=
  foldl (fun st tk => checkDueTasks (tasks tk) (now tk) (granted tk) st) st ticks.

Definition session (ticks : list Tick) : Reminder :=
  runTicks ticks (mkReminder ∅ []).

End Loop.

(** The tasks shown under a filter. *)
Definition filteredTasks (tasks : list Task) (filter : jsstring) : list Task :=
  List.filter (fun task =>
    if bool_decide (filter = lit "all") then true
    else if bool_decide (filter = lit "active") then negb (completed task)
    else if bool_decide (filter = lit "completed") then completed task
    else true) tasks.

(** ** What a pattern matches

    [reach ic r x y]: the pattern [r] can take the match state [x] to [y].
    The relation lists every candidate end state of [r], without the order
    in which the matcher tries them. *)

Fixpoint iter (R : MatchState → MatchState → Prop) (n : nat)
    (x y : MatchState) : Prop :=
  match n with
  | O => x = y
  | S n' => ∃ z, R x z ∧ iter R n' z y
  end.

Definition inRange (min : nat) (max : option nat) (n : nat) : Prop :=
  min ≤ n ∧ match max with Some m => n ≤ m | None => True end.

Definition consume (p : N → bool) (x y : MatchState) : Prop :=
  ∃ ch, p ch = true ∧ after x = ch :: after y ∧ before y = ch :: before x
        ∧ captures y = captures x.

Definition setCapture (n : nat) (x z : MatchState) : MatchState :=
  mkState (before z) (after z)
    (<[n := take (endIndex z - endIndex x) (after x)]> (captures z)).

Definition atBoundary (x : MatchState) : Prop :=
  IsWordChar (head (before x)) ≠ IsWordChar (head (after x)).

Fixpoint reach (ic : bool) (r : regex) (x y : MatchState) : Prop :=
  match r with
  | Cls p => consume p x y
  | Chr a => consume (fun ch => (canonicalize ic ch =? canonicalize ic a)%N) x y
  | Seq r1 r2 => ∃ z, reach ic r1 x z ∧ reach ic r2 z y
  | Alt r1 r2 => reach ic r1 x y ∨ reach ic r2 x y
  | Rep r1 min max =>
      ∃ n, inRange min max n
           ∧ iter (fun a b => reach ic r1 (clearCaptures (groups r1) a) b) n x y
  | Group n r1 => ∃ z, reach ic r1 x z ∧ y = setCapture n x z
  | WordBoundary => atBoundary x ∧ y = x
  end.

(** Every quantifier [{min,max}] of the pattern has [min ≤ max] (anything
    else is a syntax error). *)
Fixpoint ordered (r : regex) : Prop :=
  match r with
  | Cls _ | Chr _ | WordBoundary => True
  | Seq r1 r2 | Alt r1 r2 => ordered r1 ∧ ordered r2
  | Rep r1 min max => ordered r1 ∧ match max with Some m => min ≤ m | None => True end
  | Group _ r1 => ordered r1
  end.

(** Two states at the same place of the same input. *)
Definition samePos (x y : MatchState) : Prop :=
  before x = before y ∧ after x = after y.

(** [y] is [x] after the word [w] has been consumed. *)
Definition spans (x : MatchState) (w : jsstring) (y : MatchState) : Prop :=
  after x = w ++ after y ∧ before y = rev w ++ before x.


(** ** The shapes the specification names

    These follow the words of the specification, not the patterns of the
    code; the theorems below relate the two. *)

(** Between [lo] and [hi] digits. *)
Definition digitRun (lo hi : nat) (w : jsstring) : Prop :=
  lo ≤ length w ≤ hi ∧ forallb is_digit w = true.

(** [<1-2 digit><sep><1-2 digit><sep><2-4 digit>], [<sep>] one of [/], [-]. *)
Definition dateShape (w : jsstring) : Prop :=
  ∃ dd s1 mm s2 yy,
    w = dd ++ s1 :: mm ++ s2 :: yy
    ∧ digitRun 1 2 dd ∧ is_sep s1 = true
    ∧ digitRun 1 2 mm ∧ is_sep s2 = true
    ∧ digitRun 2 4 yy.

(** A meridiem marker: [AM] or [PM] in either case. *)
Definition meridiem (w : jsstring) : Prop :=
  toUpperCase w = lit "AM" ∨ toUpperCase w = lit "PM".

(** At most one blank. *)
Definition optionalBlank (w : jsstring) : Prop :=
  w = [] ∨ ∃ ch, w = [ch] ∧ is_space ch = true.

(** [<1-2 digit>:<2 digit>] and an optional meridiem marker, which at most
    one blank separates from the minutes.  Without a marker the time ends
    with its minutes. *)
Definition timeShape (w : jsstring) : Prop :=
  ∃ hh mi sp mer,
    w = hh ++ 58%N :: mi ++ sp ++ mer
    ∧ digitRun 1 2 hh ∧ digitRun 2 2 mi
    ∧ ((sp = [] ∧ mer = []) ∨ (optionalBlank sp ∧ meridiem mer)).

(** A date, optionally followed by blanks and a time. *)
Definition dateTimeShape (w : jsstring) : Prop :=
  ∃ dt tm,
    w = dt ++ tm ∧ dateShape dt
    ∧ (tm = [] ∨ ∃ ws t, tm = ws ++ t ∧ ws ≠ [] ∧ forallb is_space ws = true
                         ∧ timeShape t).

(** A date followed by blanks and a time without a meridiem marker: a date
    and time that ends with its minutes. *)
Definition unmarkedDateTime (w : jsstring) : Prop :=
  ∃ dt ws hh mi,
    w = dt ++ ws ++ hh ++ 58%N :: mi ∧ dateShape dt
    ∧ ws ≠ [] ∧ forallb is_space ws = true
    ∧ digitRun 1 2 hh ∧ digitRun 2 2 mi.

(** The string [s] has a substring of shape [P]. *)
Definition contains (P : jsstring → Prop) (s : jsstring) : Prop :=
  ∃ pre w post, s = pre ++ w ++ post ∧ P w.

(** [y] is [x] after the word [w], with captures [cs]. *)
Definition moved (x : MatchState) (w : jsstring) (cs : gmap nat jsstring)
    (y : MatchState) : Prop :=
  spans x w y ∧ captures y = cs.

(** The 24-hour value of an hour with an optional meridiem marker, by the
    table of the specification: 12 AM is 0, 12 PM is 12, another PM hour
    gets 12 added, another AM hour is unchanged. *)
Definition to24Hour (hour : Z) (marker : option jsstring) : Z :=
  match marker with
  | None => hour
  | Some p =>
      if bool_decide (toUpperCase p = lit "AM")
      then (if (hour =? 12)%Z then 0 else hour)%Z
      else (if (hour =? 12)%Z then 12 else hour + 12)%Z
  end.

(** The year of a date from the value of its digits. *)
Definition fullYear (y : Z) : Z := if (y <? 100)%Z then (y + 2000)%Z else y.

(** The two-digit text of a number below 100. *)
Definition two (n : N) : jsstring := padStart0 2 (String_ n).

(** [P] holds of every number below [n]. *)
Definition allBelow (n : N) (P : N → bool) : bool :=
  forallb P (map N.of_nat (seq 0 (N.to_nat n))).


(** The stored text as the data model words it: the input without its
    recognized date/time substring [r], trimmed, where [r] is the date the
    input has or else its standalone time. *)
Definition textWithoutRecognized (input : jsstring) (row : NewRow) : Prop :=
  ∀ r pre post,
    (extractDateTime input = Some r
     ∨ (extractDateTime input = None ∧ extractTimeOnly input = Some r)) →
    input = pre ++ r ++ post →
    newText row = trim (pre ++ post).

(** Extraction as the specification words it, for the text [s]: when [s]
    has a substring of the shape of a date and time, [extractDateTime]
    returns such a substring, and [removeDateTime] returns [s] without it,
    trimmed. *)
Definition extractsTheShape (s : jsstring) : Prop :=
  contains dateTimeShape s →
  ∃ pre d post,
    s = pre ++ d ++ post ∧ dateTimeShape d
    ∧ extractDateTime s = Some d
    ∧ removeDateTime s = trim (pre ++ post).

(** [w] is made of [len] digits and its value is [n]. *)
Definition isDecimal (len : nat) (n : N) (w : jsstring) : bool :=
  (length w =? len) && forallb is_digit w && (digitsValue w =? Z.of_N n)%Z.

(** The two characters are a meridiem marker. *)
Definition isMeridiem (c1 c2 : N) : bool :=
  (((canonicalize true c1 =? 65) || (canonicalize true c1 =? 80))
   && (canonicalize true c2 =? 77))%N.

(** The blank the input starts with, if any. *)
Definition blankOf (rest : jsstring) : jsstring :=
  match rest with
  | ch :: _ => if is_space ch then [ch] else []
  | [] => []
  end.

(** The meridiem marker the input starts with, if any. *)
Definition markerOf (rest : jsstring) : jsstring :=
  match rest with
  | c1 :: c2 :: _ => if isMeridiem c1 c2 then [c1; c2] else []
  | _ => []
  end.

(** The optional blank and marker the input starts with, taken greedily. *)
Definition tailOf (rest : jsstring) : jsstring :=
  blankOf rest ++ markerOf (drop (length (blankOf rest)) rest).

(** The meridiem marker of the greedy tail, if there is one. *)
Definition markerAt (rest : jsstring) : option jsstring :=
  let mer := markerOf (drop (length (blankOf rest)) rest) in
  if decide (mer = []) then None else Some mer.

(** The captures after the greedy tail: the marker goes into group 3. *)
Definition tailCaptures (rest : jsstring) (cs : gmap nat jsstring)
  : gmap nat jsstring :=
  match markerAt rest with
  | Some mer => <[3 := mer]> (delete 3 cs)
  | None => cs
  end.

(** No substring of shape [P] starts in [str] before the end of [pre]. *)
Definition firstAt (P : jsstring → Prop) (str pre : jsstring) : Prop :=
  ∀ pre' w' post', str = pre' ++ w' ++ post' → P w' → length pre ≤ length pre'.

(** ** Vocabulary of the reminder loop and of the filter *)

(** The ids of the tasks a toast was shown for, oldest first. *)
Definition toasts (es : list Effect) : list Z :=
  omap (fun e => match e with ShowToast t => Some (id t) | _ => None end) es.

(** The ids of the tasks a system notification was sent for. *)
Definition notifications (es : list Effect) : list Z :=
  omap (fun e => match e with SendNotification t => Some (id t) | _ => None end) es.

(** The effects of one tick: what [checkDueTasks] adds to those of [st]. *)
Definition dispatched (LocalTZA : Z → Z) (tk : Tick) (st : Reminder) : list Effect :=
  drop (length (effects st))
    (effects (checkDueTasks LocalTZA (tasks tk) (now tk) (granted tk) st)).

(** The due instant of [task] lies within 5000 ms of [now]. *)
Definition dueNow (LocalTZA : Z → Z) (now : Z) (task : Task) : Prop :=
  ∃ taskDate dueInstant,
    parseUserDate (userDate task) = Some taskDate
    ∧ getTime LocalTZA taskDate = Some dueInstant
    ∧ (-5000 ≤ dueInstant - now ≤ 5000)%Z.

(** The condition of the transition from pending to fired. *)
Definition shouldFire (LocalTZA : Z → Z) (now : Z) (st : Reminder) (task : Task)
  : Prop :=
  dueNow LocalTZA now task ∧ completed task = false ∧ id task ∉ notifiedTasks st.

(** The state after [task] has fired. *)
Definition fired (granted : bool) (st : Reminder) (task : Task) : Reminder :=
  mkReminder ({[id task]} ∪ notifiedTasks st)
    (effects st ++ ShowToast task :: (if granted then [SendNotification task] else [])).

(** The filter modes of the specification and their predicates. *)
Inductive Mode : Type := all | active | completedOnly.

Definition modeName (m : Mode) : jsstring :=
  match m with
  | all => lit "all"
  | active => lit "active"
  | completedOnly => lit "completed"
  end.

Definition satisfies (m : Mode) (task : Task) : bool :=
  match m with
  | all => true
  | active => negb (completed task)
  | completedOnly => completed task
  end.

(** The task an effect is about. *)
Definition effectTask (e : Effect) : Task :=
  match e with ShowToast t | SendNotification t => t end.

(** [st'] continues [st]: nothing is forgotten, and what was done since is
    about tasks that were not yet notified in [st]. *)
Definition continues (st st' : Reminder) : Prop :=
  notifiedTasks st ⊆ notifiedTasks st'
  ∧ ∃ es, effects st' = effects st ++ es
          ∧ ∀ e, e ∈ es → id (effectTask e) ∉ notifiedTasks st.

(** Every task has at most one toast and one system notification, and each
    of them is recorded as notified. *)
Definition onceEach (st : Reminder) : Prop :=
  NoDup (toasts (effects st)) ∧ NoDup (notifications (effects st))
  ∧ ∀ e, e ∈ effects st → id (effectTask e) ∈ notifiedTasks st.

(** ** Vocabulary of the matcher's correctness *)

(** The matcher [m] only finds what [R] relates. *)
Definition soundFor (m : MatchState → Continuation → option MatchState)
    (R : MatchState → MatchState → Prop) : Prop :=
  ∀ x c res, m x c = Some res → ∃ y, R x y ∧ c y = Some res.

(** The matcher [m] finds what [R] relates, whenever the continuation
    accepts it. *)
Definition completeFor (m : MatchState → Continuation → option MatchState)
    (R : MatchState → MatchState → Prop) : Prop :=
  ∀ x y c, R x y → (∀ y', samePos y y' → is_Some (c y')) → is_Some (m x c).

(** [R] does not look at the captures. *)
Definition positional (R : MatchState → MatchState → Prop) : Prop :=
  ∀ a b a', R a b → samePos a a' → ∃ b', R a' b' ∧ samePos b b'.

(** Enough fuel for a quantifier at state [x]. *)
Definition fuelOk (fuel min : nat) (max : option nat) (x : MatchState) : Prop :=
  match max with
  | Some k => k ≤ fuel
  | None => min + length (after x) < fuel
  end.

(** The state after a word. *)
Definition advance (x : MatchState) (w rest : jsstring) (cs : gmap nat jsstring)
  : MatchState := mkState (rev w ++ before x) rest cs.

(** [r] matches the word [w] wherever the input continues with it, and
    turns the captures [cs] into [f cs]. *)
Definition accepts (ic : bool) (r : regex) (w : jsstring)
    (f : gmap nat jsstring → gmap nat jsstring) : Prop :=
  ∀ x rest, after x = w ++ rest → reach ic r x (advance x w rest (f (captures x))).

(** The input [rest] does not go on with a character of [p]. *)
Definition headNot (p : N → bool) (rest : jsstring) : Prop :=
  match rest with
  | [] => True
  | ch :: _ => p ch = false
  end.

(** At state [x] the matcher of [r] settles on the end state [y]: [y] is its
    first candidate that any continuation accepts. *)
Definition decides (ic : bool) (r : regex) (x y : MatchState) : Prop :=
  ∀ c : Continuation, is_Some (c y) → exec ic r x c = c y.

(** Where the input goes on with [w ++ rest], [r] settles on [w]. *)
Definition commits (ic : bool) (r : regex) (w rest : jsstring)
    (f : gmap nat jsstring → gmap nat jsstring) : Prop :=
  ∀ x, after x = w ++ rest → decides ic r x (advance x w rest (f (captures x))).

(** ** The words of the patterns

    What the patterns of the code match, read off the patterns themselves;
    the shapes of the specification are compared with them below. *)

(** A word of [\d{1,2}:\d{2}\s?(AM|PM)?]: after the minutes the pattern
    takes a blank and a marker, each on its own or not at all, so a word
    may end with a blank that no marker follows. *)
Definition timeWord (w : jsstring) : Prop :=
  ∃ hh mi sp mer,
    w = hh ++ 58%N :: mi ++ sp ++ mer
    ∧ digitRun 1 2 hh ∧ digitRun 2 2 mi ∧ optionalBlank sp
    ∧ (mer = [] ∨ meridiem mer).

(** A word of the second group of the pattern of [extractDateTime]: blanks
    and a word of the time. *)
Definition timeTailWord (tm : jsstring) : Prop :=
  ∃ ws t, tm = ws ++ t ∧ ws ≠ [] ∧ forallb is_space ws = true ∧ timeWord t.

(** A word of the pattern of [extractDateTime]: a date and, optionally, a
    word of its second group. *)
Definition dateTimeWord (w : jsstring) : Prop :=
  ∃ dt tm,
    w = dt ++ tm ∧ dateShape dt
    ∧ (tm = [] ∨ ∃ ws t, tm = ws ++ t ∧ ws ≠ [] ∧ forallb is_space ws = true
                         ∧ timeWord t).

(** ** The rest of the component: counter, notifications, handlers *)

(** [tasks.filter((t) => !t.completed).length], the "items left" counter. *)
Definition activeCount (tasks : list Task) : nat :=
  length (List.filter (fun t => negb (completed t)) tasks).

(** The largest integer below which every integer is a Number:
    [Number.MAX_SAFE_INTEGER], 2^53 - 1. *)
Definition MAX_SAFE_INTEGER : Z := 9007199254740991.

(** [`${n}`] for a Number that is a safe integer, at most
    [MAX_SAFE_INTEGER] in absolute value: its decimal digits, with a sign
    when it is negative.  Beyond that range a Number prints the shortest
    digits that read back as the same Number, and from 10^21 on an
    exponent, which this definition does not follow: it is used for safe
    integers only. *)
Definition NumberToString (n : Z) : jsstring :=
  if (n <? 0)%Z then 45%N :: String_ (Z.to_N (- n)) else String_ (Z.to_N n).

(** What [showToast] puts into the [toast] state. *)
Record Toast : Type := mkToast { toastTitle : jsstring; toastBody : jsstring }.

(** ["⏰ Task Reminder!"]; the clock is the code unit U+23F0. *)
Definition reminderTitle : jsstring := 9200%N :: lit " Task Reminder!".

(** [`It's time for: ${task.text}`] *)
Definition reminderBody (task : Task) : jsstring := lit "It's time for: " ++ text task.

Definition toastOf (task : Task) : Toast := mkToast reminderTitle (reminderBody task).

(** The arguments of [new Notification(title, options)] in
    [sendNotification]. *)
Record NotificationArgs : Type := mkNotificationArgs {
  title : jsstring;
  body : jsstring;
  icon : jsstring;
  tag : jsstring;
  requireInteraction : bool
}.

(** The icon: an SVG data URL whose text is the clipboard U+1F4CB, a
    surrogate pair. *)
Definition reminderIcon : jsstring :=
  lit "data:image/svg+xml,<svg xmlns='http://www.w3.org/2000/svg' viewBox='0 0 100 100'><text y='.9em' font-size='90'>"
  ++ [55357%N; 56523%N] ++ lit "</text></svg>".

Definition notificationOf (task : Task) : NotificationArgs :=
  mkNotificationArgs reminderTitle (reminderBody task) reminderIcon
    (lit "task-" ++ NumberToString (id task)) true.

(** [Notification.permission] *)
Inductive Permission : Type := permDefault | permGranted | permDenied.

#[global] Instance Permission_eq_dec : EqDecision Permission.
Proof. solve_decision. Defined.

(** The global [Notification] of the host.  [NoNotification]: the host
    has no Notification API (an in-app browser, a browser where it is
    switched off), and evaluating the identifier [Notification] throws a
    ReferenceError.  [HasNotification permission constructs]: the host has
    the API, with the given [Notification.permission]; [constructs] tells
    whether [new Notification(title, options)] returns there, as in a
    desktop browser, or throws, as in a browser that shows notifications
    through a service worker only. *)
Inductive NotificationHost : Type :=
  | NoNotification
  | HasNotification (permission : Permission) (constructs : bool).

(** [sendNotification(task)] in the host [h]: the notifications it creates,
    or [None] when it throws.  It reads [Notification.permission] with no
    test that [Notification] exists, and constructs the notification when
    the permission is ["granted"].  The click handler of the notification
    and the timeout that closes it after 10 s act on the notification only,
    not on the state of the loop. *)
Definition sendNotification (h : NotificationHost) (task : Task)
  : option (list Effect) :=
  match h with
  | NoNotification => None
  | HasNotification permission constructs =>
      if bool_decide (permission = permGranted) then
        if constructs then Some [SendNotification task] else None
      else Some []
  end.

(** Whether [sendNotification] returns in the host [h]. *)
Definition returns (h : NotificationHost) : bool :=
  match h with
  | NoNotification => false
  | HasNotification permission constructs =>
      negb (bool_decide (permission = permGranted)) || constructs
  end.

(** Whether [sendNotification] creates a notification in the host [h]. *)
Definition creates (h : NotificationHost) : bool :=
  match h with
  | NoNotification => false
  | HasNotification permission constructs =>
      bool_decide (permission = permGranted) && constructs
  end.

(** Who calls [checkDueTasks]: the effect itself, once when it runs (after
    the first render and after every change of [tasks]), or the interval
    timer the effect starts, every second. *)
Inductive Caller : Type := InitialCheck | IntervalTimer.

(** One call of [checkDueTasks]: who makes it, the host at that time (the
    permission may change during a session), the task list the call sees
    and the clock. *)
Record Call : Type := mkCall {
  caller : Caller;
  host : NotificationHost;
  seen : list Task;
  clock : Z
}.

(** The component: mounted with the state of its loop, or unmounted, with
    the effects it had performed. *)
Inductive Component : Type :=
  | Mounted (st : Reminder)
  | Unmounted (performed : list Effect).

Definition effectsOf (c : Component) : list Effect :=
  match c with
  | Mounted st => effects st
  | Unmounted performed => performed
  end.

Section HostLoop.

Variable LocalTZA : Z → Z.

(** The body of the [forEach] of [checkDueTasks] in the host [h]: the state
    it leaves, and whether it threw.  The toast is set before
    [sendNotification] is called and the id is added after it. *)
Definition checkTaskIn (h : NotificationHost) (now : Z) (st : Reminder) (task : Task)
  : Reminder * bool :=
  if completed task || bool_decide (id task ∈ notifiedTasks st) then (st, false) else
  match parseUserDate (userDate task) with
  | None => (st, false)
  | Some taskDate =>
      match getTime LocalTZA taskDate with
      | None => (st, false)
      | Some due =>
          let timeDiff := (due - now)%Z in
          if (-5000 <=? timeDiff)%Z && (timeDiff <=? 5000)%Z then
            let shown := effects st ++ [ShowToast task] in
            match sendNotification h task with
            | None => (mkReminder (notifiedTasks st) shown, true)
            | Some sent =>
                (mkReminder ({[id task]} ∪ notifiedTasks st) (shown ++ sent), false)
            end
          else (st, false)
      end
  end.

(** [tasks.forEach(...)]: an exception ends the loop. *)
Fixpoint checkDueTasksIn (h : NotificationHost) (tasks : list Task) (now : Z)
    (st : Reminder) : Reminder * bool :=
  match tasks with
  | [] => (st, false)
  | task :: rest =>
      let '(st', threw) := checkTaskIn h now st task in
      if threw then (st', true) else checkDueTasksIn h rest now st'
  end.

(** One call of [checkDueTasks] on the component.  An exception in a call
    of the timer ends that call only: the toast it has set is rendered and
    the timer goes on.  An exception in the effect's own call leaves the
    effect: React unmounts the component (the file has no error boundary),
    the toast of that call is never rendered and no timer is started.  An
    unmounted component does nothing more. *)
Definition runCall (c : Call) (comp : Component) : Component :=
  match comp with
  | Unmounted performed => Unmounted performed
  | Mounted st =>
      let '(st', threw) := checkDueTasksIn (host c) (seen c) (clock c) st in
      if threw then
        match caller c with
        | InitialCheck => Unmounted (effects st)
        | IntervalTimer => Mounted st'
        end
      else Mounted st'
  end.

(** The calls of a session, in their order. *)
Definition runCalls (calls : list Call) (comp : Component) : Component :=
  foldl (fun comp c => runCall c comp) comp calls.

(** Whether [task] is to fire at [now]: due within the window, not
    completed, not yet notified. *)
Definition firesAt (now : Z) (st : Reminder) (task : Task) : bool :=
  negb (completed task || bool_decide (id task ∈ notifiedTasks st))
  && match parseUserDate (userDate task) with
     | None => false
     | Some taskDate =>
         match getTime LocalTZA taskDate with
         | None => false
         | Some due => (-5000 <=? due - now)%Z && (due - now <=? 5000)%Z
         end
     end.

End HostLoop.

(** A call in a host where [sendNotification] returns, as a tick of the
    loop: [granted] tells whether a notification is created. *)
Definition tickOf (c : Call) : Tick := mkTick (seen c) (clock c) (creates (host c)).

(** ** The [tasks] table

    The table behind [supabase.from("tasks")] is the list of its rows; the
    requests of the component are read as the statements PostgREST makes of
    them, on a table without triggers or policies that change or hide
    rows.  Every change of the table makes the component call [loadTasks]
    (the realtime channel), so that what it shows is the table as
    [loadTasks] reads it. *)

(** [.update(change).eq("id", v)] *)
Definition updateWhereId (v : Z) (change : Task → Task) (table : list Task)
  : list Task :=
  map (fun row => if bool_decide (id row = v) then change row else row) table.

(** [.delete().eq(column, value)], [p] telling the rows it selects. *)
Definition deleteWhere (p : Task → bool) (table : list Task) : list Task :=
  List.filter (fun row => negb (p row)) table.

(** The order of [.order("id", { ascending: false })]. *)
Definition idDescending : relation Task := fun a b => (id b ≤ id a)%Z.

#[global] Instance idDescending_dec a b : Decision (idDescending a b).
Proof. unfold idDescending. apply _. Defined.

(** [.select("*").order("id", { ascending: false })] *)
Definition selectByIdDescending (table : list Task) : list Task :=
  merge_sort idDescending table.

(** [.insert(row)]; the store gives the new row the id [newId]. *)
Definition insertRow (newId : Z) (row : NewRow) (table : list Task) : list Task :=
  table ++ [mkTask newId (newText row) (newUserDate row) (newCompleted row)].

(** The answer to a request: [{ data, error }]. *)
Inductive Response : Type := Data (data : list Task) | Error.

(** [loadTasks]: the new value of the [tasks] state. *)
Definition loadTasks (response : Response) (tasks : list Task) : list Task :=
  match response with
  | Data data => data
  | Error => tasks
  end.

(** The editing state: [editingId], [editingText], [editingDate]. *)
Record Editing : Type := mkEditing {
  editingId : option Z;
  editingText : jsstring;
  editingDate : jsstring
}.

Definition startEdit (task : Task) : Editing :=
  mkEditing (Some (id task)) (text task)
    (if truthy (userDate task) then default [] (userDate task) else []).

Definition cancelEdit : Editing := mkEditing None [] [].

(** [saveEdit(id)]: the table after the update, and the editing state. *)
Definition saveEdit (taskId : Z) (e : Editing) (table : list Task)
  : list Task * Editing :=
  (updateWhereId taskId
     (fun row => mkTask (id row) (editingText e) (Some (editingDate e)) (completed row))
     table,
   mkEditing None [] []).

Definition deleteTask (taskId : Z) (table : list Task) : list Task :=
  deleteWhere (fun row => bool_decide (id row = taskId)) table.

(** [toggleComplete(task)]: the new flag is computed from the task the
    component holds, not from the row. *)
Definition toggleComplete (task : Task) (table : list Task) : list Task :=
  updateWhereId (id task)
    (fun row => mkTask (id row) (text row) (userDate row) (negb (completed task)))
    table.

Definition clearCompleted (table : list Task) : list Task :=
  deleteWhere (fun row => bool_decide (completed row = true)) table.

(** ** The toast and its timeouts *)

(** The [toast] state, with the timeouts of [showToast] that are pending,
    each with the time at which it fires. *)
Record ToastView : Type := mkToastView { toast : option Toast; hideAt : list Z }.

(** [showToast(task)] at the time [clock]: the toast is set and a timeout of
    5000 ms is started; the timeouts started before stay as they are. *)
Definition showToast (clock : Z) (task : Task) (v : ToastView) : ToastView :=
  mkToastView (Some (toastOf task)) (hideAt v ++ [(clock + 5000)%Z]).

(** The clock reaches [clock]: the timeouts due by then fire, each with
    [setToast(null)]. *)
Definition elapse (clock : Z) (v : ToastView) : ToastView :=
  mkToastView
    (if forallb (fun due => (clock <? due)%Z) (hideAt v) then toast v else None)
    (List.filter (fun due => (clock <? due)%Z) (hideAt v)).

(** A click on the toast: [setToast(null)]. *)
Definition dismissToast (v : ToastView) : ToastView := mkToastView None (hideAt v).

(** The calls of [showToast] among the effects [es] of a run of
    [checkDueTasks] at the time [clock], in their order. *)
Definition showToasts (clock : Z) (es : list Effect) (v : ToastView) : ToastView :=
  foldl (fun v e => match e with
                    | ShowToast task => showToast clock task v
                    | SendNotification _ => v
                    end) v es.

(** ** Vocabulary for the standalone time *)

(** [<1-2 digit>:<2 digit>], at most one blank, and a meridiem marker. *)
Definition markedTimeShape (w : jsstring) : Prop :=
  ∃ hh mi sp mer,
    w = hh ++ 58%N :: mi ++ sp ++ mer
    ∧ digitRun 1 2 hh ∧ digitRun 2 2 mi ∧ optionalBlank sp ∧ meridiem mer.

(** Between [pre] and [post] a word stands on its own: no word character
    ([[A-Za-z0-9_]]) touches it on either side. *)
Definition ownWord (pre post : jsstring) : Prop :=
  IsWordChar (last pre) = false ∧ IsWordChar (head post) = false.

(** ** Vocabulary for the calendar *)

(** The number of days of month [m] (0 for January) of year [y]. *)
Definition daysInMonth (y m : Z) : Z :=
  if (m =? 1)%Z then (if InLeapYear y then 29 else 28)%Z
  else if ((m =? 3) || (m =? 5) || (m =? 8) || (m =? 10))%Z then 30%Z
  else 31%Z.

(** The text [DD/MM/YYYY] of a day, a month (1 for January) and a year. *)
Definition dateText (d m y : N) : jsstring :=
  two d ++ lit "/" ++ two m ++ lit "/" ++ String_ y.
(** ** The matcher and the relation agree *)

Module RegExpFacts.

Lemma samePos_refl x : samePos x x.
Proof. by split. Qed.

Lemma samePos_sym x y : samePos x y → samePos y x.
Proof. intros [? ?]; split; congruence. Qed.

Lemma samePos_trans x y z : samePos x y → samePos y z → samePos x z.
Proof. intros [? ?] [? ?]; split; congruence. Qed.

Lemma samePos_clear gs x : samePos (clearCaptures gs x) x.
Proof. by split. Qed.

Lemma spans_nil x : spans x [] x.
Proof. by split. Qed.

Lemma spans_app x w1 z w2 y : spans x w1 z → spans z w2 y → spans x (w1 ++ w2) y.
Proof.
  intros [Ha Hb] [Ha' Hb']. split.
  - by rewrite Ha, Ha', app_assoc.
  - by rewrite Hb', Hb, rev_app_distr, app_assoc.
Qed.

Lemma spans_length x w y : spans x w y → endIndex y = endIndex x + length w.
Proof.
  intros [_ Hb]. unfold endIndex. rewrite Hb, length_app, length_rev. lia.
Qed.

Lemma spans_after_length x w y :
  spans x w y → length (after x) = length w + length (after y).
Proof. intros [Ha _]. by rewrite Ha, length_app. Qed.

Lemma spans_samePos_l x x' w y : spans x w y → samePos x x' → spans x' w y.
Proof. intros [Ha Hb] [E1 E2]. split; congruence. Qed.

Lemma spans_inj x w y y' : spans x w y → spans x w y' → samePos y y'.
Proof.
  intros [Ha Hb] [Ha' Hb']. split; [congruence|].
  rewrite Ha in Ha'. by apply app_inv_head in Ha'.
Qed.

Lemma spans_take x w y : spans x w y → take (endIndex y - endIndex x) (after x) = w.
Proof.
  intros H. rewrite (spans_length _ _ _ H). destruct H as [-> _].
  replace (endIndex x + length w - endIndex x) with (length w) by lia.
  by rewrite take_app_length.
Qed.

Lemma consume_spans p x y : consume p x y → ∃ ch, p ch = true ∧ spans x [ch] y.
Proof. intros (ch & Hp & Ha & Hb & _). exists ch. by repeat split. Qed.

Lemma iter_spans (R : MatchState → MatchState → Prop) n :
  (∀ a b, R a b → ∃ w, spans a w b) →
  ∀ x y, iter R n x y → ∃ w, spans x w y.
Proof.
  intros HR. induction n as [|n IH]; simpl; intros x y.
  - intros ->. exists []. apply spans_nil.
  - intros (z & Hxz & Hzy). destruct (HR _ _ Hxz) as [w1 H1].
    destruct (IH _ _ Hzy) as [w2 H2]. exists (w1 ++ w2). eapply spans_app; eauto.
Qed.

(** A pattern moves forward over a word of the input. *)
Lemma reach_spans ic r : ∀ x y, reach ic r x y → ∃ w, spans x w y.
Proof.
  induction r as [p|a|r1 IH1 r2 IH2|r1 IH1 r2 IH2|r1 IH1 min max|n r1 IH1|];
    simpl; intros x y H.
  - apply consume_spans in H as (ch & _ & H). eauto.
  - apply consume_spans in H as (ch & _ & H). eauto.
  - destruct H as (z & H1 & H2). apply IH1 in H1 as [w1 H1]. apply IH2 in H2 as [w2 H2].
    exists (w1 ++ w2). eapply spans_app; eauto.
  - destruct H as [H|H]; eauto.
  - destruct H as (n & _ & H). revert H. apply iter_spans.
    intros a b Hab. apply IH1 in Hab as [w Hw]. exists w.
    eapply spans_samePos_l; [exact Hw | apply samePos_clear].
  - destruct H as (z & H & ->). apply IH1 in H as [w Hw]. exists w. exact Hw.
  - destruct H as [_ ->]. exists []. apply spans_nil.
Qed.

(** *** Soundness: the matcher only finds what the pattern matches *)


Lemma CharacterSetMatcher_sound p : soundFor (CharacterSetMatcher p) (consume p).
Proof.
  intros [bef aft caps] c res. unfold CharacterSetMatcher. simpl.
  destruct aft as [|ch rest]; [done|]. destruct (p ch) eqn:Hp; [|done].
  intros H. eexists. split; [|exact H]. exists ch. by repeat split.
Qed.

Lemma RepeatMatcher_sound m R gs :
  soundFor m R →
  ∀ fuel min max x c res,
    match max with Some k => min ≤ k | None => True end →
    RepeatMatcher m gs fuel min max x c = Some res →
    ∃ n y, inRange min max n
           ∧ iter (fun a b => R (clearCaptures gs a) b) n x y
           ∧ c y = Some res.
Proof.
  intros Hm. induction fuel as [|fuel IH]; intros min max x c res Hord H.
  - destruct max as [[|k]|]; simpl in H; try done.
    exists 0, x. repeat split; [lia | lia | done].
  - assert (Hstep : ∀ y, (if (min =? 0) && (endIndex y =? endIndex x) then None
                          else RepeatMatcher m gs fuel (pred min) (pred <$> max) y c)
                         = Some res →
              match max with Some 0 => False | _ => True end →
              ∀ z, R (clearCaptures gs x) z → z = y →
              ∃ n y', inRange min max n
                ∧ iter (fun a b => R (clearCaptures gs a) b) n x y' ∧ c y' = Some res).
    { intros y Hd Hmax z Hz ->.
      destruct ((min =? 0) && (endIndex y =? endIndex x)); [done|].
      apply IH in Hd as (n & y' & [Hlo Hhi] & Hit & Hc).
      - exists (S n), y'. split; [|split; [exists y; by split | done]].
        split; [lia|]. destruct max as [k|]; simpl in *; [|done].
        destruct k; [done | simpl in *; lia].
      - destruct max as [k|]; simpl; [|done]. lia. }
    destruct max as [[|k]|].
    + simpl in H. exists 0, x. repeat split; [lia | lia | done].
    + simpl in H. destruct (min =? 0) eqn:Hmin.
      * destruct (m (clearCaptures gs x) _) as [z|] eqn:Hz.
        -- injection H as ->. apply Hm in Hz as (y & HR & Hd).
           eapply Hstep; eauto.
        -- apply Nat.eqb_eq in Hmin as ->. exists 0, x.
           repeat split; [lia | lia | done].
      * apply Hm in H as (y & HR & Hd). eapply Hstep; eauto.
    + simpl in H. destruct (min =? 0) eqn:Hmin.
      * destruct (m (clearCaptures gs x) _) as [z|] eqn:Hz.
        -- injection H as ->. apply Hm in Hz as (y & HR & Hd).
           eapply Hstep; eauto.
        -- apply Nat.eqb_eq in Hmin as ->. exists 0, x.
           repeat split; [lia | done].
      * apply Hm in H as (y & HR & Hd). eapply Hstep; eauto.
Qed.

Theorem exec_sound ic r : ordered r → soundFor (exec ic r) (reach ic r).
Proof.
  induction r as [p|a|r1 IH1 r2 IH2|r1 IH1 r2 IH2|r1 IH1 min max|n r1 IH1|];
    simpl; intros Hord x c res H.
  - by apply CharacterSetMatcher_sound.
  - by apply CharacterSetMatcher_sound in H.
  - destruct Hord as [H1 H2].
    apply IH1 in H as (z & Hz & H); [|done]. apply IH2 in H as (y & Hy & H); [|done].
    exists y. split; [exists z; by split | done].
  - destruct Hord as [H1 H2]. destruct (exec ic r1 x c) as [z|] eqn:E.
    + injection H as ->. apply IH1 in E as (y & Hy & E); [|done]. exists y. tauto.
    + apply IH2 in H as (y & Hy & E'); [|done]. exists y. tauto.
  - destruct Hord as [H1 H2].
    eapply RepeatMatcher_sound in H as (n & y & Hn & Hit & Hc); [| by apply IH1 | done].
    exists y. split; [exists n; by split | done].
  - apply IH1 in H as (z & Hz & H); [|done].
    eexists. split; [exists z; split; [exact Hz | reflexivity] | exact H].
  - destruct (negb _) eqn:E; [|done]. exists x. split; [|done]. split; [|done].
    unfold atBoundary. intros Heq. rewrite Heq in E.
    by destruct (IsWordChar (head (after x))).
Qed.

(** *** Completeness: what the pattern matches, the matcher finds *)



Lemma iter_positional R n : positional R → positional (iter R n).
Proof.
  intros HR. induction n as [|n IH]; simpl; intros a b a' H Hs.
  - subst b. by exists a'.
  - destruct H as (z & Haz & Hzb). destruct (HR _ _ _ Haz Hs) as (z' & Haz' & Hs').
    destruct (IH _ _ _ Hzb Hs') as (b' & Hzb' & Hs''). exists b'. split; [|done].
    by exists z'.
Qed.

Lemma consume_positional p : positional (consume p).
Proof.
  intros a b a' (ch & Hp & Ha & Hb & Hc) [E1 E2].
  exists (mkState (before b) (after b) (captures a')). split; [|by split].
  exists ch. simpl. repeat split; congruence.
Qed.

(** What a pattern can match does not depend on the captures. *)
Lemma reach_positional ic r : positional (reach ic r).
Proof.
  induction r as [p|a|r1 IH1 r2 IH2|r1 IH1 r2 IH2|r1 IH1 min max|n r1 IH1|];
    simpl; intros x y x' H Hs.
  - by eapply consume_positional.
  - by eapply consume_positional.
  - destruct H as (z & H1 & H2). destruct (IH1 _ _ _ H1 Hs) as (z' & H1' & Hs').
    destruct (IH2 _ _ _ H2 Hs') as (y' & H2' & Hs''). exists y'. split; [|done].
    by exists z'.
  - destruct H as [H|H]; [destruct (IH1 _ _ _ H Hs) as (y' & H' & Hs')
                         | destruct (IH2 _ _ _ H Hs) as (y' & H' & Hs')];
      exists y'; tauto.
  - destruct H as (n & Hn & Hit).
    assert (Hpos : positional (fun a b => reach ic r1 (clearCaptures (groups r1) a) b)).
    { intros a b a' Hab Haa'. eapply IH1; [exact Hab|]. destruct Haa'. by split. }
    destruct (iter_positional _ n Hpos _ _ _ Hit Hs) as (y' & Hit' & Hs').
    exists y'. split; [|done]. by exists n.
  - destruct H as (z & H & ->). destruct (IH1 _ _ _ H Hs) as (z' & H' & Hs').
    exists (setCapture n x' z'). split; [by exists z'|]. destruct Hs'. by split.
  - destruct H as [Hb ->]. exists x'. split; [|done]. split; [|done].
    unfold atBoundary in *. destruct Hs as [<- <-]. done.
Qed.


Lemma RepeatMatcher_complete m R gs :
  completeFor m R → positional R → (∀ a b, R a b → ∃ w, spans a w b) →
  ∀ n fuel min max x y c,
    inRange min max n → fuelOk fuel min max x →
    iter (fun a b => R (clearCaptures gs a) b) n x y →
    (∀ y', samePos y y' → is_Some (c y')) →
    is_Some (RepeatMatcher m gs fuel min max x c).
Proof.
  intros Hm Hpos Hsp.
  assert (Hpos' : positional (fun a b => R (clearCaptures gs a) b)).
  { intros a b a' Hab [E1 E2]. eapply Hpos; [exact Hab | by split]. }
  induction n as [|n IH]; intros fuel min max x y c [Hlo Hhi] Hfuel Hit Hc.
  - simpl in Hit. subst y. assert (min = 0) as -> by lia.
    destruct max as [[|k]|]; simpl.
    + destruct fuel; simpl; apply Hc, samePos_refl.
    + destruct fuel as [|fuel]; [simpl in Hfuel; lia|]. simpl.
      destruct (m _ _); [done | apply Hc, samePos_refl].
    + destruct fuel as [|fuel]; [simpl in Hfuel; lia|]. simpl.
      destruct (m _ _); [done | apply Hc, samePos_refl].
  - destruct Hit as (z & Hxz & Hzy).
    destruct (Hsp _ _ Hxz) as [w Hw].
    apply (spans_samePos_l _ x) in Hw; [|apply samePos_clear].
    (* an iteration that consumed nothing can be left out *)
    destruct (decide (min = 0 ∧ endIndex z = endIndex x)) as [[-> Hempty]|Hne].
    { assert (samePos z x) as Hzx.
      { pose proof (spans_length _ _ _ Hw) as Hl.
        assert (w = []) as -> by (destruct w; [done | simpl in Hl; lia]).
        destruct Hw as [Ha Hb]. simpl in *. by split. }
      destruct (iter_positional _ n Hpos' _ _ _ Hzy Hzx) as (y' & Hit' & Hs').
      apply (IH fuel 0 max x y' c); [split; [lia|] | done | done |].
      - destruct max as [k|]; [lia | done].
      - intros y'' Hs''. apply Hc. by eapply samePos_trans. }
    assert (fuel ≠ 0 ∧ max ≠ Some 0) as [Hf Hmax].
    { destruct max as [k|]; simpl in Hfuel; split; try done; try lia.
      intros [= ->]. lia. }
    destruct fuel as [|fuel]; [done|].
    assert (Hd : ∀ z', samePos z z' →
              is_Some (if (min =? 0) && (endIndex z' =? endIndex x) then None
                       else RepeatMatcher m gs fuel (pred min) (pred <$> max) z' c)).
    { intros z' Hzz'.
      assert (endIndex z' = endIndex z) as Hez
        by (unfold endIndex; destruct Hzz' as [-> _]; done).
      assert ((min =? 0) && (endIndex z' =? endIndex x) = false) as ->.
      { apply andb_false_iff. rewrite Nat.eqb_neq, Nat.eqb_neq. lia. }
      destruct (iter_positional _ n Hpos' _ _ _ Hzy Hzz') as (y' & Hit' & Hs').
      apply (IH fuel (pred min) (pred <$> max) z' y' c).
      - split; [lia|]. destruct max as [k|]; simpl; [lia | done].
      - pose proof (spans_after_length _ _ _ Hw) as Hal.
        pose proof (spans_length _ _ _ Hw) as Hl.
        unfold fuelOk in *. destruct max as [k|]; simpl in *; [lia|].
        destruct Hzz' as [_ <-].
        destruct (decide (min = 0)) as [->|]; [|lia].
        assert (length w ≠ 0) by lia. lia.
      - done.
      - intros y'' Hs''. apply Hc. by eapply samePos_trans. }
    destruct max as [[|k]|]; [done | |]; simpl;
      (destruct (min =? 0);
       [ destruct (m (clearCaptures gs x) _) eqn:E; [done|];
         exfalso; eapply is_Some_None; rewrite <- E; eapply Hm; [exact Hxz | exact Hd]
       | eapply Hm; [exact Hxz | exact Hd] ]).
Qed.

Theorem exec_complete ic r : completeFor (exec ic r) (reach ic r).
Proof.
  induction r as [p|a|r1 IH1 r2 IH2|r1 IH1 r2 IH2|r1 IH1 min max|n r1 IH1|];
    simpl; intros x y c H Hc.
  - destruct H as (ch & Hp & Ha & Hb & Hcap). unfold CharacterSetMatcher.
    rewrite Ha, Hp. apply Hc. by split.
  - destruct H as (ch & Hp & Ha & Hb & Hcap). unfold CharacterSetMatcher.
    rewrite Ha, Hp. apply Hc. by split.
  - destruct H as (z & H1 & H2). eapply IH1; [exact H1|]. intros z' Hs.
    destruct (reach_positional _ _ _ _ _ H2 Hs) as (y' & H2' & Hs').
    eapply IH2; [exact H2'|]. intros y'' Hs''. apply Hc. by eapply samePos_trans.
  - destruct (exec ic r1 x c) eqn:E; [done|]. destruct H as [H|H].
    + exfalso. eapply is_Some_None. rewrite <- E. by eapply IH1.
    + by eapply IH2.
  - destruct H as (n & Hn & Hit).
    eapply RepeatMatcher_complete;
      [exact IH1 | apply reach_positional | apply reach_spans | exact Hn | | exact Hit | exact Hc].
    destruct max; simpl; lia.
  - destruct H as (z & H & ->). eapply IH1; [exact H|]. intros z' [E1 E2].
    apply Hc. by split.
  - destruct H as [Hb ->]. unfold atBoundary in Hb.
    destruct (IsWordChar (head (before x))), (IsWordChar (head (after x))); simpl;
      try done; apply Hc, samePos_refl.
Qed.

(** *** The search for the first match *)

Lemma exec_None_no_reach ic r x :
  exec ic r x Some = None → ∀ y, ¬ reach ic r x y.
Proof.
  intros E y H. eapply is_Some_None. rewrite <- E.
  eapply exec_complete; [exact H|]. by eexists.
Qed.

Lemma rev_cons_app (ch : N) pre bef : rev (ch :: pre) ++ bef = rev pre ++ ch :: bef.
Proof. simpl. by rewrite <- app_assoc. Qed.

(** A successful search stops at the leftmost start index where the pattern
    matches, and returns what the matcher consumed there. *)
Lemma search_Some ic r :
  ordered r →
  ∀ aft bef m, search ic r bef aft = Some m →
  ∃ pre rest y w,
    aft = pre ++ rest
    ∧ reach ic r (mkState (rev pre ++ bef) rest ∅) y
    ∧ spans (mkState (rev pre ++ bef) rest ∅) w y
    ∧ m = mkResult (length bef + length pre) w (captures y)
    ∧ (∀ pre' rest' y', aft = pre' ++ rest' → length pre' < length pre →
         ¬ reach ic r (mkState (rev pre' ++ bef) rest' ∅) y').
Proof.
  intros Hord. induction aft as [|ch aft IH]; intros bef m; simpl;
    destruct (exec ic r (mkState bef _ ∅) Some) as [y0|] eqn:E; try done.
  - intros [= <-]. apply exec_sound in E as (y & Hy & [= <-]); [|done].
    destruct (reach_spans _ _ _ _ Hy) as [w Hw].
    exists [], [], y, w. simpl. do 3 (split; [done|]). split.
    + f_equal; try lia; apply (spans_take _ _ _ Hw).
    + intros; simpl in *; lia.
  - intros [= <-]. apply exec_sound in E as (y & Hy & [= <-]); [|done].
    destruct (reach_spans _ _ _ _ Hy) as [w Hw].
    exists [], (ch :: aft), y, w. simpl. do 3 (split; [done|]). split.
    + f_equal; try lia; apply (spans_take _ _ _ Hw).
    + intros; simpl in *; lia.
  - intros H. apply IH in H as (pre & rest & y & w & -> & Hy & Hw & -> & Hleft).
    exists (ch :: pre), rest, y, w. rewrite rev_cons_app.
    do 3 (split; [done|]). split.
    + simpl. f_equal. lia.
    + intros pre' rest' y' Heq Hlen. destruct pre' as [|ch' pre'].
      * simpl in Heq. subst rest'. simpl. by apply exec_None_no_reach.
      * injection Heq as <- Heq. rewrite rev_cons_app. apply Hleft; [done|].
        simpl in Hlen. lia.
Qed.

(** A failed search: the pattern matches at no start index. *)
Lemma search_None ic r :
  ∀ aft bef, search ic r bef aft = None →
  ∀ pre rest y, aft = pre ++ rest → ¬ reach ic r (mkState (rev pre ++ bef) rest ∅) y.
Proof.
  induction aft as [|ch aft IH]; intros bef; simpl;
    destruct (exec ic r (mkState bef _ ∅) Some) as [y0|] eqn:E; try done.
  - intros _ pre rest y Heq. symmetry in Heq. apply app_eq_nil in Heq as [-> ->].
    by apply exec_None_no_reach.
  - intros H pre rest y Heq. destruct pre as [|ch' pre].
    + simpl in Heq. subst rest. by apply exec_None_no_reach.
    + injection Heq as <- Heq. rewrite rev_cons_app. by eapply IH.
Qed.

(** [text.match(re)] succeeds exactly when the pattern matches somewhere. *)
Lemma match_Some text re m :
  ordered (source re) → match_ text re = Some m →
  ∃ pre w post y,
    text = pre ++ w ++ post
    ∧ reach (ignoreCase re) (source re) (mkState (rev pre) (w ++ post) ∅) y
    ∧ spans (mkState (rev pre) (w ++ post) ∅) w y
    ∧ m = mkResult (length pre) w (captures y)
    ∧ (∀ pre' rest' y', text = pre' ++ rest' → length pre' < length pre →
         ¬ reach (ignoreCase re) (source re) (mkState (rev pre') rest' ∅) y').
Proof.
  intros Hord H. apply search_Some in H as (pre & rest & y & w & -> & Hy & Hw & -> & Hl);
    [|done].
  rewrite app_nil_r in *. pose proof Hw as [Ha _]. simpl in Ha. subst rest.
  exists pre, w, (after y), y. do 4 (split; [done|]).
  intros pre' rest' y' Heq Hlen Hr. eapply (Hl pre' rest' y'); try done.
  by rewrite app_nil_r.
Qed.

Lemma match_None text re :
  match_ text re = None →
  ∀ pre rest y, text = pre ++ rest →
    ¬ reach (ignoreCase re) (source re) (mkState (rev pre) rest ∅) y.
Proof.
  intros H pre rest y Heq Hr. eapply (search_None _ _ _ _ H pre rest y); [done|].
  by rewrite app_nil_r.
Qed.

Lemma match_is_Some text re pre rest y :
  text = pre ++ rest →
  reach (ignoreCase re) (source re) (mkState (rev pre) rest ∅) y →
  is_Some (match_ text re).
Proof.
  intros Heq Hr. destruct (match_ text re) eqn:E; [done|].
  exfalso. by eapply match_None.
Qed.

(** [text.replace(re, "")] cuts the match out of the text. *)
Lemma replaceEmpty_Some text re pre w post caps :
  text = pre ++ w ++ post → match_ text re = Some (mkResult (length pre) w caps) →
  replaceEmpty text re = pre ++ post.
Proof.
  intros -> E. unfold replaceEmpty. rewrite E. simpl.
  by rewrite take_app_length, drop_app_add, drop_app_length.
Qed.

Lemma search_unfold ic r bef aft :
  search ic r bef aft =
    match exec ic r (mkState bef aft ∅) Some with
    | Some y =>
        Some (mkResult (length bef) (take (endIndex y - length bef) aft) (captures y))
    | None =>
        match aft with
        | ch :: aft' => search ic r (ch :: bef) aft'
        | [] => None
        end
    end.
Proof. by destruct aft. Qed.

(** The result of a search is what the matcher returns at the start index
    of the match. *)
Lemma search_exec ic r :
  ∀ aft bef m, search ic r bef aft = Some m →
  ∃ pre rest y,
    aft = pre ++ rest
    ∧ exec ic r (mkState (rev pre ++ bef) rest ∅) Some = Some y
    ∧ m = mkResult (length bef + length pre)
            (take (endIndex y - (length bef + length pre)) rest) (captures y).
Proof.
  induction aft as [|ch aft IH]; intros bef m; rewrite search_unfold;
    destruct (exec ic r (mkState bef _ ∅) Some) as [y0|] eqn:E; try done.
  - intros [= <-]. exists [], [], y0. simpl. by rewrite Nat.add_0_r.
  - intros [= <-]. exists [], (ch :: aft), y0. simpl. by rewrite Nat.add_0_r.
  - intros H. apply IH in H as (pre & rest & y & -> & Hy & ->).
    exists (ch :: pre), rest, y. rewrite rev_cons_app. simpl.
    replace (length bef + S (length pre)) with (S (length bef + length pre)) by lia.
    done.
Qed.

(** *** Classes, runs of a class, groups *)

Lemma moved_nil x y : moved x [] (captures x) y → x = y.
Proof.
  intros [[Ha Hb] Hc]. destruct x, y. simpl in *. by subst.
Qed.

Lemma moved_app x w1 cs1 z w2 cs2 y :
  moved x w1 cs1 z → moved z w2 cs2 y → moved x (w1 ++ w2) cs2 y.
Proof. intros [H1 _] [H2 Hc]. split; [by eapply spans_app | done]. Qed.

Lemma consume_moved p x y :
  consume p x y ↔ ∃ ch, p ch = true ∧ moved x [ch] (captures x) y.
Proof.
  split.
  - intros (ch & Hp & Ha & Hb & Hc). exists ch. by repeat split.
  - intros (ch & Hp & [Ha Hb] & Hc). exists ch. by repeat split.
Qed.

Lemma iter_consume p n x y :
  iter (fun a b => consume p (clearCaptures [] a) b) n x y
  ↔ ∃ w, length w = n ∧ forallb p w = true ∧ moved x w (captures x) y.
Proof.
  split.
  - revert x. induction n as [|n IH]; simpl; intros x.
    + intros ->. exists []. by repeat split.
    + intros (z & (ch & Hp & Ha & Hb & Hc) & Hit). simpl in *.
      apply IH in Hit as (w & Hlen & Hall & Hw & Hcs).
      exists (ch :: w). simpl. rewrite Hp, Hall, Hlen.
      split; [done|]. split; [done|]. split; [|congruence].
      apply (spans_app x [ch] z w y); [by split | done].
  - intros (w & <- & Hall & Hm). revert x Hall Hm.
    induction w as [|ch w IH]; simpl; intros x Hall Hm.
    + by apply moved_nil.
    + apply andb_true_iff in Hall as [Hp Hall]. destruct Hm as [[Ha Hb] Hc].
      exists (mkState (ch :: before x) (w ++ after y) (captures x)). split.
      * exists ch. by repeat split.
      * apply IH; [done|]. repeat split; simpl; try done.
        rewrite Hb. simpl. by rewrite <- app_assoc.
Qed.

(** A quantified class matches a run of its characters. *)
Lemma reach_rep_cls ic p lo max x y :
  reach ic (Rep (Cls p) lo max) x y
  ↔ ∃ w, inRange lo max (length w) ∧ forallb p w = true ∧ moved x w (captures x) y.
Proof.
  simpl. split.
  - intros (n & Hn & Hit). apply iter_consume in Hit as (w & <- & Hall & Hm). eauto.
  - intros (w & Hn & Hall & Hm). exists (length w). split; [done|].
    apply iter_consume. eauto.
Qed.

(** A group records the word its body matched. *)
Lemma reach_group ic n r x y w cs :
  (∃ z, reach ic r x z ∧ moved x w cs z ∧ y = setCapture n x z)
  → reach ic (Group n r) x y ∧ moved x w (<[n := w]> cs) y.
Proof.
  intros (z & Hr & [Hs Hc] & ->). split; [by exists z|].
  split; [done|]. simpl. by rewrite (spans_take _ _ _ Hs), Hc.
Qed.

Lemma reach_group_inv ic n r x y :
  reach ic (Group n r) x y →
  ∃ z w, reach ic r x z ∧ spans x w z ∧ moved x w (<[n := w]> (captures z)) y.
Proof.
  intros (z & Hr & ->). destruct (reach_spans _ _ _ _ Hr) as [w Hw].
  exists z, w. repeat split; try done; try apply Hw.
  simpl. by rewrite (spans_take _ _ _ Hw).
Qed.


Lemma moved_advance x w rest cs :
  after x = w ++ rest → moved x w cs (advance x w rest cs).
Proof. intros H. by repeat split. Qed.

(** *** Building a match from a word *)


Lemma advance_advance x w1 w2 rest rest' cs cs' :
  advance (advance x w1 rest' cs') w2 rest cs = advance x (w1 ++ w2) rest cs.
Proof. unfold advance. simpl. by rewrite rev_app_distr, app_assoc. Qed.

Lemma accepts_cls ic p ch : p ch = true → accepts ic (Cls p) [ch] (fun cs => cs).
Proof. intros Hp x rest Ha. exists ch. by repeat split. Qed.

Lemma accepts_chr ic a ch :
  (canonicalize ic ch =? canonicalize ic a)%N = true → accepts ic (Chr a) [ch] (fun cs => cs).
Proof. intros Hp x rest Ha. exists ch. by repeat split. Qed.

Lemma accepts_seq ic r1 r2 w1 w2 f1 f2 :
  accepts ic r1 w1 f1 → accepts ic r2 w2 f2 →
  accepts ic (Seq r1 r2) (w1 ++ w2) (f2 ∘ f1).
Proof.
  intros H1 H2 x rest Ha. rewrite <- app_assoc in Ha.
  exists (advance x w1 (w2 ++ rest) (f1 (captures x))). split; [by apply H1|].
  rewrite <- (advance_advance x w1 w2 rest (w2 ++ rest) _ (f1 (captures x))).
  by apply (H2 (advance x w1 (w2 ++ rest) (f1 (captures x))) rest).
Qed.

Lemma accepts_rep_cls ic p lo max w :
  inRange lo max (length w) → forallb p w = true →
  accepts ic (Rep (Cls p) lo max) w (fun cs => cs).
Proof.
  intros Hn Hall x rest Ha. apply reach_rep_cls. exists w.
  split; [done|]. split; [done|]. by apply moved_advance.
Qed.

Lemma accepts_group ic n r w f :
  accepts ic r w f → accepts ic (Group n r) w (fun cs => <[n := w]> (f cs)).
Proof.
  intros H x rest Ha. exists (advance x w rest (f (captures x))).
  split; [by apply H|]. unfold setCapture, advance. simpl. f_equal. f_equal.
  symmetry. eapply spans_take, (moved_advance x w rest (f (captures x))), Ha.
Qed.

(** A quantifier with minimum 0 may match nothing. *)
Lemma accepts_skip ic r max : accepts ic (Rep r 0 max) [] (fun cs => cs).
Proof.
  intros x rest Ha. exists 0. split.
  - split; [lia|]. destruct max; [lia | done].
  - simpl. destruct x. simpl in *. by subst.
Qed.

(** *** The tail of a time: [\s?(AM|PM)?] *)

Lemma reach_two_chars a1 a2 x y :
  reach true (Chr a1 ⋅ Chr a2) x y →
  ∃ c1 c2, toUpperCase [c1; c2] = [canonicalize true a1; canonicalize true a2]
           ∧ moved x [c1; c2] (captures x) y.
Proof.
  intros (z & H1 & H2).
  apply consume_moved in H1 as (c1 & Hc1 & Hs1 & Hcs).
  apply consume_moved in H2 as (c2 & Hc2 & Hm2).
  apply N.eqb_eq in Hc1, Hc2. exists c1, c2. split.
  - unfold toUpperCase. cbn [map]. by rewrite Hc1, Hc2.
  - rewrite Hcs in Hm2. exact (moved_app x [c1] _ z [c2] _ y (conj Hs1 Hcs) Hm2).
Qed.

Lemma reach_AM_PM x y :
  reach true AM_PM x y → ∃ mer, meridiem mer ∧ moved x mer (captures x) y.
Proof.
  intros [H|H]; apply reach_two_chars in H as (c1 & c2 & Hup & Hm);
    exists [c1; c2]; (split; [|done]); [left | right]; exact Hup.
Qed.

Lemma reach_optional ic r x y :
  reach ic (opt r) x y →
  y = x ∨ reach ic r (clearCaptures (groups r) x) y.
Proof.
  intros (n & [_ Hn] & Hit). destruct n as [|[|n]]; simpl in *; [by left| |lia].
  destruct Hit as (z & Hz & ->). by right.
Qed.

Lemma reach_time_tail x y :
  reach true (opt space ⋅ opt (Group 3 AM_PM)) x y →
  ∃ sp, optionalBlank sp
    ∧ (moved x sp (captures x) y
       ∨ ∃ mer, meridiem mer
           ∧ moved x (sp ++ mer) (<[3 := mer]> (delete 3 (captures x))) y).
Proof.
  intros (z & H1 & H2).
  apply reach_rep_cls in H1 as (sp & [_ Hn] & Hall & Hsp).
  exists sp. split.
  { destruct sp as [|ch [|??]]; simpl in *; [by left | right | lia].
    exists ch. split; [done|]. by destruct (is_space ch). }
  apply reach_optional in H2 as [->|H2]; [by left|]. right.
  apply reach_group_inv in H2 as (z' & mer & Hr & Hs & Hm).
  apply reach_AM_PM in Hr as (mer' & Hmer & Hm').
  assert (mer' = mer) as ->.
  { destruct Hm' as [[Ha _] _], Hs as [Ha' _]. rewrite Ha in Ha'.
    by apply app_inv_tail in Ha'. }
  exists mer. split; [done|]. destruct Hm' as [_ Hcs]. rewrite Hcs in Hm. simpl in Hm.
  destruct Hsp as [Hsp Hcz]. rewrite Hcz in Hm. destruct Hm as [Hm Hcy].
  split; [|done]. eapply spans_app; [exact Hsp|].
  eapply spans_samePos_l; [exact Hm | apply samePos_clear].
Qed.

(** *** The patterns of the component *)

Lemma spans_word x w w' y : spans x w y → spans x w' y → w = w'.
Proof.
  intros [Ha _] [Ha' _]. rewrite Ha in Ha'. by apply app_inv_tail in Ha'.
Qed.

Lemma moved_then x w1 cs1 z w2 f y :
  moved x w1 cs1 z → moved z w2 (f (captures z)) y → moved x (w1 ++ w2) (f cs1) y.
Proof.
  intros [H1 Hc1] [H2 Hc2]. split; [by eapply spans_app | by rewrite Hc2, Hc1].
Qed.

Lemma reach_group_rep_cls ic n p lo max x y :
  reach ic (Group n (Rep (Cls p) lo max)) x y →
  ∃ w, inRange lo max (length w) ∧ forallb p w = true
       ∧ moved x w (<[n := w]> (captures x)) y.
Proof.
  intros H. apply reach_group_inv in H as (z & w & Hr & Hs & Hm).
  apply reach_rep_cls in Hr as (w' & Hn & Hall & [Hs' Hc]).
  rewrite (spans_word _ _ _ _ Hs Hs'), Hc in *. eauto.
Qed.

Lemma reach_cls ic p x y :
  reach ic (Cls p) x y → ∃ ch, p ch = true ∧ moved x [ch] (captures x) y.
Proof. intros H. by apply consume_moved in H. Qed.

Lemma reach_colon ic x y : reach ic (Chr 58) x y → moved x [58%N] (captures x) y.
Proof.
  intros H. apply consume_moved in H as (ch & Hc & Hm).
  apply N.eqb_eq in Hc. replace (canonicalize ic 58) with 58%N in Hc by by destruct ic.
  assert (ch = 58%N) as ->; [|done].
  unfold canonicalize in Hc. destruct (_ && _) eqn:E; [|done].
  apply andb_true_iff in E as [E1 E2]. apply andb_true_iff in E1 as [_ E1].
  apply N.leb_le in E1, E2. lia.
Qed.

Lemma range_digitRun lo hi w :
  inRange lo (Some hi) (length w) → forallb is_digit w = true → digitRun lo hi w.
Proof. intros [? ?] ?. by repeat split. Qed.

(** The date part of the pattern of [extractDateTime]. *)
Lemma reach_date ic x y :
  reach ic (rep digit 1 2 ⋅ sep ⋅ rep digit 1 2 ⋅ sep ⋅ rep digit 2 4) x y →
  ∃ w, dateShape w ∧ moved x w (captures x) y.
Proof.
  intros (z1 & H1 & z2 & H2 & z3 & H3 & z4 & H4 & H5).
  apply reach_rep_cls in H1 as (dd & Hn1 & Hd1 & Hm1).
  apply reach_cls in H2 as (s1 & Hs1 & Hm2).
  apply reach_rep_cls in H3 as (mm & Hn3 & Hd3 & Hm3).
  apply reach_cls in H4 as (s2 & Hs2 & Hm4).
  apply reach_rep_cls in H5 as (yy & Hn5 & Hd5 & Hm5).
  exists (dd ++ s1 :: mm ++ s2 :: yy). split.
  - exists dd, s1, mm, s2, yy. auto 10 using range_digitRun.
  - apply (moved_then x dd _ z1 _ (fun cs => cs)); [done|].
    apply (moved_then z1 [s1] _ z2 _ (fun cs => cs)); [done|].
    apply (moved_then z2 mm _ z3 _ (fun cs => cs)); [done|].
    apply (moved_then z3 [s2] _ z4 _ (fun cs => cs)); done.
Qed.

Lemma accepts_date ic w :
  dateShape w →
  accepts ic (rep digit 1 2 ⋅ sep ⋅ rep digit 1 2 ⋅ sep ⋅ rep digit 2 4) w (fun cs => cs).
Proof.
  intros (dd & s1 & mm & s2 & yy & -> & [Hn1 Hd1] & Hs1 & [Hn2 Hd2] & Hs2 & [Hn3 Hd3]).
  apply (accepts_seq ic _ _ dd (s1 :: mm ++ s2 :: yy) (fun cs => cs) (fun cs => cs));
    [by apply accepts_rep_cls|].
  apply (accepts_seq ic _ _ [s1] (mm ++ s2 :: yy) (fun cs => cs) (fun cs => cs));
    [by apply accepts_cls|].
  apply (accepts_seq ic _ _ mm (s2 :: yy) (fun cs => cs) (fun cs => cs));
    [by apply accepts_rep_cls|].
  apply (accepts_seq ic _ _ [s2] yy (fun cs => cs) (fun cs => cs));
    [by apply accepts_cls | by apply accepts_rep_cls].
Qed.

(** The pattern of [parseUserDate] for the date: the same words, with the
    day, the month and the year captured. *)
Lemma reach_dateMatch x y :
  reach false (source dateMatchRegex) x y →
  ∃ dd s1 mm s2 yy,
    digitRun 1 2 dd ∧ is_sep s1 = true ∧ digitRun 1 2 mm ∧ is_sep s2 = true
    ∧ digitRun 2 4 yy
    ∧ moved x (dd ++ s1 :: mm ++ s2 :: yy)
        (<[3 := yy]> (<[2 := mm]> (<[1 := dd]> (captures x)))) y.
Proof.
  intros (z1 & H1 & z2 & H2 & z3 & H3 & z4 & H4 & H5).
  apply reach_group_rep_cls in H1 as (dd & Hn1 & Hd1 & Hm1).
  apply reach_cls in H2 as (s1 & Hs1 & Hm2).
  apply reach_group_rep_cls in H3 as (mm & Hn3 & Hd3 & Hm3).
  apply reach_cls in H4 as (s2 & Hs2 & Hm4).
  apply reach_group_rep_cls in H5 as (yy & Hn5 & Hd5 & Hm5).
  exists dd, s1, mm, s2, yy. do 5 (split; [auto using range_digitRun|]).
  apply (moved_then x dd _ z1 _ (fun cs => <[3 := yy]> (<[2 := mm]> cs))); [done|].
  apply (moved_then z1 [s1] _ z2 _ (fun cs => <[3 := yy]> (<[2 := mm]> cs))); [done|].
  apply (moved_then z2 mm _ z3 _ (fun cs => <[3 := yy]> cs)); [done|].
  apply (moved_then z3 [s2] _ z4 _ (fun cs => <[3 := yy]> cs)); done.
Qed.

Lemma accepts_dateMatch w :
  dateShape w → ∃ f, accepts false (source dateMatchRegex) w f.
Proof.
  intros (dd & s1 & mm & s2 & yy & -> & [Hn1 Hd1] & Hs1 & [Hn2 Hd2] & Hs2 & [Hn3 Hd3]).
  eexists.
  apply (accepts_seq false _ _ dd (s1 :: mm ++ s2 :: yy));
    [by apply accepts_group, accepts_rep_cls|].
  apply (accepts_seq false _ _ [s1] (mm ++ s2 :: yy)); [by apply accepts_cls|].
  apply (accepts_seq false _ _ mm (s2 :: yy));
    [by apply accepts_group, accepts_rep_cls|].
  apply (accepts_seq false _ _ [s2] yy);
    [by apply accepts_cls | by apply accepts_group, accepts_rep_cls].
Qed.

Lemma ordered_dateTimeRegex : ordered (source dateTimeRegex).
Proof. simpl. repeat split; lia. Qed.

Lemma ordered_timeRegex : ordered (source timeRegex).
Proof. simpl. repeat split; lia. Qed.

Lemma ordered_dateMatchRegex : ordered (source dateMatchRegex).
Proof. simpl. repeat split; lia. Qed.

Lemma ordered_timeMatchRegex : ordered (source timeMatchRegex).
Proof. simpl. repeat split; lia. Qed.

(** [str.match(dateMatchRegex)] finds a date exactly when there is one. *)
Lemma dateMatch_Some str m :
  match_ str dateMatchRegex = Some m →
  ∃ pre dd s1 mm s2 yy post,
    str = pre ++ (dd ++ s1 :: mm ++ s2 :: yy) ++ post
    ∧ digitRun 1 2 dd ∧ is_sep s1 = true ∧ digitRun 1 2 mm ∧ is_sep s2 = true
    ∧ digitRun 2 4 yy
    ∧ m = mkResult (length pre) (dd ++ s1 :: mm ++ s2 :: yy)
            (<[3 := yy]> (<[2 := mm]> (<[1 := dd]> ∅))).
Proof.
  intros H. apply match_Some in H as (pre & w & post & y & -> & Hr & Hs & -> & _);
    [|apply ordered_dateMatchRegex].
  apply reach_dateMatch in Hr as (dd & s1 & mm & s2 & yy & H1 & H2 & H3 & H4 & H5 & Hs' & Hc).
  rewrite (spans_word _ _ _ _ Hs Hs'), Hc. simpl. eauto 15.
Qed.

Lemma dateMatch_is_Some str :
  contains dateShape str → is_Some (match_ str dateMatchRegex).
Proof.
  intros (pre & w & post & -> & Hw). destruct (accepts_dateMatch w Hw) as [f Hf].
  eapply (match_is_Some _ _ pre (w ++ post)); [done|].
  by apply (Hf (mkState (rev pre) (w ++ post) ∅) post).
Qed.

Lemma dateMatch_None str :
  match_ str dateMatchRegex = None ↔ ¬ contains dateShape str.
Proof.
  split.
  - intros E H. apply dateMatch_is_Some in H. rewrite E in H. by eapply is_Some_None.
  - intros H. destruct (match_ str dateMatchRegex) as [m|] eqn:E; [|done].
    exfalso. apply H.
    apply dateMatch_Some in E as (pre & dd & s1 & mm & s2 & yy & post & -> & H').
    exists pre, (dd ++ s1 :: mm ++ s2 :: yy), post. split; [done|].
    exists dd, s1, mm, s2, yy. tauto.
Qed.

(** The pattern of [parseUserDate] for the time. *)
Lemma reach_timeMatch x y :
  reach true (source timeMatchRegex) x y →
  ∃ hh mi sp,
    digitRun 1 2 hh ∧ digitRun 2 2 mi ∧ optionalBlank sp
    ∧ let cs := <[2 := mi]> (<[1 := hh]> (captures x)) in
      (moved x (hh ++ 58%N :: mi ++ sp) cs y
       ∨ ∃ mer, meridiem mer
           ∧ moved x (hh ++ 58%N :: mi ++ sp ++ mer) (<[3 := mer]> (delete 3 cs)) y).
Proof.
  intros (z1 & H1 & z2 & H2 & z3 & H3 & H4).
  apply reach_group_rep_cls in H1 as (hh & Hn1 & Hd1 & Hm1).
  apply reach_colon in H2.
  apply reach_group_rep_cls in H3 as (mi & Hn3 & Hd3 & Hm3).
  apply reach_time_tail in H4 as (sp & Hsp & Htail).
  exists hh, mi, sp. do 3 (split; [auto using range_digitRun|]).
  assert (Hz3 : moved x (hh ++ 58%N :: mi) (<[2 := mi]> (<[1 := hh]> (captures x))) z3).
  { apply (moved_then x hh _ z1 _ (fun cs => <[2 := mi]> cs)); [done|].
    apply (moved_then z1 [58%N] _ z2 _ (fun cs => <[2 := mi]> cs)); done. }
  simpl. destruct Htail as [Hm|(mer & Hmer & Hm)]; [left | right; exists mer; split; [done|]].
  - replace (hh ++ 58%N :: mi ++ sp) with ((hh ++ 58%N :: mi) ++ sp)
      by by rewrite <- app_assoc.
    by apply (moved_then x _ _ z3 _ (fun cs => cs)).
  - replace (hh ++ 58%N :: mi ++ sp ++ mer) with ((hh ++ 58%N :: mi) ++ sp ++ mer)
      by by rewrite <- app_assoc.
    by apply (moved_then x _ _ z3 _ (fun cs => <[3 := mer]> (delete 3 cs))).
Qed.

Lemma accepts_timeMatch hh mi :
  digitRun 1 2 hh → digitRun 2 2 mi →
  ∃ f, accepts true (source timeMatchRegex) (hh ++ 58%N :: mi ++ []) f.
Proof.
  intros [Hn1 Hd1] [Hn2 Hd2]. eexists.
  apply (accepts_seq true _ _ hh (58%N :: mi ++ []));
    [by apply accepts_group, accepts_rep_cls|].
  apply (accepts_seq true _ _ [58%N] (mi ++ [])); [by apply accepts_chr|].
  apply (accepts_seq true _ _ mi []); [by apply accepts_group, accepts_rep_cls|].
  apply (accepts_seq true _ _ [] []); apply accepts_skip.
Qed.

(** What [str.match(timeMatchRegex)] returns: the hour, the minutes and the
    optional marker of a time in [str]. *)
Lemma timeMatch_Some str m :
  match_ str timeMatchRegex = Some m →
  ∃ pre hh mi sp mer post,
    str = pre ++ (hh ++ 58%N :: mi ++ sp ++ default [] mer) ++ post
    ∧ digitRun 1 2 hh ∧ digitRun 2 2 mi ∧ optionalBlank sp
    ∧ match mer with Some p => meridiem p | None => True end
    ∧ group m !! 1 = Some hh ∧ group m !! 2 = Some mi ∧ group m !! 3 = mer.
Proof.
  intros H. apply match_Some in H as (pre & w & post & y & -> & Hr & Hs & -> & _);
    [|apply ordered_timeMatchRegex].
  apply reach_timeMatch in Hr as (hh & mi & sp & H1 & H2 & H3 & Hm). simpl in Hm.
  destruct Hm as [[Hs' Hc]|(mer & Hmer & Hs' & Hc)];
    rewrite (spans_word _ _ _ _ Hs Hs'); simpl; rewrite Hc.
  - exists pre, hh, mi, sp, None, post. simpl. rewrite app_nil_r.
    do 5 (split; [done|]). by simplify_map_eq.
  - exists pre, hh, mi, sp, (Some mer), post. simpl.
    do 5 (split; [done|]). by simplify_map_eq.
Qed.

Lemma timeWord_word hh mi sp mer :
  digitRun 1 2 hh → digitRun 2 2 mi → optionalBlank sp →
  match mer with Some p => meridiem p | None => True end →
  timeWord (hh ++ 58%N :: mi ++ sp ++ default [] mer).
Proof.
  intros H1 H2 H3 H4. exists hh, mi, sp, (default [] mer).
  do 4 (split; [done|]). destruct mer; [by right | by left].
Qed.

Lemma timeMatch_is_Some str :
  contains timeWord str → is_Some (match_ str timeMatchRegex).
Proof.
  intros (pre & w & post & -> & hh & mi & sp & mer & -> & H1 & H2 & _).
  destruct (accepts_timeMatch hh mi H1 H2) as [f Hf].
  eapply (match_is_Some _ _ pre _ _ eq_refl).
  apply (Hf (mkState (rev pre) _ ∅) (sp ++ mer ++ post)). simpl.
  rewrite app_nil_r. by repeat (rewrite <- app_assoc; simpl).
Qed.

Lemma timeMatch_None str :
  match_ str timeMatchRegex = None ↔ ¬ contains timeWord str.
Proof.
  split.
  - intros E H. apply timeMatch_is_Some in H. rewrite E in H. by eapply is_Some_None.
  - intros H. destruct (match_ str timeMatchRegex) as [m|] eqn:E; [|done].
    exfalso. apply H.
    apply timeMatch_Some in E
      as (pre & hh & mi & sp & mer & post & -> & H1 & H2 & H3 & H4 & _).
    eexists pre, _, post. split; [done|]. by apply timeWord_word.
Qed.

(** The pattern of [extractDateTime] and [removeDateTime]. *)
Lemma reach_dateTime x y :
  reach true (source dateTimeRegex) x y → ∃ w, dateTimeWord w ∧ spans x w y.
Proof.
  intros (z1 & H1 & H2).
  apply reach_group_inv in H1 as (z0 & dt & Hr & Hs & [Hs1 _]).
  apply reach_date in Hr as (dt' & Hdt & [Hs' _]).
  rewrite <- (spans_word _ _ _ _ Hs Hs') in Hdt. clear dt' Hs' Hs z0.
  apply reach_optional in H2 as [->|H2].
  { exists dt. split; [|done]. exists dt, []. rewrite app_nil_r. auto. }
  apply reach_group_inv in H2 as (z2 & tm & Hr & Hs & [Hs2 _]).
  apply (spans_samePos_l _ z1) in Hs2; [|apply samePos_clear].
  exists (dt ++ tm). split; [|by eapply spans_app].
  exists dt, tm. do 2 (split; [done|]). right.
  destruct Hr as (za & Ha & zb & Hb & zc & Hc & zd & Hd & He).
  apply reach_rep_cls in Ha as (ws & [Hws _] & Hall & [Sa _]).
  apply reach_rep_cls in Hb as (hh & Hn1 & Hd1 & [Sb _]).
  apply reach_colon in Hc as [Sc _].
  apply reach_rep_cls in Hd as (mi & Hn2 & Hd2 & [Sd _]).
  apply reach_time_tail in He as (sp & Hsp & He).
  assert (∃ mer, (mer = [] ∨ meridiem mer) ∧ spans zd (sp ++ mer) z2)
    as (mer & Hmer & Se).
  { destruct He as [[Se _]|(mer & Hmer & Se & _)].
    - exists []. rewrite app_nil_r. auto.
    - exists mer. auto. }
  exists ws, (hh ++ 58%N :: mi ++ sp ++ mer). split; [|split; [|split]].
  - eapply spans_word; [exact Hs|].
    apply (spans_app _ ws za); [done|]. apply (spans_app _ hh zb); [done|].
    apply (spans_app _ [58%N] zc); [done|]. by apply (spans_app _ mi zd).
  - intros ->. simpl in Hws. lia.
  - done.
  - exists hh, mi, sp, mer. auto using range_digitRun.
Qed.

Lemma accepts_dateTime w :
  dateShape w → ∃ f, accepts true (source dateTimeRegex) (w ++ []) f.
Proof.
  intros Hw. eexists.
  apply (accepts_seq true _ _ w []); [|apply accepts_skip].
  by apply accepts_group, accepts_date.
Qed.

Lemma dateTimeWord_dateShape w : dateTimeWord w → contains dateShape w.
Proof. intros (dt & tm & -> & Hdt & _). by exists [], dt, tm. Qed.

(** [text.match(dateTimeRegex)]: a match is a date and time of the text, and
    no date of the text starts before it. *)
Lemma dateTime_Some text m :
  match_ text dateTimeRegex = Some m →
  ∃ pre w post,
    text = pre ++ w ++ post ∧ dateTimeWord w
    ∧ index m = length pre ∧ matched m = w
    ∧ (∀ pre' w' post', text = pre' ++ w' ++ post' → dateShape w' →
         length pre ≤ length pre').
Proof.
  intros H. apply match_Some in H as (pre & w & post & y & -> & Hr & Hs & -> & Hleft);
    [|apply ordered_dateTimeRegex].
  apply reach_dateTime in Hr as (w0 & Hw & Hs').
  rewrite <- (spans_word _ _ _ _ Hs Hs') in Hw. clear w0 Hs'.
  exists pre, w, post. do 4 (split; [done|]).
  intros pre' w' post' Heq Hw'. apply Nat.nlt_ge. intros Hlt.
  destruct (accepts_dateTime w' Hw') as [f Hf].
  eapply (Hleft pre' (w' ++ post') _ Heq Hlt).
  apply (Hf (mkState (rev pre') (w' ++ post') ∅) post'). simpl.
  by rewrite app_nil_r.
Qed.

Lemma dateTime_is_Some text :
  contains dateShape text → is_Some (match_ text dateTimeRegex).
Proof.
  intros (pre & w & post & -> & Hw). destruct (accepts_dateTime w Hw) as [f Hf].
  eapply (match_is_Some _ _ pre (w ++ post) _ eq_refl).
  apply (Hf (mkState (rev pre) (w ++ post) ∅) post). simpl. by rewrite app_nil_r.
Qed.

(** *** The first candidate of a greedy match *)

Lemma advance_nil x rest : after x = rest → advance x [] rest (captures x) = x.
Proof. intros <-. by destruct x. Qed.

Lemma decides_seq ic r1 r2 x z y :
  decides ic r1 x z → decides ic r2 z y → decides ic (Seq r1 r2) x y.
Proof.
  intros H1 H2 c Hc. simpl. rewrite (H1 (fun z' => exec ic r2 z' c)).
  - by apply H2.
  - by rewrite (H2 c Hc).
Qed.

Lemma commits_seq ic r1 r2 w1 w2 rest f1 f2 :
  commits ic r1 w1 (w2 ++ rest) f1 → commits ic r2 w2 rest f2 →
  commits ic (Seq r1 r2) (w1 ++ w2) rest (f2 ∘ f1).
Proof.
  intros H1 H2 x Ha. rewrite <- app_assoc in Ha.
  rewrite <- (advance_advance x w1 w2 rest (w2 ++ rest) _ (f1 (captures x))).
  eapply decides_seq; [by apply H1|].
  by apply (H2 (advance x w1 (w2 ++ rest) (f1 (captures x)))).
Qed.

Lemma commits_class ic p ch rest :
  p ch = true → commits ic (Cls p) [ch] rest (fun cs => cs).
Proof.
  intros Hp x Ha c Hc. simpl in *. unfold CharacterSetMatcher. by rewrite Ha, Hp.
Qed.

Lemma commits_chr ic a ch rest :
  (canonicalize ic ch =? canonicalize ic a)%N = true →
  commits ic (Chr a) [ch] rest (fun cs => cs).
Proof.
  intros Hp x Ha c Hc. simpl in *. unfold CharacterSetMatcher. by rewrite Ha, Hp.
Qed.

Lemma RepeatMatcher_max0 m gs fuel min x c :
  RepeatMatcher m gs fuel min (Some 0) x c = c x.
Proof. by destruct fuel. Qed.

Lemma RepeatMatcher_step m gs fuel min max x c :
  max ≠ Some 0 →
  RepeatMatcher m gs (S fuel) min max x c =
    if min =? 0 then
      match m (clearCaptures gs x)
              (fun y => if (min =? 0) && (endIndex y =? endIndex x) then None
                        else RepeatMatcher m gs fuel (pred min) (pred <$> max) y c) with
      | Some z => Some z
      | None => c x
      end
    else m (clearCaptures gs x)
           (fun y => if (min =? 0) && (endIndex y =? endIndex x) then None
                     else RepeatMatcher m gs fuel (pred min) (pred <$> max) y c).
Proof. by destruct max as [[|k]|]. Qed.

(** A quantified class takes the longest run it may. *)
Lemma RepeatMatcher_class_greedy p w :
  ∀ fuel lo max x rest (c : Continuation),
    after x = w ++ rest → forallb p w = true → inRange lo max (length w) →
    max = Some (length w) ∨ headNot p rest →
    match max with Some k => k ≤ fuel | None => length w < fuel end →
    is_Some (c (advance x w rest (captures x))) →
    RepeatMatcher (CharacterSetMatcher p) [] fuel lo max x c
    = c (advance x w rest (captures x)).
Proof.
  induction w as [|ch w IH]; intros fuel lo max x rest c Ha Hall [Hlo Hhi] Hmax Hfuel Hc.
  - simpl in Ha, Hlo. assert (lo = 0) as -> by lia. rewrite (advance_nil _ _ Ha) in *.
    destruct Hmax as [->|Hrest]; [apply RepeatMatcher_max0|].
    destruct max as [[|k]|]; [apply RepeatMatcher_max0 | |];
      (destruct fuel as [|fuel]; [simpl in Hfuel; lia|]); simpl;
      unfold CharacterSetMatcher; simpl; rewrite Ha;
      (destruct rest as [|ch rest]; [done|]); simpl in Hrest; simpl; by rewrite Hrest.
  - simpl in Hall. apply andb_true_iff in Hall as [Hp Hall]. simpl in Hlo, Hhi, Ha.
    set (y1 := mkState (ch :: before x) (w ++ rest) (captures x)).
    assert (Hadv : advance y1 w rest (captures y1) = advance x (ch :: w) rest (captures x)).
    { unfold advance, y1. simpl. by rewrite <- app_assoc. }
    assert (Hd : ∀ fuel', match max with Some k => k ≤ S fuel' | None => length w < fuel' end →
              max ≠ Some 0 →
              RepeatMatcher (CharacterSetMatcher p) [] fuel' (pred lo) (pred <$> max) y1 c
              = c (advance x (ch :: w) rest (captures x))).
    { intros fuel' Hf Hm0. rewrite <- Hadv. apply IH; try done.
      - split; [lia|]. destruct max as [k|]; simpl in *; [lia | done].
      - destruct Hmax as [->|?]; [left | by right]. done.
      - destruct max as [[|k]|]; simpl in *; try done; lia.
      - by rewrite Hadv. }
    assert (max ≠ Some 0) as Hm0 by (destruct max as [[|k]|]; simpl in *; try done; lia).
    destruct fuel as [|fuel]; [destruct max; simpl in *; lia|].
    assert (Hstep : CharacterSetMatcher p (clearCaptures [] x)
              (fun y => if (lo =? 0) && (endIndex y =? endIndex x) then None
                        else RepeatMatcher (CharacterSetMatcher p) [] fuel (pred lo)
                               (pred <$> max) y c)
            = c (advance x (ch :: w) rest (captures x))).
    { unfold CharacterSetMatcher. change (after (clearCaptures [] x)) with (after x).
      rewrite Ha, Hp.
      change (mkState (ch :: before (clearCaptures [] x)) (w ++ rest)
                (captures (clearCaptures [] x))) with y1.
      assert ((endIndex y1 =? endIndex x) = false) as ->.
      { apply Nat.eqb_neq. unfold endIndex, y1. simpl. lia. }
      rewrite andb_false_r. apply Hd; [|done].
      destruct max as [k|]; simpl in *; lia. }
    rewrite RepeatMatcher_step by done. rewrite Hstep.
    destruct (lo =? 0); [by destruct Hc as [z ->] | done].
Qed.

Lemma commits_rep_class ic p lo max w rest :
  forallb p w = true → inRange lo max (length w) →
  max = Some (length w) ∨ headNot p rest →
  commits ic (Rep (Cls p) lo max) w rest (fun cs => cs).
Proof.
  intros Hall Hn Hmax x Ha c Hc. simpl.
  apply RepeatMatcher_class_greedy; try done.
  destruct max as [k|]; simpl; [lia|]. rewrite Ha, length_app. lia.
Qed.

Lemma commits_group ic n r w rest f :
  commits ic r w rest f → commits ic (Group n r) w rest (fun cs => <[n := w]> (f cs)).
Proof.
  intros H x Ha c Hc. simpl.
  assert (Hw : take (endIndex (advance x w rest (f (captures x))) - endIndex x) (after x)
               = w).
  { eapply spans_take, (moved_advance x w rest (f (captures x))), Ha. }
  rewrite (H x Ha); simpl; by rewrite Hw.
Qed.

(** An optional part is taken when its body settles on a non-empty word. *)
Lemma commits_opt_some ic r w rest f :
  commits ic r w rest f → w ≠ [] →
  commits ic (opt r) w rest (fun cs => f (foldr delete cs (groups r))).
Proof.
  intros H Hne x Ha c Hc. cbn [exec repeatFuel]. rewrite RepeatMatcher_step by done.
  set (xr := clearCaptures (groups r) x).
  change (advance x w rest (f (foldr delete (captures x) (groups r))))
    with (advance xr w rest (f (captures xr))) in *.
  set (y := advance xr w rest (f (captures xr))) in *.
  set (d := fun y : MatchState => _).
  assert (Hd : d y = c y).
  { unfold d. assert ((endIndex y =? endIndex x) = false) as ->.
    { apply Nat.eqb_neq. unfold endIndex, y, advance. simpl.
      rewrite length_app, length_rev. destruct w; [done | simpl; lia]. }
    rewrite andb_false_r. apply RepeatMatcher_max0. }
  change (0 =? 0) with true. cbv iota.
  pose proof (H xr Ha d) as Hx. fold y in Hx.
  rewrite Hx by (by rewrite Hd). rewrite Hd. by destruct Hc as [z ->].
Qed.

(** An optional part is skipped when its body matches nothing. *)
Lemma commits_opt_none ic r rest :
  ordered r → (∀ x y, after x = rest → ¬ reach ic r x y) →
  commits ic (opt r) [] rest (fun cs => cs).
Proof.
  intros Hord Hno x Ha c Hc. simpl in Ha. rewrite (advance_nil _ _ Ha) in *. simpl.
  destruct (exec ic r (clearCaptures (groups r) x) _) as [z|] eqn:E; [|done].
  apply exec_sound in E as (y & Hy & _); [|done].
  by destruct (Hno (clearCaptures (groups r) x) y Ha Hy).
Qed.

Lemma commits_alt_l ic r1 r2 w rest f :
  commits ic r1 w rest f → commits ic (Alt r1 r2) w rest f.
Proof.
  intros H x Ha c Hc. simpl. rewrite (H x Ha c Hc). by destruct Hc as [z ->].
Qed.

Lemma commits_alt_r ic r1 r2 w rest f :
  (∀ x c, after x = w ++ rest → exec ic r1 x c = None) →
  commits ic r2 w rest f → commits ic (Alt r1 r2) w rest f.
Proof.
  intros Hno H x Ha c Hc. simpl. rewrite (Hno x c Ha). by apply H.
Qed.

Lemma commits_ext ic r w rest f g :
  (∀ cs, f cs = g cs) → commits ic r w rest f → commits ic r w rest g.
Proof. intros Hfg H x Ha. rewrite <- Hfg. by apply H. Qed.

(** *** Runs of a class in a string *)

Lemma headNot_app p (w rest : jsstring) : w ≠ [] → headNot p (w ++ rest) ↔ headNot p w.
Proof. by destruct w. Qed.

Lemma run_extend (p : N → bool) hi : ∀ rest w : jsstring,
  forallb p w = true → length w ≤ hi →
  ∃ w2 rest2, w ++ rest = w2 ++ rest2 ∧ forallb p w2 = true
              ∧ length w ≤ length w2 ≤ hi
              ∧ (length w2 = hi ∨ headNot p rest2).
Proof.
  induction rest as [|ch rest IH]; intros w Hall Hlen.
  - exists w, []. do 2 (split; [done|]). split; [lia | by right].
  - destruct (decide (length w = hi)) as [Heq|Hne].
    { exists w, (ch :: rest). do 2 (split; [done|]). split; [lia | by left]. }
    destruct (p ch) eqn:Hp.
    + destruct (IH (w ++ [ch])) as (w2 & rest2 & Heq & Hall2 & Hl2 & Hmax).
      * rewrite List.forallb_app, Hall. simpl. by rewrite Hp.
      * rewrite length_app. simpl. lia.
      * exists w2, rest2. rewrite <- Heq, <- app_assoc. split; [done|].
        split; [done|]. rewrite length_app in Hl2. simpl in Hl2. split; [lia | done].
    + exists w, (ch :: rest). do 2 (split; [done|]). split; [lia | by right].
Qed.

(** A run that ends before a character outside the class is determined. *)
Lemma run_unique (p : N → bool) : ∀ (w1 w2 : jsstring) c1 c2 r1 r2,
  w1 ++ c1 :: r1 = w2 ++ c2 :: r2 →
  forallb p w1 = true → forallb p w2 = true → p c1 = false → p c2 = false →
  w1 = w2 ∧ c1 = c2 ∧ r1 = r2.
Proof.
  induction w1 as [|a w1 IH]; intros [|b w2] c1 c2 r1 r2 Heq H1 H2 Hc1 Hc2;
    simpl in *.
  - by injection Heq as -> ->.
  - injection Heq as -> _. apply andb_true_iff in H2 as [? _]. congruence.
  - injection Heq as -> _. apply andb_true_iff in H1 as [? _]. congruence.
  - injection Heq as -> Heq. apply andb_true_iff in H1 as [_ H1].
    apply andb_true_iff in H2 as [_ H2].
    destruct (IH _ _ _ _ _ Heq H1 H2 Hc1 Hc2) as (-> & -> & ->). done.
Qed.

(** A run is a prefix of the longest run at the same place. *)
Lemma run_prefix (p : N → bool) : ∀ (w1 : jsstring) hi (w2 r1 r2 : jsstring),
  w1 ++ r1 = w2 ++ r2 → forallb p w1 = true → length w1 ≤ hi →
  length w2 = hi ∨ headNot p r2 →
  ∃ e, w2 = w1 ++ e ∧ r1 = e ++ r2.
Proof.
  induction w1 as [|a w1 IH]; intros hi w2 r1 r2 Heq H1 Hl Hmax; simpl in *.
  - by exists w2.
  - apply andb_true_iff in H1 as [Ha H1]. destruct w2 as [|b w2]; simpl in *.
    + destruct Hmax as [<-|Hn]; [lia|]. subst r2. simpl in Hn. congruence.
    + injection Heq as -> Heq. destruct hi as [|hi]; [lia|].
      destruct (IH hi w2 r1 r2 Heq H1) as (e & -> & ->); [lia | |by exists e].
      destruct Hmax as [?|?]; [left; lia | by right].
Qed.

Lemma is_digit_bounds c : is_digit c = true → (48 ≤ Z.of_N c ≤ 57)%Z.
Proof.
  unfold is_digit. intros [H1 H2]%andb_true_iff. apply N.leb_le in H1, H2. lia.
Qed.

Lemma is_sep_not_digit c : is_sep c = true → is_digit c = false.
Proof.
  unfold is_sep, is_digit. intros [H|H]%orb_true_iff; apply N.eqb_eq in H as ->; done.
Qed.

Lemma is_digit_not_space c : is_digit c = true → is_space c = false.
Proof.
  intros H. apply is_digit_bounds in H. unfold is_space.
  repeat (apply orb_false_iff; split);
    try (apply N.eqb_neq; lia); apply andb_false_iff;
    [right | left]; apply N.leb_gt; lia.
Qed.

Lemma isMeridiem_meridiem c1 c2 : isMeridiem c1 c2 = true ↔ meridiem [c1; c2].
Proof.
  unfold isMeridiem, meridiem, toUpperCase. simpl. split.
  - intros [[H1|H1]%orb_true_iff H2]%andb_true_iff;
      apply N.eqb_eq in H1, H2; rewrite H1, H2; auto.
  - intros [[= -> ->]|[= -> ->]]; done.
Qed.

Lemma meridiem_two mer : meridiem mer → ∃ c1 c2, mer = [c1; c2] ∧ isMeridiem c1 c2 = true.
Proof.
  intros H. assert (length mer = 2) as Hl.
  { destruct H as [H|H]; apply (f_equal length) in H;
      unfold toUpperCase in H; by rewrite length_map in H. }
  destruct mer as [|c1 [|c2 [|??]]]; try done. exists c1, c2. split; [done|].
  by apply isMeridiem_meridiem.
Qed.

Lemma isMeridiem_not_space c1 c2 : isMeridiem c1 c2 = true → is_space c1 = false.
Proof.
  unfold isMeridiem, canonicalize. simpl.
  intros [H _]%andb_true_iff.
  destruct ((97 <=? c1)%N && (c1 <=? 122)%N) eqn:E.
  - apply andb_true_iff in E as [E1 E2]. apply N.leb_le in E1, E2.
    unfold is_space.
    repeat (apply orb_false_iff; split);
      try (apply N.eqb_neq; lia); apply andb_false_iff;
      [right | left]; apply N.leb_gt; lia.
  - apply orb_true_iff in H as [H|H]; apply N.eqb_eq in H as ->; done.
Qed.

(** *** The longest date and time at a place *)

Lemma blankOf_prefix rest : rest = blankOf rest ++ drop (length (blankOf rest)) rest.
Proof. destruct rest as [|ch rest]; simpl; [done|]. by destruct (is_space ch). Qed.

Lemma markerOf_prefix rest : rest = markerOf rest ++ drop (length (markerOf rest)) rest.
Proof.
  destruct rest as [|c1 [|c2 rest]]; simpl; try done. by destruct (isMeridiem c1 c2).
Qed.

Lemma tailOf_prefix rest : rest = tailOf rest ++ drop (length (tailOf rest)) rest.
Proof.
  unfold tailOf. rewrite length_app, <- drop_drop, <- app_assoc.
  rewrite <- markerOf_prefix. apply blankOf_prefix.
Qed.

Lemma commits_date ic dd s1 mm s2 yy rest :
  digitRun 1 2 dd → is_sep s1 = true → digitRun 1 2 mm → is_sep s2 = true →
  digitRun 2 4 yy → length yy = 4 ∨ headNot is_digit rest →
  commits ic (rep digit 1 2 ⋅ sep ⋅ rep digit 1 2 ⋅ sep ⋅ rep digit 2 4)
    (dd ++ s1 :: mm ++ s2 :: yy) rest (fun cs => cs).
Proof.
  intros [Hn1 Hd1] Hs1 [Hn2 Hd2] Hs2 [Hn3 Hd3] Hmax.
  apply (commits_seq ic _ _ dd (s1 :: mm ++ s2 :: yy) rest (fun cs => cs) (fun cs => cs)).
  { apply commits_rep_class; [done | done |]. right. simpl. by apply is_sep_not_digit. }
  apply (commits_seq ic _ _ [s1] (mm ++ s2 :: yy) rest (fun cs => cs) (fun cs => cs));
    [by apply commits_class|].
  apply (commits_seq ic _ _ mm (s2 :: yy) rest (fun cs => cs) (fun cs => cs)).
  { apply commits_rep_class; [done | done |]. right. simpl. by apply is_sep_not_digit. }
  apply (commits_seq ic _ _ [s2] yy rest (fun cs => cs) (fun cs => cs));
    [by apply commits_class|].
  apply commits_rep_class; [done | done |]. destruct Hmax as [->|?]; auto.
Qed.

Lemma commits_AM_PM c1 c2 rest :
  isMeridiem c1 c2 = true → commits true AM_PM [c1; c2] rest (fun cs => cs).
Proof.
  unfold isMeridiem. intros [H1 H2]%andb_true_iff.
  destruct (canonicalize true c1 =? 65)%N eqn:E.
  - apply commits_alt_l.
    apply (commits_seq true _ _ [c1] [c2] rest (fun cs => cs) (fun cs => cs));
      by apply commits_chr.
  - simpl in H1. apply commits_alt_r.
    + intros x c Ha. simpl in *. unfold CharacterSetMatcher. rewrite Ha.
      change (canonicalize true 65) with 65%N. by rewrite E.
    + apply (commits_seq true _ _ [c1] [c2] rest (fun cs => cs) (fun cs => cs));
        by apply commits_chr.
Qed.

Lemma no_marker_no_reach rest x y :
  markerOf rest = [] → after x = rest → ¬ reach true (Group 3 AM_PM) x y.
Proof.
  intros Hm Ha H. apply reach_group_inv in H as (z & mer & Hr & [Hs _] & _).
  apply reach_AM_PM in Hr as (mer' & Hmer & [[Hs' _] _]).
  rewrite Hs in Hs'. apply app_inv_tail in Hs' as <-.
  apply meridiem_two in Hmer as (c1 & c2 & -> & Hc).
  subst rest. rewrite Hs in Hm. cbn [markerOf app] in Hm. by rewrite Hc in Hm.
Qed.

(** The tail of a time settles on the blank and the marker that are there. *)
Lemma commits_time_tail rest :
  commits true (opt space ⋅ opt (Group 3 AM_PM)) (tailOf rest)
    (drop (length (tailOf rest)) rest) (tailCaptures rest).
Proof.
  unfold tailOf, tailCaptures, markerAt. rewrite length_app, <- drop_drop.
  set (rest4 := drop (length (blankOf rest)) rest).
  assert (Hb : rest = blankOf rest ++ rest4) by apply blankOf_prefix.
  assert (Hm : rest4 = markerOf rest4 ++ drop (length (markerOf rest4)) rest4)
    by apply markerOf_prefix.
  set (rest5 := drop (length (markerOf rest4)) rest4) in *.
  assert (Hblank : commits true (opt space) (blankOf rest) (markerOf rest4 ++ rest5)
                     (fun cs => cs)).
  { rewrite <- Hm. apply commits_rep_class.
    - destruct rest as [|ch ?]; simpl; [done|]. destruct (is_space ch) eqn:E; simpl; [|done].
      by rewrite E.
    - split; [lia|]. destruct rest as [|ch ?]; simpl; [lia|]. destruct (is_space ch); simpl; lia.
    - destruct rest as [|ch rest']; simpl in *; [by right|].
      destruct (is_space ch) eqn:E; simpl in *; [by left|]. right. unfold rest4. by simpl. }
  destruct (markerOf rest4) as [|c1 mer] eqn:Emer.
  - apply (commits_ext true _ _ _ ((fun cs => cs) ∘ (fun cs => cs))); [done|].
    apply (commits_seq true _ _ (blankOf rest) [] rest5); [exact Hblank|].
    apply commits_opt_none; [simpl; lia|]. intros x y Ha.
    apply (no_marker_no_reach rest4); [done|]. simpl in Ha, Hm. congruence.
  - assert (∃ c2, mer = [c2] ∧ isMeridiem c1 c2 = true) as (c2 & -> & Hc).
    { destruct rest4 as [|a [|b r]]; simpl in Emer; try done.
      destruct (isMeridiem a b) eqn:E; [|done]. injection Emer as <- <-. eauto. }
    apply (commits_ext true _ _ _
             ((fun cs => <[3 := [c1; c2]]> (foldr delete cs (groups (Group 3 AM_PM))))
              ∘ (fun cs => cs))); [done|].
    apply (commits_seq true _ _ (blankOf rest) [c1; c2] rest5); [exact Hblank|].
    apply (commits_opt_some true (Group 3 AM_PM) [c1; c2] rest5
             (fun cs => <[3 := [c1; c2]]> cs)); [|done].
    by apply (commits_group true 3 AM_PM [c1; c2] rest5 (fun cs => cs)), commits_AM_PM.
Qed.

(** No blank and marker at a place is longer than the greedy one. *)
Lemma tailOf_longest rest sp mer post :
  rest = sp ++ mer ++ post → optionalBlank sp → mer = [] ∨ meridiem mer →
  length (sp ++ mer) ≤ length (tailOf rest).
Proof.
  intros -> Hsp Hmer. unfold tailOf. rewrite !length_app.
  destruct Hsp as [->|(ch & -> & Hch)]; simpl.
  - destruct Hmer as [->|Hmer]; [simpl; lia|].
    apply meridiem_two in Hmer as (c1 & c2 & -> & Hc). simpl.
    rewrite (isMeridiem_not_space _ _ Hc). simpl. by rewrite Hc.
  - rewrite Hch. simpl. destruct Hmer as [->|Hmer]; [simpl; lia|].
    apply meridiem_two in Hmer as (c1 & c2 & -> & Hc). simpl. by rewrite Hc.
Qed.

Lemma tailOf_shape rest :
  ∃ sp mer, tailOf rest = sp ++ mer ∧ optionalBlank sp ∧ (mer = [] ∨ meridiem mer).
Proof.
  exists (blankOf rest), (markerOf (drop (length (blankOf rest)) rest)).
  split; [done|]. split.
  - destruct rest as [|ch ?]; simpl; [by left|].
    destruct (is_space ch) eqn:E; [right; eauto | by left].
  - destruct (drop _ rest) as [|c1 [|c2 ?]]; simpl; try by left.
    destruct (isMeridiem c1 c2) eqn:E; [right; by apply isMeridiem_meridiem | by left].
Qed.

(** The optional second group of the pattern of [extractDateTime]. *)
Abbreviation timeGroup :=
  (Group 2 (plus space ⋅ rep digit 1 2 ⋅ Chr 58 ⋅ rep digit 2 2
            ⋅ opt space ⋅ opt (Group 3 AM_PM))).

Lemma ordered_timeGroup : ordered timeGroup.
Proof. simpl. repeat split; lia. Qed.

Lemma reach_timeGroup x y :
  reach true timeGroup x y →
  ∃ ws hh mi sp mer,
    ws ≠ [] ∧ forallb is_space ws = true ∧ digitRun 1 2 hh ∧ digitRun 2 2 mi
    ∧ optionalBlank sp ∧ (mer = [] ∨ meridiem mer)
    ∧ spans x (ws ++ hh ++ 58%N :: mi ++ sp ++ mer) y.
Proof.
  intros H. apply reach_group_inv in H as (z2 & tm & Hr & Hs & [Hs2 _]).
  destruct Hr as (za & Ha & zb & Hb & zc & Hc & zd & Hd & He).
  apply reach_rep_cls in Ha as (ws & [Hws _] & Hall & [Sa _]).
  apply reach_rep_cls in Hb as (hh & Hn1 & Hd1 & [Sb _]).
  apply reach_colon in Hc as [Sc _].
  apply reach_rep_cls in Hd as (mi & Hn2 & Hd2 & [Sd _]).
  apply reach_time_tail in He as (sp & Hsp & He).
  assert (∃ mer, (mer = [] ∨ meridiem mer) ∧ spans zd (sp ++ mer) z2)
    as (mer & Hmer & Se).
  { destruct He as [[Se _]|(mer & Hmer & Se & _)].
    - exists []. rewrite app_nil_r. auto.
    - exists mer. auto. }
  exists ws, hh, mi, sp, mer. split; [by intros ->; simpl in Hws; lia|].
  do 5 (split; [auto using range_digitRun|]).
  assert (tm = ws ++ hh ++ 58%N :: mi ++ sp ++ mer) as <-; [|done].
  eapply spans_word; [exact Hs|].
  apply (spans_app _ ws za); [done|]. apply (spans_app _ hh zb); [done|].
  apply (spans_app _ [58%N] zc); [done|]. by apply (spans_app _ mi zd).
Qed.

Lemma accepts_timeGroup ws hh mi :
  ws ≠ [] → forallb is_space ws = true → digitRun 1 2 hh → digitRun 2 2 mi →
  ∃ f, accepts true timeGroup (ws ++ hh ++ 58%N :: mi ++ []) f.
Proof.
  intros Hne Hws [Hn1 Hd1] [Hn2 Hd2]. eexists. apply accepts_group.
  apply (accepts_seq true _ _ ws (hh ++ 58%N :: mi ++ [])).
  { apply accepts_rep_cls; [|done]. split; [|done]. destruct ws; [done | simpl; lia]. }
  apply (accepts_seq true _ _ hh (58%N :: mi ++ [])); [by apply accepts_rep_cls|].
  apply (accepts_seq true _ _ [58%N] (mi ++ [])); [by apply accepts_chr|].
  apply (accepts_seq true _ _ mi []); [by apply accepts_rep_cls|].
  apply (accepts_seq true _ _ [] []); apply accepts_skip.
Qed.

(** Where blanks and a time follow, the group settles on them with the
    greedy tail. *)
Lemma commits_timeGroup ws hh mi rest :
  ws ≠ [] → forallb is_space ws = true → digitRun 1 2 hh → digitRun 2 2 mi →
  ∃ f, commits true timeGroup (ws ++ hh ++ 58%N :: mi ++ tailOf rest)
         (drop (length (tailOf rest)) rest) f.
Proof.
  intros Hne Hws [Hn1 Hd1] [Hn2 Hd2]. pose proof (commits_time_tail rest) as Ht.
  eexists. apply commits_group.
  apply (commits_seq true _ _ ws (hh ++ 58%N :: mi ++ tailOf rest)).
  { apply commits_rep_class; [done | |].
    - split; [|done]. destruct ws; [done | simpl; lia].
    - right. destruct hh as [|h hh]; [simpl in Hn1; lia|]. simpl in *.
      apply andb_true_iff in Hd1 as [Hh _]. by apply is_digit_not_space. }
  apply (commits_seq true _ _ hh (58%N :: mi ++ tailOf rest));
    [apply commits_rep_class; [done | done | by right]|].
  apply (commits_seq true _ _ [58%N] (mi ++ tailOf rest)); [by apply commits_chr|].
  apply (commits_seq true _ _ mi (tailOf rest)); [|exact Ht].
  apply commits_rep_class; [done | done |]. left. f_equal. lia.
Qed.

Ltac list_norm :=
  repeat (rewrite <- app_assoc || rewrite <- app_comm_cons || rewrite app_nil_r).
Ltac list_norm_in H :=
  repeat (rewrite <- app_assoc in H || rewrite <- app_comm_cons in H
          || rewrite app_nil_r in H).

Lemma timeTail_reach rest tm post :
  rest = tm ++ post → timeTailWord tm →
  ∃ y, reach true timeGroup (mkState [] rest ∅) y.
Proof.
  intros -> (ws & t & -> & Hne & Hws & hh & mi & sp & mer & -> & H1 & H2 & _).
  destruct (accepts_timeGroup ws hh mi Hne Hws H1 H2) as [f Hf].
  eexists. apply (Hf (mkState [] _ ∅) (sp ++ mer ++ post)). simpl. by list_norm.
Qed.

(** A date and time at a place is a date of the place, at most as long as
    the one with the longest year, or that one followed by blanks and a
    time of the place. *)
Lemma dateTime_at dd s1 mm s2 yy2 rest2 d' post' :
  digitRun 1 2 dd → is_sep s1 = true → digitRun 1 2 mm → is_sep s2 = true →
  digitRun 2 4 yy2 → length yy2 = 4 ∨ headNot is_digit rest2 →
  (dd ++ s1 :: mm ++ s2 :: yy2) ++ rest2 = d' ++ post' → dateTimeWord d' →
  length d' ≤ length (dd ++ s1 :: mm ++ s2 :: yy2)
  ∨ ∃ tm', d' = (dd ++ s1 :: mm ++ s2 :: yy2) ++ tm' ∧ rest2 = tm' ++ post'
           ∧ timeTailWord tm'.
Proof.
  intros [_ D1] S1 [_ D2] S2 [_ D3] Hmax Heq
    (dt' & tm' & -> & (dd' & s1' & mm' & s2' & yy' & -> & [_ D1'] & S1' & [_ D2'] & S2'
                       & [[_ L3'] D3']) & Htm').
  list_norm_in Heq.
  apply is_sep_not_digit in S1, S2, S1', S2'.
  destruct (run_unique is_digit _ _ _ _ _ _ Heq D1 D1' S1 S1') as (<- & <- & Heq2).
  destruct (run_unique is_digit _ _ _ _ _ _ Heq2 D2 D2' S2 S2') as (<- & <- & Heq3).
  symmetry in Heq3.
  destruct (run_prefix is_digit yy' 4 yy2 (tm' ++ post') rest2 Heq3 D3' L3' Hmax)
    as (e & -> & He).
  destruct Htm' as [->|(ws' & t' & -> & Hne & Hws & Ht)].
  - left. repeat first [rewrite length_app | progress simpl]. lia.
  - destruct e as [|c e].
    + right. exists (ws' ++ t'). list_norm. list_norm_in He. simpl in He.
      split; [done|]. split; [done|]. by exists ws', t'.
    + exfalso. destruct ws' as [|w ws']; [done|]. list_norm_in He. injection He as -> _.
      simpl in Hws. apply andb_true_iff in Hws as [Hsp _].
      rewrite List.forallb_app in D3. apply andb_true_iff in D3 as [_ D3]. simpl in D3.
      apply andb_true_iff in D3 as [Hd _]. apply is_digit_not_space in Hd. congruence.
Qed.

(** Blanks and a time at a place are at most as long as the greedy ones. *)
Lemma timeTail_longest ws hh mi rest3 tm' post' :
  ws ≠ [] → forallb is_space ws = true → digitRun 1 2 hh → digitRun 2 2 mi →
  ws ++ hh ++ 58%N :: mi ++ rest3 = tm' ++ post' → timeTailWord tm' →
  length tm' ≤ length (ws ++ hh ++ 58%N :: mi ++ tailOf rest3).
Proof.
  intros Hne Hws [[L1 _] D1] [[L2 L2'] D2] Heq
    (ws' & t' & -> & Hne' & Hws' & hh' & mi' & sp' & mer' & -> & [[L1' _] D1']
     & [[M2 M2'] D2'] & Hsp' & Hmer').
  list_norm_in Heq.
  destruct hh as [|h hh]; [simpl in L1; lia|].
  destruct hh' as [|h' hh']; [simpl in L1'; lia|].
  simpl in D1, D1'. apply andb_true_iff in D1 as [Hh D1].
  apply andb_true_iff in D1' as [Hh' D1']. list_norm_in Heq.
  destruct (run_unique is_space _ _ _ _ _ _ Heq Hws Hws'
              (is_digit_not_space _ Hh) (is_digit_not_space _ Hh')) as (<- & <- & Heq2).
  destruct (run_unique is_digit _ _ _ _ _ _ Heq2 D1 D1' eq_refl eq_refl)
    as (<- & _ & Heq3).
  destruct mi as [|a [|b [|??]]]; simpl in L2, L2'; try lia.
  destruct mi' as [|a' [|b' [|??]]]; simpl in M2, M2'; try lia.
  list_norm_in Heq3. injection Heq3 as <- <- Heq4.
  pose proof (tailOf_longest rest3 sp' mer' post' Heq4 Hsp' Hmer') as Hlen.
  repeat first [rewrite length_app in * | progress simpl in * ]. lia.
Qed.

(** At a place where a date starts, the pattern of [extractDateTime] settles
    on the longest date and time of the place. *)
Lemma dateTime_greedy a d0 post0 :
  a = d0 ++ post0 → dateShape d0 →
  ∃ g post f,
    a = g ++ post ∧ commits true (source dateTimeRegex) g post f
    ∧ ∀ d' post', a = d' ++ post' → dateTimeWord d' → length d' ≤ length g.
Proof.
  intros -> (dd & s1 & mm & s2 & yy & -> & D1 & S1 & D2 & S2 & [[Hy1 Hy2] Hy3]).
  destruct (run_extend is_digit 4 post0 yy Hy3 Hy2)
    as (yy2 & rest2 & Hext & Hall2 & Hlen2 & Hmax).
  assert (D3 : digitRun 2 4 yy2) by (split; [lia | done]).
  assert (Ha : (dd ++ s1 :: mm ++ s2 :: yy) ++ post0
               = (dd ++ s1 :: mm ++ s2 :: yy2) ++ rest2).
  { list_norm. by rewrite Hext. }
  rewrite Ha. clear Ha Hext Hy1 Hy2 Hy3 yy post0 Hlen2.
  set (date2 := dd ++ s1 :: mm ++ s2 :: yy2).
  assert (Cdate : ∀ rest, rest = rest2 →
            commits true (Group 1 (rep digit 1 2 ⋅ sep ⋅ rep digit 1 2 ⋅ sep ⋅ rep digit 2 4))
              date2 rest (fun cs => <[1 := date2]> cs)).
  { intros rest ->. by apply commits_group, commits_date. }
  pose proof (dateTime_at dd s1 mm s2 yy2 rest2) as Hat. fold date2 in Hat.
  destruct (exec true timeGroup (mkState [] rest2 ∅) Some) as [z|] eqn:E.
  - apply exec_sound in E as (y & Hy & _); [|apply ordered_timeGroup].
    apply reach_timeGroup in Hy
      as (ws & hh & mi & sp & mer & Hne & Hws & H1 & H2 & Hsp & Hmer & [Hs _]).
    simpl in Hs. set (rest3 := sp ++ mer ++ after y).
    assert (Hr2 : rest2 = ws ++ hh ++ 58%N :: mi ++ rest3).
    { rewrite Hs. unfold rest3. by list_norm. }
    destruct (commits_timeGroup ws hh mi rest3 Hne Hws H1 H2) as [f Cf].
    set (tm := ws ++ hh ++ 58%N :: mi ++ tailOf rest3) in *.
    set (post := drop (length (tailOf rest3)) rest3) in *.
    assert (Hr2' : rest2 = tm ++ post).
    { rewrite Hr2. unfold tm, post. list_norm. do 4 f_equal. apply tailOf_prefix. }
    exists (date2 ++ tm), post. eexists. split; [by rewrite Hr2', app_assoc|]. split.
    + eapply (commits_seq true _ _ date2 tm post); [apply (Cdate _ (eq_sym Hr2'))|].
      apply commits_opt_some; [exact Cf|]. unfold tm. by destruct ws.
    + intros d' post' Heq Hd'. rewrite length_app.
      destruct (Hat d' post' D1 S1 D2 S2 D3 Hmax Heq Hd')
        as [Hle|(tm' & -> & Hr & Htm')]; [lia|].
      rewrite length_app. rewrite Hr2 in Hr.
      pose proof (timeTail_longest ws hh mi rest3 tm' post' Hne Hws H1 H2 Hr Htm').
      fold tm in H. lia.
  - exists (date2 ++ []), rest2. eexists. split; [by rewrite app_nil_r|]. split.
    + eapply (commits_seq true _ _ date2 [] rest2); [apply (Cdate _ eq_refl)|].
      apply commits_opt_none; [apply ordered_timeGroup|]. intros x y Hax Hr.
      apply reach_timeGroup in Hr
        as (ws & hh & mi & sp & mer & Hne & Hws & H1 & H2 & _ & _ & [Hs _]).
      destruct (accepts_timeGroup ws hh mi Hne Hws H1 H2) as [f Hf].
      eapply (exec_None_no_reach _ _ _ E).
      apply (Hf (mkState [] rest2 ∅) (sp ++ mer ++ after y)). simpl.
      rewrite <- Hax, Hs. by list_norm.
    + intros d' post' Heq Hd'. rewrite app_nil_r.
      destruct (Hat d' post' D1 S1 D2 S2 D3 Hmax Heq Hd')
        as [Hle|(tm' & -> & Hr & Htm')]; [done|].
      exfalso. destruct (timeTail_reach rest2 tm' post' Hr Htm') as [y Hy].
      by eapply (exec_None_no_reach _ _ _ E).
Qed.

(** The match of the pattern of [extractDateTime] is the longest date and
    time at its place. *)
Lemma dateTime_longest text m :
  match_ text dateTimeRegex = Some m →
  ∀ d' post', drop (index m) text = d' ++ post' → dateTimeWord d' →
    length d' ≤ length (matched m).
Proof.
  intros H. apply search_exec in H as (pre & rest & y & -> & E & ->). simpl.
  rewrite app_nil_r in E. rewrite drop_app_length.
  pose proof E as E'. apply exec_sound in E' as (y' & Hy & [= <-]);
    [|apply ordered_dateTimeRegex].
  apply reach_dateTime in Hy as (w & (dt & tm & -> & Hdt & _) & [Hs _]). simpl in Hs.
  rewrite <- app_assoc in Hs.
  destruct (dateTime_greedy rest dt _ Hs Hdt) as (g & post & f & -> & Hc & Hlong).
  rewrite (Hc (mkState (rev pre) (g ++ post) ∅) eq_refl Some) in E by by eexists.
  injection E as <-. unfold endIndex, advance. simpl.
  rewrite length_app, !length_rev.
  replace (length g + length pre - length pre) with (length g) by lia.
  by rewrite take_app_length.
Qed.

(** *** The match at the first place *)

(** Where the pattern settles on [w] at the end of [pre], and matches at no
    earlier start index, the search returns [w]. *)
Lemma search_commits ic r w post f :
  ordered r → commits ic r w post f →
  ∀ pre bef,
    (∀ pre' rest' y', pre ++ w ++ post = pre' ++ rest' → length pre' < length pre →
       ¬ reach ic r (mkState (rev pre' ++ bef) rest' ∅) y') →
    search ic r bef (pre ++ w ++ post)
    = Some (mkResult (length bef + length pre) w (f ∅)).
Proof.
  intros Hord Hc. induction pre as [|ch pre IH]; intros bef Hfirst; rewrite search_unfold.
  - simpl. rewrite (Hc (mkState bef (w ++ post) ∅) eq_refl Some) by by eexists.
    unfold endIndex, advance. simpl. rewrite length_app, length_rev, Nat.add_0_r.
    replace (length w + length bef - length bef) with (length w) by lia.
    by rewrite take_app_length.
  - destruct (exec ic r (mkState bef _ ∅) Some) as [y|] eqn:E.
    { exfalso. apply exec_sound in E as (y' & Hy & _); [|done].
      apply (Hfirst [] ((ch :: pre) ++ w ++ post) y'); [done | simpl; lia | done]. }
    simpl. rewrite IH.
    + simpl. do 2 f_equal. lia.
    + intros pre' rest' y' Heq Hlen. rewrite <- rev_cons_app.
      apply Hfirst; [simpl; by rewrite Heq | simpl; lia].
Qed.

Lemma match_commits text re pre w post f :
  ordered (source re) → commits (ignoreCase re) (source re) w post f →
  text = pre ++ w ++ post →
  (∀ pre' rest' y', text = pre' ++ rest' → length pre' < length pre →
     ¬ reach (ignoreCase re) (source re) (mkState (rev pre') rest' ∅) y') →
  match_ text re = Some (mkResult (length pre) w (f ∅)).
Proof.
  intros Hord Hc -> Hfirst. unfold match_.
  rewrite (search_commits _ _ w post f Hord Hc pre []); [done|].
  intros pre' rest' y' Heq Hlen. rewrite app_nil_r. by apply Hfirst.
Qed.

Lemma commits_dateMatch dd s1 mm s2 yy rest :
  digitRun 1 2 dd → is_sep s1 = true → digitRun 1 2 mm → is_sep s2 = true →
  digitRun 2 4 yy → length yy = 4 ∨ headNot is_digit rest →
  commits false (source dateMatchRegex) (dd ++ s1 :: mm ++ s2 :: yy) rest
    (fun cs => <[3 := yy]> (<[2 := mm]> (<[1 := dd]> cs))).
Proof.
  intros [Hn1 Hd1] Hs1 [Hn2 Hd2] Hs2 [Hn3 Hd3] Hmax.
  apply (commits_seq false _ _ dd (s1 :: mm ++ s2 :: yy) rest
           (fun cs => <[1 := dd]> cs) (fun cs => <[3 := yy]> (<[2 := mm]> cs))).
  { apply (commits_group false 1 _ dd _ (fun cs => cs)).
    apply commits_rep_class; [done | done |]. right. simpl. by apply is_sep_not_digit. }
  apply (commits_seq false _ _ [s1] (mm ++ s2 :: yy) rest
           (fun cs => cs) (fun cs => <[3 := yy]> (<[2 := mm]> cs)));
    [by apply commits_class|].
  apply (commits_seq false _ _ mm (s2 :: yy) rest
           (fun cs => <[2 := mm]> cs) (fun cs => <[3 := yy]> cs)).
  { apply (commits_group false 2 _ mm _ (fun cs => cs)).
    apply commits_rep_class; [done | done |]. right. simpl. by apply is_sep_not_digit. }
  apply (commits_seq false _ _ [s2] yy rest (fun cs => cs) (fun cs => <[3 := yy]> cs));
    [by apply commits_class|].
  apply (commits_group false 3 _ yy _ (fun cs => cs)).
  apply commits_rep_class; [done | done |]. destruct Hmax as [->|?]; auto.
Qed.

Lemma commits_timeMatch hh mi rest :
  digitRun 1 2 hh → digitRun 2 2 mi →
  commits true (source timeMatchRegex) (hh ++ 58%N :: mi ++ tailOf rest)
    (drop (length (tailOf rest)) rest)
    (fun cs => tailCaptures rest (<[2 := mi]> (<[1 := hh]> cs))).
Proof.
  intros [Hn1 Hd1] [Hn2 Hd2].
  apply (commits_seq true _ _ hh (58%N :: mi ++ tailOf rest) _
           (fun cs => <[1 := hh]> cs) (fun cs => tailCaptures rest (<[2 := mi]> cs))).
  { apply (commits_group true 1 _ hh _ (fun cs => cs)).
    apply commits_rep_class; [done | done | by right]. }
  apply (commits_seq true _ _ [58%N] (mi ++ tailOf rest) _
           (fun cs => cs) (fun cs => tailCaptures rest (<[2 := mi]> cs)));
    [by apply commits_chr|].
  apply (commits_seq true _ _ mi (tailOf rest) _
           (fun cs => <[2 := mi]> cs) (tailCaptures rest)); [|apply commits_time_tail].
  apply (commits_group true 2 _ mi _ (fun cs => cs)).
  apply commits_rep_class; [done | done |]. left. f_equal. lia.
Qed.

(** The date [str.match(dateMatchRegex)] finds: the first date of the
    string, with the longest year. *)
Lemma dateMatch_first str pre dd s1 mm s2 yy post :
  str = pre ++ (dd ++ s1 :: mm ++ s2 :: yy) ++ post →
  digitRun 1 2 dd → is_sep s1 = true → digitRun 1 2 mm → is_sep s2 = true →
  digitRun 2 4 yy → length yy = 4 ∨ headNot is_digit post →
  firstAt dateShape str pre →
  match_ str dateMatchRegex
  = Some (mkResult (length pre) (dd ++ s1 :: mm ++ s2 :: yy)
            (<[3 := yy]> (<[2 := mm]> (<[1 := dd]> ∅)))).
Proof.
  intros Hs D1 S1 D2 S2 D3 Hmax Hfirst.
  apply (match_commits str dateMatchRegex pre _ post
           (fun cs => <[3 := yy]> (<[2 := mm]> (<[1 := dd]> cs))));
    [apply ordered_dateMatchRegex | by apply commits_dateMatch | done |].
  intros pre' rest' y' Heq Hlen Hr.
  apply reach_dateMatch in Hr
    as (dd' & s1' & mm' & s2' & yy' & H1 & H2 & H3 & H4 & H5 & [[Hs' _] _]).
  simpl in Hs'. assert (length pre ≤ length pre'); [|lia].
  apply (Hfirst pre' (dd' ++ s1' :: mm' ++ s2' :: yy') (after y')).
  - by rewrite Heq, Hs'.
  - exists dd', s1', mm', s2', yy'. auto 10.
Qed.

(** The time [str.match(timeMatchRegex)] finds: the first time of the
    string, with the blank and the marker that follow it. *)
Lemma timeMatch_first str pre hh mi rest :
  str = pre ++ hh ++ 58%N :: mi ++ rest →
  digitRun 1 2 hh → digitRun 2 2 mi → firstAt timeWord str pre →
  match_ str timeMatchRegex
  = Some (mkResult (length pre) (hh ++ 58%N :: mi ++ tailOf rest)
            (tailCaptures rest (<[2 := mi]> (<[1 := hh]> ∅)))).
Proof.
  intros Hs H1 H2 Hfirst.
  apply (match_commits str timeMatchRegex pre _ (drop (length (tailOf rest)) rest)
           (fun cs => tailCaptures rest (<[2 := mi]> (<[1 := hh]> cs))));
    [apply ordered_timeMatchRegex | by apply commits_timeMatch | |].
  { rewrite Hs. list_norm. do 4 f_equal. apply tailOf_prefix. }
  intros pre' rest' y' Heq Hlen Hr.
  apply reach_timeMatch in Hr as (hh' & mi' & sp' & T1 & T2 & T3 & Hm). simpl in Hm.
  assert (∃ mer, match mer with Some p => meridiem p | None => True end
                 ∧ rest' = (hh' ++ 58%N :: mi' ++ sp' ++ default [] mer) ++ after y')
    as (mer & Hmer & Hr').
  { destruct Hm as [[[Ha _] _]|(mer & Hmer & [Ha _] & _)]; simpl in Ha.
    - exists None. simpl. rewrite app_nil_r. split; [done|]. rewrite Ha. by list_norm.
    - exists (Some mer). by split. }
  assert (length pre ≤ length pre'); [|lia].
  apply (Hfirst pre' (hh' ++ 58%N :: mi' ++ sp' ++ default [] mer) (after y')).
  - by rewrite Heq, Hr'.
  - by apply timeWord_word.
Qed.

End RegExpFacts.

Import RegExpFacts.

(** ** The reminder loop *)

Section LoopFacts.

Variable LocalTZA : Z → Z.

(** The three ways out of the body of the loop. *)
Lemma checkTask_cases now granted st task :
  (shouldFire LocalTZA now st task
   ∧ checkTask LocalTZA now granted st task = fired granted st task)
  ∨ (¬ shouldFire LocalTZA now st task
     ∧ checkTask LocalTZA now granted st task = st).
Proof.
  unfold checkTask, shouldFire, dueNow.
  destruct (completed task) eqn:Hc; simpl.
  { right. split; [|done]. by intros (_ & ? & _). }
  case_bool_decide as Hin.
  { right. split; [|done]. by intros (_ & _ & ?). }
  destruct (parseUserDate (userDate task)) as [taskDate|] eqn:Hp.
  2:{ right. split; [|done]. by intros ((? & ? & ? & _) & _). }
  destruct (getTime LocalTZA taskDate) as [due|] eqn:Hg.
  2:{ right. split; [|done]. intros ((? & ? & [= <-] & ? & _) & _). congruence. }
  destruct ((-5000 <=? due - now)%Z && (due - now <=? 5000)%Z) eqn:Hw.
  - left. split; [|done]. apply andb_true_iff in Hw as [H1 H2].
    apply Z.leb_le in H1, H2. split; [|done]. exists taskDate, due. auto.
  - right. split; [|done]. intros ((? & ? & [= <-] & Hg' & H1 & H2) & _).
    rewrite Hg in Hg'. injection Hg' as <-.
    apply andb_false_iff in Hw as [Hw|Hw]; apply Z.leb_gt in Hw; lia.
Qed.

Lemma checkTask_notified now granted st task :
  id task ∈ notifiedTasks st → checkTask LocalTZA now granted st task = st.
Proof.
  intros Hin. destruct (checkTask_cases now granted st task) as [[Hf _]|[_ E]]; [|done].
  by destruct Hf as (_ & _ & ?).
Qed.

Lemma checkTask_completed now granted st task :
  completed task = true → checkTask LocalTZA now granted st task = st.
Proof. intros Hc. unfold checkTask. by rewrite Hc. Qed.

Lemma checkTask_unparseable now granted st task :
  parseUserDate (userDate task) = None →
  checkTask LocalTZA now granted st task = st.
Proof.
  intros Hp. destruct (checkTask_cases now granted st task) as [[Hf _]|[_ E]]; [|done].
  destruct Hf as ((? & ? & ? & _) & _). congruence.
Qed.

End LoopFacts.

Section OnceFacts.

Variable LocalTZA : Z → Z.

Lemma toasts_app es1 es2 : toasts (es1 ++ es2) = toasts es1 ++ toasts es2.
Proof. apply omap_app. Qed.

Lemma notifications_app es1 es2 :
  notifications (es1 ++ es2) = notifications es1 ++ notifications es2.
Proof. apply omap_app. Qed.

Lemma elem_of_toasts i es :
  i ∈ toasts es ↔ ∃ t, ShowToast t ∈ es ∧ id t = i.
Proof.
  unfold toasts. rewrite list_elem_of_omap. split.
  - intros ([t|t] & Hin & [= <-]). eauto.
  - intros (t & Hin & <-). by exists (ShowToast t).
Qed.

Lemma elem_of_notifications i es :
  i ∈ notifications es ↔ ∃ t, SendNotification t ∈ es ∧ id t = i.
Proof.
  unfold notifications. rewrite list_elem_of_omap. split.
  - intros ([t|t] & Hin & [= <-]). eauto.
  - intros (t & Hin & <-). by exists (SendNotification t).
Qed.

Lemma continues_refl st : continues st st.
Proof.
  split; [done|]. exists []. rewrite app_nil_r. split; [done|].
  intros e He. by apply elem_of_nil in He.
Qed.

Lemma continues_trans st1 st2 st3 :
  continues st1 st2 → continues st2 st3 → continues st1 st3.
Proof.
  intros (H12 & es & E & He) (H23 & es' & E' & He'). split; [set_solver|].
  exists (es ++ es'). split; [by rewrite E', E, app_assoc|].
  intros e [Hin|Hin]%elem_of_app; [by apply He|].
  intros Hn. apply (He' e Hin). by apply H12.
Qed.

Lemma continues_fired granted st task :
  id task ∉ notifiedTasks st → continues st (fired granted st task).
Proof.
  intros Hn. split; [simpl; set_solver|]. eexists. split; [reflexivity|].
  intros e He. assert (effectTask e = task) as ->; [|done].
  apply elem_of_cons in He as [->|He]; [done|].
  destruct granted; [|by apply elem_of_nil in He].
  by apply list_elem_of_singleton in He as ->.
Qed.

Lemma checkTask_continues now granted st task :
  continues st (checkTask LocalTZA now granted st task).
Proof.
  destruct (checkTask_cases LocalTZA now granted st task) as [[Hf ->]|[_ ->]].
  - apply continues_fired. by destruct Hf as (_ & _ & ?).
  - apply continues_refl.
Qed.

Lemma checkDueTasks_continues tasks now granted st :
  continues st (checkDueTasks LocalTZA tasks now granted st).
Proof.
  unfold checkDueTasks. revert st. induction tasks as [|t l IH]; simpl; intros st.
  - apply continues_refl.
  - eapply continues_trans; [apply checkTask_continues | apply IH].
Qed.

Lemma runTicks_continues ticks st : continues st (runTicks LocalTZA ticks st).
Proof.
  unfold runTicks. revert st. induction ticks as [|tk l IH]; simpl; intros st.
  - apply continues_refl.
  - eapply continues_trans; [apply checkDueTasks_continues | apply IH].
Qed.

Lemma onceEach_fired granted st task :
  id task ∉ notifiedTasks st → onceEach st → onceEach (fired granted st task).
Proof.
  intros Hn (Ht & Hs & Hin). unfold onceEach. simpl.
  rewrite toasts_app, notifications_app.
  assert (Hfresh : ∀ e, e ∈ effects st → id (effectTask e) ≠ id task).
  { intros e He Heq. apply Hn. rewrite <- Heq. by apply Hin. }
  split; [|split].
  - apply NoDup_app. split; [done|]. split.
    + intros i (t & Hi & <-)%elem_of_toasts Hi'.
      destruct granted; simpl in Hi'; apply list_elem_of_singleton in Hi';
        by apply (Hfresh _ Hi).
    + destruct granted; simpl; apply NoDup_singleton.
  - apply NoDup_app. split; [done|]. split.
    + intros i (t & Hi & <-)%elem_of_notifications Hi'.
      destruct granted; simpl in Hi'; [|by apply elem_of_nil in Hi'].
      apply list_elem_of_singleton in Hi'. by apply (Hfresh _ Hi).
    + destruct granted; simpl; [apply NoDup_singleton | apply NoDup_nil_2].
  - intros e [He|He]%elem_of_app; [specialize (Hin e He); set_solver|].
    assert (effectTask e = task) as ->;
      [|apply elem_of_union; left; by apply elem_of_singleton].
    apply elem_of_cons in He as [->|He]; [done|].
    destruct granted; [|by apply elem_of_nil in He].
    by apply list_elem_of_singleton in He as ->.
Qed.

Lemma checkTask_onceEach now granted st task :
  onceEach st → onceEach (checkTask LocalTZA now granted st task).
Proof.
  intros H. destruct (checkTask_cases LocalTZA now granted st task) as [[Hf ->]|[_ ->]];
    [|done].
  apply onceEach_fired; [|done]. by destruct Hf as (_ & _ & ?).
Qed.

Lemma checkDueTasks_onceEach tasks now granted st :
  onceEach st → onceEach (checkDueTasks LocalTZA tasks now granted st).
Proof.
  unfold checkDueTasks. revert st. induction tasks as [|t l IH]; simpl; intros st H;
    [done|].
  by apply IH, checkTask_onceEach.
Qed.

Lemma runTicks_onceEach ticks st :
  onceEach st → onceEach (runTicks LocalTZA ticks st).
Proof.
  unfold runTicks. revert st. induction ticks as [|tk l IH]; simpl; intros st H;
    [done|].
  by apply IH, checkDueTasks_onceEach.
Qed.

Lemma onceEach_start : onceEach (mkReminder ∅ []).
Proof.
  split; [apply NoDup_nil_2|]. split; [apply NoDup_nil_2|].
  intros e He. by apply elem_of_nil in He.
Qed.

End OnceFacts.

Section FireFacts.

Variable LocalTZA : Z → Z.

Lemma shouldFire_other now st st' task :
  (id task ∈ notifiedTasks st' ↔ id task ∈ notifiedTasks st) →
  shouldFire LocalTZA now st' task ↔ shouldFire LocalTZA now st task.
Proof. unfold shouldFire. intros H. by rewrite H. Qed.

(** One step of the loop: the state and what it dispatches. *)
Lemma checkTask_step now granted st t :
  ∃ es, effects (checkTask LocalTZA now granted st t) = effects st ++ es
    ∧ (∀ e, e ∈ es → effectTask e = t)
    ∧ (ShowToast t ∈ es ↔ shouldFire LocalTZA now st t)
    ∧ (SendNotification t ∈ es ↔ granted = true ∧ shouldFire LocalTZA now st t)
    ∧ (∀ i, i ∈ notifiedTasks (checkTask LocalTZA now granted st t)
            ↔ i ∈ notifiedTasks st ∨ (i = id t ∧ shouldFire LocalTZA now st t)).
Proof.
  destruct (checkTask_cases LocalTZA now granted st t) as [[Hf ->]|[Hf ->]].
  - eexists. split; [reflexivity|]. split; [|split; [|split]].
    + intros e He. destruct granted.
      * apply elem_of_cons in He as [->|He]; [done|].
        by apply list_elem_of_singleton in He as ->.
      * by apply list_elem_of_singleton in He as ->.
    + split; [done|]. intros _. apply elem_of_cons. by left.
    + destruct granted.
      * split; [done|]. intros _. apply elem_of_cons. right.
        by apply list_elem_of_singleton.
      * split; [|by intros [? _]]. intros He.
        by apply list_elem_of_singleton in He.
    + intros i. simpl. rewrite elem_of_union, elem_of_singleton. tauto.
  - exists []. rewrite app_nil_r. split; [done|]. split; [|split; [|split]].
    + intros e He. by apply elem_of_nil in He.
    + split; [by intros ?%elem_of_nil | done].
    + split; [by intros ?%elem_of_nil | by intros [_ ?]].
    + intros i. tauto.
Qed.

(** A run of the loop over [tasks]: what it dispatches is about tasks of
    the list, and it adds only ids of the list to the fired set. *)
Lemma checkDueTasks_about tasks now granted st :
  ∃ es, effects (checkDueTasks LocalTZA tasks now granted st) = effects st ++ es
    ∧ (∀ e, e ∈ es → effectTask e ∈ tasks)
    ∧ (∀ i, i ∈ notifiedTasks (checkDueTasks LocalTZA tasks now granted st) →
            i ∈ notifiedTasks st ∨ i ∈ id <$> tasks).
Proof.
  unfold checkDueTasks. revert st. induction tasks as [|t l IH]; simpl; intros st.
  - exists []. rewrite app_nil_r. split; [done|]. split; [|by left].
    intros e He. by apply elem_of_nil in He.
  - destruct (checkTask_step now granted st t) as (e1 & E1 & A1 & _ & _ & N1).
    destruct (IH (checkTask LocalTZA now granted st t)) as (el & El & Al & Nl).
    exists (e1 ++ el). split; [by rewrite El, E1, app_assoc|]. split.
    + intros e [He|He]%elem_of_app; apply elem_of_cons;
        [left; by apply A1 | right; by apply Al].
    + intros i Hi. apply Nl in Hi as [Hi|Hi].
      * apply N1 in Hi as [Hi|[-> _]]; [by left|]. right. apply elem_of_cons. by left.
      * right. apply elem_of_cons. by right.
Qed.

Lemma dispatched_app tasks now granted st es :
  effects (checkDueTasks LocalTZA tasks now granted st) = effects st ++ es →
  dispatched LocalTZA (mkTick tasks now granted) st = es.
Proof. unfold dispatched. simpl. intros ->. apply drop_app_length. Qed.

Lemma tick_transition tasks now granted :
  NoDup (id <$> tasks) →
  ∀ st task, task ∈ tasks →
    let st' := checkDueTasks LocalTZA tasks now granted st in
    let es := dispatched LocalTZA (mkTick tasks now granted) st in
    (ShowToast task ∈ es ↔ shouldFire LocalTZA now st task)
    ∧ (SendNotification task ∈ es ↔ granted = true ∧ shouldFire LocalTZA now st task)
    ∧ (id task ∈ notifiedTasks st'
       ↔ id task ∈ notifiedTasks st ∨ shouldFire LocalTZA now st task).
Proof.
  induction tasks as [|t l IH]; intros Hnd st task Hin; [by apply elem_of_nil in Hin|].
  simpl in Hnd. apply NoDup_cons in Hnd as [Ht Hl]. specialize (IH Hl).
  destruct (checkTask_step now granted st t) as (e1 & E1 & A1 & T1 & S1 & N1).
  set (st1 := checkTask LocalTZA now granted st t) in *.
  destruct (checkDueTasks_about l now granted st1) as (el & El & Al & Nl).
  assert (Hes : dispatched LocalTZA (mkTick (t :: l) now granted) st = e1 ++ el).
  { apply dispatched_app. unfold checkDueTasks. simpl. fold st1.
    change (foldl _ st1 l) with (checkDueTasks LocalTZA l now granted st1).
    by rewrite El, E1, app_assoc. }
  assert (Hst' : checkDueTasks LocalTZA (t :: l) now granted st
                 = checkDueTasks LocalTZA l now granted st1) by done.
  cbv zeta. rewrite Hes, Hst'. clear Hes Hst'.
  apply elem_of_cons in Hin as [->|Hin].
  - (* the head of the list: nothing later is about it *)
    assert (Hlater : ∀ e, e ∈ el → effectTask e ≠ t).
    { intros e He <-. apply Ht. apply list_elem_of_fmap_2. by apply Al. }
    split; [|split].
    + rewrite elem_of_app, T1. split; [|tauto].
      intros [?|He]; [done|]. by destruct (Hlater _ He).
    + rewrite elem_of_app, S1. split; [|tauto].
      intros [?|He]; [done|]. by destruct (Hlater _ He).
    + split.
      * intros Hi. apply Nl in Hi as [Hi|Hi]; [|done].
        apply N1 in Hi. tauto.
      * intros Hi. eapply (checkDueTasks_continues LocalTZA l now granted st1).
        apply N1. tauto.
  - (* a later task: the head does not touch it *)
    assert (Hne : id task ≠ id t).
    { intros Heq. apply Ht. rewrite <- Heq. by apply list_elem_of_fmap_2. }
    assert (Hsame : id task ∈ notifiedTasks st1 ↔ id task ∈ notifiedTasks st).
    { rewrite N1. tauto. }
    assert (Hhead : ∀ e, e ∈ e1 → effectTask e ≠ task).
    { intros e He Heq. apply A1 in He. congruence. }
    destruct (IH st1 task Hin) as (IT & IS & IN).
    rewrite (dispatched_app l now granted st1 el El) in IT, IS.
    rewrite (shouldFire_other now st st1 task Hsame) in IT, IS, IN.
    split; [|split].
    + rewrite elem_of_app, IT. split; [|tauto].
      intros [He|?]; [|done]. by destruct (Hhead _ He).
    + rewrite elem_of_app, IS. split; [|tauto].
      intros [He|?]; [|done]. by destruct (Hhead _ He).
    + rewrite IN, Hsame. tauto.
Qed.

End FireFacts.

(** ** The filter projection *)

Lemma filter_sublist {A} (f : A → bool) (l : list A) : sublist (List.filter f l) l.
Proof.
  induction l as [|a l IH]; simpl; [constructor|].
  destruct (f a); by constructor.
Qed.

Lemma filter_split_length {A} (f : A → bool) (l : list A) :
  length (List.filter f l) + length (List.filter (fun a => negb (f a)) l) = length l.
Proof.
  induction l as [|a l IH]; simpl; [done|]. destruct (f a); simpl; lia.
Qed.

Lemma filteredTasks_mode tasks mode :
  filteredTasks tasks (modeName mode) = List.filter (satisfies mode) tasks.
Proof. unfold filteredTasks. apply List.filter_ext. intros t. by destruct mode. Qed.

(** C8. For each of the modes all, active and completed, the tasks shown
    are the tasks that satisfy the predicate of the mode, in the order of
    the task list; shown and excluded tasks together are all the tasks. *)
Theorem C8_filter_projection (tasks : list Task) (mode : Mode) :
  let shown := filteredTasks tasks (modeName mode) in
  let excluded := List.filter (fun t => negb (satisfies mode t)) tasks in
  sublist shown tasks
  ∧ shown = List.filter (satisfies mode) tasks
  ∧ (∀ t, t ∈ shown ↔ t ∈ tasks ∧ satisfies mode t = true)
  ∧ (∀ t, t ∈ excluded ↔ t ∈ tasks ∧ satisfies mode t = false)
  ∧ length shown + length excluded = length tasks.
Proof.
  cbv zeta. rewrite filteredTasks_mode. split; [apply filter_sublist|].
  split; [done|]. split; [|split].
  - intros t. rewrite !list_elem_of_In. apply List.filter_In.
  - intros t. rewrite !list_elem_of_In, List.filter_In.
    by rewrite negb_true_iff.
  - apply filter_split_length.
Qed.

(** ** Extraction and parsing *)

Lemma digitRun_nonempty lo hi w : 0 < lo → digitRun lo hi w → w ≠ [].
Proof. intros Hlo [[Hl _] _] ->. simpl in Hl. lia. Qed.

Lemma dateShape_nonempty w : dateShape w → w ≠ [].
Proof.
  intros (dd & s1 & mm & s2 & yy & -> & _). by destruct dd.
Qed.

Lemma dateTimeWord_nonempty w : dateTimeWord w → w ≠ [].
Proof.
  intros (dt & tm & -> & Hdt & _) H. apply app_eq_nil in H as [-> _].
  by apply dateShape_nonempty in Hdt.
Qed.

Lemma contains_dateTimeWord s : contains dateTimeWord s ↔ contains dateShape s.
Proof.
  split.
  - intros (pre & w & post & -> & dt & tm & -> & Hdt & _).
    exists pre, dt, (tm ++ post). split; [by rewrite <- app_assoc | done].
  - intros (pre & w & post & -> & Hw). exists pre, w, post. split; [done|].
    exists w, []. rewrite app_nil_r. auto.
Qed.

Lemma truthy_nonempty w : w ≠ [] → truthy (Some w) = true.
Proof. by destruct w. Qed.

Lemma matchedOrNull_Some m d :
  matchedOrNull m = Some d → ∃ r, m = Some r ∧ matched r = d ∧ d ≠ [].
Proof.
  destruct m as [r|]; simpl; [|done]. destruct (matched r) eqn:E; simpl; [done|].
  intros [= <-]. by exists r.
Qed.

(** What [extractDateTime] returns. *)
Lemma extractDateTime_Some s d :
  extractDateTime s = Some d →
  ∃ pre post caps,
    s = pre ++ d ++ post ∧ dateTimeWord d
    ∧ match_ s dateTimeRegex = Some (mkResult (length pre) d caps)
    ∧ (∀ pre' w' post', s = pre' ++ w' ++ post' → dateShape w' →
         length pre ≤ length pre').
Proof.
  intros H. apply matchedOrNull_Some in H as (m & E & Hm & _).
  pose proof (dateTime_Some _ _ E) as (pre & w & post & Hs & Hw & Hi & Hm' & Hleft).
  destruct m as [i w' caps]. simpl in *. subst. by exists pre, post, caps.
Qed.

Lemma extractDateTime_longest s pre d post caps :
  s = pre ++ d ++ post →
  match_ s dateTimeRegex = Some (mkResult (length pre) d caps) →
  ∀ d' post', d ++ post = d' ++ post' → dateTimeWord d' → length d' ≤ length d.
Proof.
  intros -> E d' post' Heq Hd'.
  apply (dateTime_longest _ _ E d' post'); [|done]. simpl.
  by rewrite drop_app_length.
Qed.

Lemma extractDateTime_found s :
  contains dateShape s → ∃ d, extractDateTime s = Some d.
Proof.
  intros H. apply dateTime_is_Some in H as [m E].
  pose proof (dateTime_Some _ _ E) as (pre & w & post & Hs & Hw & Hi & Hm & _).
  exists w. unfold extractDateTime, matchedOrNull. rewrite E, Hm.
  by rewrite (truthy_nonempty _ (dateTimeWord_nonempty _ Hw)).
Qed.

Lemma extractDateTime_None s : extractDateTime s = None ↔ ¬ contains dateShape s.
Proof.
  split.
  - intros E H. apply extractDateTime_found in H as [d Hd]. congruence.
  - intros H. destruct (extractDateTime s) as [d|] eqn:E; [|done]. exfalso. apply H.
    apply extractDateTime_Some in E as (pre & post & caps & -> & Hd & _).
    apply dateTimeWord_dateShape in Hd as (p & w & q & -> & Hw).
    exists (pre ++ p), w, (q ++ post). split; [|done].
    by repeat (rewrite <- app_assoc; simpl).
Qed.

Lemma removeDateTime_Some s pre d post caps :
  s = pre ++ d ++ post →
  match_ s dateTimeRegex = Some (mkResult (length pre) d caps) →
  removeDateTime s = trim (pre ++ post).
Proof.
  intros Hs E. unfold removeDateTime. by rewrite (replaceEmpty_Some _ _ _ _ _ _ Hs E).
Qed.

Lemma removeDateTime_None s : extractDateTime s = None → removeDateTime s = trim s.
Proof.
  intros H. unfold removeDateTime, replaceEmpty.
  destruct (match_ s dateTimeRegex) as [m|] eqn:E; [|done]. exfalso.
  apply extractDateTime_None in H. apply H, contains_dateTimeWord.
  apply dateTime_Some in E as (pre & w & post & -> & Hw & _). by exists pre, w, post.
Qed.

(** [parseInt] of a run of digits is its decimal value. *)
Lemma leadingDigits_all w : forallb is_digit w = true → leadingDigits w = w.
Proof.
  induction w as [|c w IH]; simpl; [done|]. intros [Hc Hw]%andb_true_iff.
  by rewrite Hc, IH.
Qed.

Lemma parseInt_digitRun lo hi w : digitRun lo hi w → parseInt w = digitsValue w.
Proof. intros [_ H]. unfold parseInt. by rewrite leadingDigits_all. Qed.

(** The hour conversion of [parseUserDate] is the table [to24Hour]. *)
Lemma hours_to24Hour (hours : Z) (period : jsstring) :
  meridiem period →
  (if bool_decide (toUpperCase period = lit "PM") && negb (hours =? 12)%Z
   then (hours + 12)%Z
   else if bool_decide (toUpperCase period = lit "AM") && (hours =? 12)%Z
   then 0%Z else hours) = to24Hour hours (Some period).
Proof.
  unfold to24Hour. intros [H|H]; rewrite H.
  - rewrite (bool_decide_eq_false_2 (lit "AM" = lit "PM")) by done.
    rewrite (bool_decide_eq_true_2 (lit "AM" = lit "AM")) by done.
    simpl. by destruct (hours =? 12)%Z.
  - rewrite (bool_decide_eq_true_2 (lit "PM" = lit "PM")) by done.
    rewrite (bool_decide_eq_false_2 (lit "PM" = lit "AM")) by done.
    simpl. destruct (hours =? 12)%Z eqn:E; simpl; [|done].
    apply Z.eqb_eq in E. lia.
Qed.

Lemma meridiem_nonempty p : meridiem p → truthy (Some p) = true.
Proof. intros [H|H]; by destruct p. Qed.

(** [parseUserDate] in terms of the two matches. *)
Lemma parseUserDate_eq str :
  str ≠ [] →
  parseUserDate (Some str) =
    match match_ str dateMatchRegex with
    | None => None
    | Some dateMatch =>
        let time :=
          match match_ str timeMatchRegex with
          | None => (0%Z, 0%Z)
          | Some timeMatch =>
              let hours := parseInt (capture timeMatch 1) in
              let minutes := parseInt (capture timeMatch 2) in
              let period := group timeMatch !! 3 in
              (if truthy period then
                 if bool_decide (toUpperCase (default [] period) = lit "PM")
                    && negb (hours =? 12)%Z
                 then (hours + 12)%Z
                 else if bool_decide (toUpperCase (default [] period) = lit "AM")
                         && (hours =? 12)%Z
                 then 0%Z else hours
               else hours, minutes)
          end in
        Some (mkDate (fullYear (parseInt (capture dateMatch 3)))
                (parseInt (capture dateMatch 2) - 1) (parseInt (capture dateMatch 1))
                time.1 time.2)
    end.
Proof.
  intros Hne. unfold parseUserDate. rewrite (truthy_nonempty _ Hne). simpl.
  destruct (match_ str dateMatchRegex) as [dm|]; [|done].
  destruct (match_ str timeMatchRegex) as [tm|]; [|done].
  destruct (truthy _); [|done].
  destruct (_ && _); [done|]. by destruct (_ && _).
Qed.

Lemma parseUserDate_is_Some str :
  is_Some (parseUserDate (Some str)) ↔ contains dateShape str.
Proof.
  destruct (decide (str = [])) as [->|Hne].
  { split; [by intros [? ?]|]. intros (pre & w & post & Heq & Hw).
    symmetry in Heq. apply app_eq_nil in Heq as [_ [-> _]%app_eq_nil].
    by apply dateShape_nonempty in Hw. }
  rewrite (parseUserDate_eq _ Hne). split.
  - intros H. destruct (match_ str dateMatchRegex) eqn:E; [|by destruct H].
    apply dateMatch_Some in E as (pre & dd & s1 & mm & s2 & yy & post & -> & H').
    exists pre, (dd ++ s1 :: mm ++ s2 :: yy), post. split; [done|].
    exists dd, s1, mm, s2, yy. tauto.
  - intros H. apply dateMatch_is_Some in H as [m ->]. by eexists.
Qed.

Lemma digits_no_colon w : forallb is_digit w = true → 58%N ∉ w.
Proof.
  intros H Hin. rewrite forallb_forall in H. apply list_elem_of_In in Hin.
  by apply H in Hin.
Qed.

Lemma timeWord_colon w : timeWord w → 58%N ∈ w.
Proof.
  intros (hh & mi & sp & mer & -> & _). apply elem_of_app. right.
  apply elem_of_cons. by left.
Qed.

Lemma no_colon_no_time str : 58%N ∉ str → ¬ contains timeWord str.
Proof.
  intros Hno (pre & t & post & -> & Ht). apply Hno.
  apply elem_of_app. right. apply elem_of_app. left. by apply timeWord_colon.
Qed.

Lemma firstAt_nil (P : jsstring → Prop) str : firstAt P str [].
Proof. intros pre' w' post' _ _. simpl. lia. Qed.

(** ** The shapes of the specification and the words of the patterns

    A word of a pattern is a substring of the shape the specification
    names, followed by at most one blank: the blank the pattern takes after
    the minutes when no marker follows. *)

Lemma timeShape_timeWord w : timeShape w → timeWord w.
Proof.
  intros (hh & mi & sp & mer & -> & H1 & H2 & [[-> ->]|[Hsp Hmer]]);
    exists hh, mi; [exists [], [] | exists sp, mer];
    do 3 (split; [done|]); (split; [|by auto]); [by left | done].
Qed.

Lemma timeWord_timeShape w :
  timeWord w → ∃ g b, w = g ++ b ∧ timeShape g ∧ optionalBlank b.
Proof.
  intros (hh & mi & sp & mer & -> & H1 & H2 & Hsp & [->|Hmer]).
  - exists (hh ++ 58%N :: mi), sp. split; [by list_norm|]. split; [|done].
    exists hh, mi, [], []. split; [by list_norm|]. do 2 (split; [done|]). by left.
  - exists (hh ++ 58%N :: mi ++ sp ++ mer), []. split; [by list_norm|].
    split; [|by left]. exists hh, mi, sp, mer. do 3 (split; [done|]). by right.
Qed.

Lemma contains_timeShape s : contains timeShape s ↔ contains timeWord s.
Proof.
  split.
  - intros (pre & w & post & -> & Hw). exists pre, w, post.
    split; [done | by apply timeShape_timeWord].
  - intros (pre & w & post & -> & Hw).
    apply timeWord_timeShape in Hw as (g & b & -> & Hg & _).
    exists pre, g, (b ++ post). split; [by list_norm | done].
Qed.

Lemma firstAt_timeShape s pre : firstAt timeShape s pre ↔ firstAt timeWord s pre.
Proof.
  split.
  - intros H pre' w post' Hs Hw.
    apply timeWord_timeShape in Hw as (g & b & -> & Hg & _).
    apply (H pre' g (b ++ post')); [|done]. rewrite Hs. by list_norm.
  - intros H pre' w post' Hs Hw. apply (H pre' w post' Hs).
    by apply timeShape_timeWord.
Qed.

Lemma dateTimeShape_dateTimeWord w : dateTimeShape w → dateTimeWord w.
Proof.
  intros (dt & tm & -> & Hdt & [->|(ws & t & -> & Hne & Hws & Ht)]);
    exists dt; eexists; (split; [done|]); (split; [done|]); [by left|].
  right. exists ws, t. do 3 (split; [done|]). by apply timeShape_timeWord.
Qed.

Lemma contains_dateTimeShape s : contains dateTimeShape s ↔ contains dateShape s.
Proof.
  split.
  - intros (pre & w & post & -> & dt & tm & -> & Hdt & _).
    exists pre, dt, (tm ++ post). split; [by rewrite <- app_assoc | done].
  - intros (pre & w & post & -> & Hw). exists pre, w, post. split; [done|].
    exists w, []. rewrite app_nil_r. auto.
Qed.

Lemma isMeridiem_end c1 c2 : isMeridiem c1 c2 = true → is_space c2 = false.
Proof.
  unfold isMeridiem, canonicalize. simpl. intros [_ H]%andb_true_iff.
  apply N.eqb_eq in H. unfold is_space.
  destruct ((97 <=? c2)%N && (c2 <=? 122)%N) eqn:E.
  - apply andb_true_iff in E as [E1 E2]. apply N.leb_le in E1, E2.
    repeat (apply orb_false_iff; split);
      try (apply N.eqb_neq; lia); apply andb_false_iff;
      [right | left]; apply N.leb_gt; lia.
  - subst c2. done.
Qed.

Lemma digitRun_end lo hi w post :
  0 < lo → digitRun lo hi w → headNot is_space (rev (post ++ w)).
Proof.
  intros Hlo [[Hl _] Hd]. rewrite rev_app_distr.
  destruct (rev w) as [|c r] eqn:E.
  { apply (f_equal (@length _)) in E. rewrite length_rev in E. simpl in E. lia. }
  simpl. apply is_digit_not_space.
  rewrite <- (rev_involutive w), E in Hd. simpl in Hd.
  rewrite List.forallb_app in Hd. apply andb_true_iff in Hd as [_ Hd]. simpl in Hd.
  by apply andb_true_iff in Hd as [Hd _].
Qed.

(** A date and time of the specification does not end with a blank. *)
Lemma dateTimeShape_end w : dateTimeShape w → headNot is_space (rev w).
Proof.
  intros (dt & tm & -> & (dd & s1 & mm & s2 & yy & -> & _ & _ & _ & _ & Hy)
          & [->|(ws & t & -> & _ & _ & hh & mi & sp & mer & -> & _ & Hmi & Hend)]).
  - rewrite app_nil_r.
    replace (dd ++ s1 :: mm ++ s2 :: yy) with ((dd ++ s1 :: mm ++ [s2]) ++ yy)
      by by list_norm.
    apply (digitRun_end 2 4); [lia | done].
  - destruct Hend as [[-> ->]|[_ Hmer]].
    + rewrite !app_nil_r.
      replace ((dd ++ s1 :: mm ++ s2 :: yy) ++ ws ++ hh ++ 58%N :: mi)
        with (((dd ++ s1 :: mm ++ s2 :: yy) ++ ws ++ hh ++ [58%N]) ++ mi)
        by by list_norm.
      apply (digitRun_end 2 2); [lia | done].
    + apply meridiem_two in Hmer as (c1 & c2 & -> & Hc).
      replace ((dd ++ s1 :: mm ++ s2 :: yy) ++ ws ++ hh ++ 58%N :: mi ++ sp ++ [c1; c2])
        with (((dd ++ s1 :: mm ++ s2 :: yy) ++ ws ++ hh ++ 58%N :: mi ++ sp ++ [c1])
              ++ [c2]) by by list_norm.
      rewrite rev_app_distr. simpl. by eapply isMeridiem_end.
Qed.

(** A word of the pattern of [extractDateTime] is a date and time of the
    specification, followed by a blank only where that one ends with its
    minutes. *)
Lemma dateTimeWord_split d :
  dateTimeWord d →
  ∃ g b, d = g ++ b ∧ dateTimeShape g
         ∧ (b = [] ∨ ∃ ch, b = [ch] ∧ is_space ch = true ∧ unmarkedDateTime g).
Proof.
  intros (dt & tm & -> & Hdt & [->|(ws & t & -> & Hne & Hws & Ht)]).
  { exists dt, []. rewrite !app_nil_r. split; [done|]. split; [|by left].
    exists dt, []. rewrite app_nil_r. auto. }
  destruct Ht as (hh & mi & sp & mer & -> & H1 & H2 & Hsp & [->|Hmer]).
  - rewrite app_nil_r.
    exists (dt ++ ws ++ hh ++ 58%N :: mi), sp. split; [by list_norm|]. split.
    + exists dt, (ws ++ hh ++ 58%N :: mi). split; [done|]. split; [done|]. right.
      exists ws, (hh ++ 58%N :: mi). do 3 (split; [done|]).
      exists hh, mi, [], []. split; [by list_norm|]. do 2 (split; [done|]). by left.
    + destruct Hsp as [->|(ch & -> & Hch)]; [by left|]. right. exists ch.
      do 2 (split; [done|]). by exists dt, ws, hh, mi.
  - exists (dt ++ ws ++ hh ++ 58%N :: mi ++ sp ++ mer), []. rewrite app_nil_r.
    split; [done|]. split; [|by left].
    exists dt, (ws ++ hh ++ 58%N :: mi ++ sp ++ mer). split; [done|]. split; [done|].
    right. exists ws, (hh ++ 58%N :: mi ++ sp ++ mer). do 3 (split; [done|]).
    exists hh, mi, sp, mer. do 3 (split; [done|]). by right.
Qed.

Lemma unmarkedDateTime_blank g ch :
  unmarkedDateTime g → is_space ch = true → dateTimeWord (g ++ [ch]).
Proof.
  intros (dt & ws & hh & mi & -> & Hdt & Hne & Hws & H1 & H2) Hch.
  exists dt, (ws ++ hh ++ 58%N :: mi ++ [ch]). split; [by list_norm|]. split; [done|].
  right. exists ws, (hh ++ 58%N :: mi ++ [ch]). do 3 (split; [done|]).
  exists hh, mi, [ch], []. rewrite app_nil_r. do 3 (split; [done|]).
  split; [right; by exists ch | by left].
Qed.

(** What [extractDateTime] and [removeDateTime] do with a text that has a
    date: the first date and time of the text, the longest at its place, is
    taken together with the blank after it when it ends with its minutes. *)
Lemma extractDateTime_shape s d :
  extractDateTime s = Some d →
  ∃ pre g b post,
    s = pre ++ (g ++ b) ++ post ∧ d = g ++ b ∧ dateTimeShape g
    ∧ firstAt dateShape s pre
    ∧ (∀ d' post', g ++ b ++ post = d' ++ post' → dateTimeShape d' →
         length d' ≤ length g)
    ∧ ((b = [] ∧ (unmarkedDateTime g → headNot is_space post))
       ∨ (∃ ch, b = [ch] ∧ is_space ch = true ∧ unmarkedDateTime g))
    ∧ removeDateTime s = trim (pre ++ post).
Proof.
  intros H. apply extractDateTime_Some in H as (pre & post & caps & Hs & Hd & E & Hleft).
  pose proof (removeDateTime_Some _ _ _ _ _ Hs E) as Hrem.
  pose proof (extractDateTime_longest _ _ _ _ _ Hs E) as Hlong.
  apply dateTimeWord_split in Hd as (g & b & -> & Hg & Hb).
  exists pre, g, b, post. do 4 (split; [done|]). split; [|split; [|done]].
  - intros d' post' Heq Hd'.
    pose proof (Hlong d' post') as Hle. rewrite <- app_assoc in Hle.
    specialize (Hle Heq (dateTimeShape_dateTimeWord _ Hd')).
    destruct Hb as [->|(ch & -> & Hch & _)]; [by rewrite app_nil_r in Hle|].
    rewrite length_app in Hle. simpl in Hle.
    destruct (decide (length d' = length g + 1)) as [Hl|]; [|lia]. exfalso.
    assert (d' = g ++ [ch]) as ->.
    { apply (f_equal (take (length d'))) in Heq.
      rewrite take_app_length in Heq. rewrite <- Heq, Hl.
      rewrite app_assoc. rewrite take_app_length'; [done|].
      rewrite length_app. simpl. lia. }
    apply dateTimeShape_end in Hd'. rewrite rev_app_distr in Hd'. simpl in Hd'.
    congruence.
  - destruct Hb as [->|Hb]; [left | by right]. split; [done|]. intros Hu.
    destruct post as [|c post]; [done|]. simpl.
    destruct (is_space c) eqn:Ec; [|done]. exfalso.
    pose proof (Hlong (g ++ [c]) post) as Hle. rewrite !length_app in Hle.
    simpl in Hle. rewrite app_nil_r in Hle.
    specialize (Hle ltac:(by list_norm) (unmarkedDateTime_blank _ _ Hu Ec)). lia.
Qed.

(** C4. Whatever [extractDateTime] extracts, [parseUserDate] parses: the
    format taken at insertion and the format read by the reminder loop
    agree. *)
Theorem C4_extracted_date_parses (s d : jsstring) :
  extractDateTime s = Some d → is_Some (parseUserDate (Some d)).
Proof.
  intros H. apply extractDateTime_Some in H as (_ & _ & _ & _ & Hd & _).
  by apply parseUserDate_is_Some, dateTimeWord_dateShape.
Qed.

Lemma C4_witness :
  extractDateTime (lit "Buy milk 25/12/2025 6:30 PM") = Some (lit "25/12/2025 6:30 PM")
  ∧ is_Some (parseUserDate (Some (lit "25/12/2025 6:30 PM"))).
Proof.
  split; [by vm_compute|].
  apply (C4_extracted_date_parses (lit "Buy milk 25/12/2025 6:30 PM")). by vm_compute.
Defined.

(** C7, as the code has it.  When the text has a substring of the date
    shape (optionally followed by a time and a meridiem marker),
    [extractDateTime] returns the first such substring (no date of the text
    starts before it), the longest one that starts there, verbatim, and
    with it the one whitespace character that follows, when the substring
    ends with its minutes (a time without marker) and a whitespace
    character follows; without a time, or with a marker, it returns the
    substring alone.  [removeDateTime] returns the text without what
    [extractDateTime] returns, trimmed.  When the text has no such
    substring, [extractDateTime] returns nothing, and [removeDateTime] only
    trims.  On the example of the specification the substring is the date
    with its time and marker. *)
Theorem C7_extract_and_remove (s : jsstring) :
  (contains dateTimeShape s →
   ∃ pre g b post,
     s = pre ++ (g ++ b) ++ post ∧ dateTimeShape g
     ∧ extractDateTime s = Some (g ++ b)
     ∧ removeDateTime s = trim (pre ++ post)
     ∧ firstAt dateTimeShape s pre
     ∧ (∀ d' post', g ++ b ++ post = d' ++ post' → dateTimeShape d' →
          length d' ≤ length g)
     ∧ ((b = [] ∧ (unmarkedDateTime g → headNot is_space post))
        ∨ (∃ ch, b = [ch] ∧ is_space ch = true ∧ unmarkedDateTime g)))
  ∧ (¬ contains dateTimeShape s →
     extractDateTime s = None ∧ removeDateTime s = trim s)
  ∧ extractDateTime (lit "Buy milk 25/12/2025 6:30 PM") = Some (lit "25/12/2025 6:30 PM")
  ∧ removeDateTime (lit "Buy milk 25/12/2025 6:30 PM") = lit "Buy milk".
Proof.
  split; [|split; [|split; by vm_compute]].
  - intros H. apply contains_dateTimeShape, extractDateTime_found in H as [d Hd].
    pose proof (extractDateTime_shape _ _ Hd)
      as (pre & g & b & post & Hs & -> & Hg & Hleft & Hlong & Hb & Hrem).
    exists pre, g, b, post. do 4 (split; [done|]). split; [|done].
    intros pre' d' post' Hs' (dt & tm & -> & Hdt & _).
    apply (Hleft pre' dt (tm ++ post')); [|done]. by rewrite Hs', <- app_assoc.
  - intros H. assert (extractDateTime s = None) as E.
    { apply extractDateTime_None. by rewrite <- contains_dateTimeShape. }
    split; [done | by apply removeDateTime_None].
Qed.

Lemma C7_witness :
  ∃ pre g b post,
    lit "Pay rent 1/2/26 9:00 now" = pre ++ (g ++ b) ++ post ∧ dateTimeShape g
    ∧ extractDateTime (lit "Pay rent 1/2/26 9:00 now") = Some (g ++ b)
    ∧ removeDateTime (lit "Pay rent 1/2/26 9:00 now") = trim (pre ++ post)
    ∧ firstAt dateTimeShape (lit "Pay rent 1/2/26 9:00 now") pre
    ∧ (∀ d' post', g ++ b ++ post = d' ++ post' → dateTimeShape d' →
         length d' ≤ length g)
    ∧ ((b = [] ∧ (unmarkedDateTime g → headNot is_space post))
       ∨ (∃ ch, b = [ch] ∧ is_space ch = true ∧ unmarkedDateTime g)).
Proof.
  apply (proj1 (C7_extract_and_remove (lit "Pay rent 1/2/26 9:00 now"))).
  exists (lit "Pay rent "), (lit "1/2/26"), (lit " 9:00 now"). split; [reflexivity|].
  exists (lit "1/2/26"), []. split; [reflexivity|]. split; [|by left].
  exists (lit "1"), 47%N, (lit "2"), 47%N, (lit "26").
  repeat split; simpl; lia.
Defined.

(** C7, as the claim has it, fails: in "a 25/12/2025 6:30 xyz" the date with
    its time is a substring of the shape, but [extractDateTime] returns it
    with the blank that follows, which is no substring of the shape, and
    [removeDateTime] removes that blank too: it returns "a xyz", where the
    text without the substring of the shape, trimmed, keeps both blanks. *)
Lemma C7_counterexample :
  let s := lit "a 25/12/2025 6:30 xyz" in
  contains dateTimeShape s
  ∧ extractDateTime s = Some (lit "25/12/2025 6:30 ")
  ∧ removeDateTime s = lit "a xyz"
  ∧ trim (lit "a " ++ lit " xyz") = lit "a  xyz"
  ∧ ¬ extractsTheShape s.
Proof.
  assert (contains dateTimeShape (lit "a 25/12/2025 6:30 xyz")) as Hc.
  { exists (lit "a "), (lit "25/12/2025 6:30"), (lit " xyz"). split; [reflexivity|].
    exists (lit "25/12/2025"), (lit " 6:30"). split; [reflexivity|]. split.
    - exists (lit "25"), 47%N, (lit "12"), 47%N, (lit "2025").
      repeat split; simpl; lia.
    - right. exists (lit " "), (lit "6:30"). do 3 (split; [done|]).
      exists (lit "6"), (lit "30"), [], []. split; [reflexivity|].
      repeat split; simpl; try lia. by left. }
  split; [done|]. do 3 (split; [by vm_compute|]).
  intros H. destruct (H Hc) as (pre & d & post & _ & Hd & E & _).
  assert (extractDateTime (lit "a 25/12/2025 6:30 xyz") = Some (lit "25/12/2025 6:30 "))
    as E' by by vm_compute.
  rewrite E' in E. injection E as <-.
  apply dateTimeShape_end in Hd. vm_compute in Hd. discriminate.
Qed.

(** ** Unparseable dates *)

Section Unparseable.

Variable LocalTZA : Z → Z.

Lemma checkTask_effects_due now granted st t e :
  e ∈ effects (checkTask LocalTZA now granted st t) →
  e ∈ effects st ∨ (effectTask e = t ∧ shouldFire LocalTZA now st t).
Proof.
  destruct (checkTask_cases LocalTZA now granted st t) as [[Hf ->]|[_ ->]];
    [|by left].
  simpl. intros [He|He]%elem_of_app; [by left|]. right. split; [|done].
  apply elem_of_cons in He as [->|He]; [done|].
  destruct granted; [|by apply elem_of_nil in He].
  by apply list_elem_of_singleton in He as ->.
Qed.

Lemma checkDueTasks_effects_due tasks now granted st e :
  e ∈ effects (checkDueTasks LocalTZA tasks now granted st) →
  e ∈ effects st ∨ dueNow LocalTZA now (effectTask e).
Proof.
  unfold checkDueTasks. revert st. induction tasks as [|t l IH]; simpl; intros st He;
    [by left|].
  apply IH in He as [He|He]; [|by right].
  apply checkTask_effects_due in He as [He|[-> (Hd & _)]]; [by left | by right].
Qed.

Lemma runTicks_effects_due ticks st e :
  e ∈ effects (runTicks LocalTZA ticks st) →
  e ∈ effects st ∨ ∃ now, dueNow LocalTZA now (effectTask e).
Proof.
  unfold runTicks. revert st. induction ticks as [|tk l IH]; simpl; intros st He;
    [by left|].
  apply IH in He as [He|He]; [|by right].
  apply checkDueTasks_effects_due in He as [He|He]; [by left | right; eauto].
Qed.

End Unparseable.

Lemma parseUserDate_None u :
  parseUserDate u = None
  ↔ u = None ∨ u = Some [] ∨ ∃ s, u = Some s ∧ ¬ contains dateShape s.
Proof.
  destruct u as [s|]; [|by split; [left|]].
  destruct (decide (s = [])) as [->|Hne]; [by split; [right; left|]|].
  split.
  - intros H. right. right. exists s. split; [done|].
    intros [dt Hdt]%parseUserDate_is_Some. congruence.
  - intros [?|[[= ?]|(s' & [= <-] & H)]]; [done | done |].
    destruct (parseUserDate (Some s)) eqn:E; [|done].
    destruct H. apply parseUserDate_is_Some. rewrite E. by eexists.
Qed.

(** C9. [parseUserDate] returns nothing exactly when its argument is absent
    or empty or has no substring of the date shape; a task whose [userDate]
    does not parse is skipped by the loop on every tick (the state is left
    as it is), and no effect of a session is about such a task. *)
Theorem C9_unparseable_never_fires :
  (∀ u, parseUserDate u = None
        ↔ u = None ∨ u = Some [] ∨ ∃ s, u = Some s ∧ ¬ contains dateShape s)
  ∧ (∀ (LocalTZA : Z → Z) (task : Task),
       parseUserDate (userDate task) = None →
       (∀ now granted st, checkTask LocalTZA now granted st task = st)
       ∧ (∀ ticks e, e ∈ effects (session LocalTZA ticks) → effectTask e ≠ task)).
Proof.
  split; [apply parseUserDate_None|]. intros LocalTZA task Hp. split.
  - intros now granted st. by apply checkTask_unparseable.
  - intros ticks e He <-. apply runTicks_effects_due in He as [He|[now Hd]].
    + by apply elem_of_nil in He.
    + destruct Hd as (? & ? & ? & _). congruence.
Qed.

Lemma C9_witness :
  let task := mkTask 1 (lit "Call mom") (Some (lit "tomorrow")) false in
  (∀ now granted st, checkTask (fun _ => 0%Z) now granted st task = st)
  ∧ (∀ ticks e, e ∈ effects (session (fun _ => 0%Z) ticks) → effectTask e ≠ task).
Proof.
  apply (proj2 C9_unparseable_never_fires). by vm_compute.
Defined.

(** ** The conversions of the parser *)

Lemma fullYear_two_digits yy :
  digitRun 2 4 yy → length yy = 2 →
  fullYear (digitsValue yy) = (digitsValue yy + 2000)%Z.
Proof.
  intros [_ Hd] Hl. destruct yy as [|a [|b [|??]]]; try done. simpl in Hd.
  apply andb_true_iff in Hd as [Ha Hd]. apply andb_true_iff in Hd as [Hb _].
  apply is_digit_bounds in Ha, Hb. unfold fullYear, digitsValue. simpl.
  destruct (_ <? 100)%Z eqn:E; [done|]. apply Z.ltb_ge in E. lia.
Qed.

(** The date fields of a parsed date are the values of the digits of a date
    of the string, and its time fields those of a time of the string. *)
Lemma parseUserDate_fields str dt :
  parseUserDate (Some str) = Some dt →
  (∃ pre dd s1 mm s2 yy post,
     str = pre ++ (dd ++ s1 :: mm ++ s2 :: yy) ++ post
     ∧ digitRun 1 2 dd ∧ is_sep s1 = true ∧ digitRun 1 2 mm ∧ is_sep s2 = true
     ∧ digitRun 2 4 yy
     ∧ day dt = digitsValue dd ∧ month dt = (digitsValue mm - 1)%Z
     ∧ year dt = fullYear (digitsValue yy))
  ∧ ((¬ contains timeWord str ∧ hours dt = 0%Z ∧ minutes dt = 0%Z)
     ∨ ∃ pre hh mi sp mer post,
         str = pre ++ (hh ++ 58%N :: mi ++ sp ++ default [] mer) ++ post
         ∧ digitRun 1 2 hh ∧ digitRun 2 2 mi ∧ optionalBlank sp
         ∧ match mer with Some p => meridiem p | None => True end
         ∧ hours dt = to24Hour (digitsValue hh) mer
         ∧ minutes dt = digitsValue mi).
Proof.
  intros H. assert (str ≠ []) as Hne by (intros ->; done).
  rewrite (parseUserDate_eq _ Hne) in H.
  destruct (match_ str dateMatchRegex) as [dm|] eqn:Ed; [|done].
  apply dateMatch_Some in Ed
    as (pre & dd & s1 & mm & s2 & yy & post & Hs & H1 & H2 & H3 & H4 & H5 & ->).
  unfold capture in H. simpl in H. simplify_map_eq.
  rewrite !(parseInt_digitRun _ _ _ H1), !(parseInt_digitRun _ _ _ H3),
    !(parseInt_digitRun _ _ _ H5). split.
  { exists pre, dd, s1, mm, s2, yy, post. simpl. auto 10. }
  simpl. destruct (match_ (pre ++ _ ++ post) timeMatchRegex) as [tm|] eqn:Et.
  - right. apply timeMatch_Some in Et
      as (pre' & hh & mi & sp & mer & post' & Hs' & T1 & T2 & T3 & T4 & G1 & G2 & G3).
    exists pre', hh, mi, sp, mer, post'. do 5 (split; [done|]).
    unfold capture. rewrite G1, G2, G3. simpl.
    rewrite !(parseInt_digitRun _ _ _ T1), !(parseInt_digitRun _ _ _ T2).
    split; [|done]. destruct mer as [p|]; [|done].
    rewrite (meridiem_nonempty _ T4). by apply hours_to24Hour.
  - left. by apply timeMatch_None in Et.
Qed.

Lemma markerAt_meridiem rest mer : markerAt rest = Some mer → meridiem mer.
Proof.
  unfold markerAt. case_decide as Hne; [done|]. intros [= <-].
  destruct (drop _ rest) as [|c1 [|c2 ?]]; simpl in *; try done.
  destruct (isMeridiem c1 c2) eqn:E; [|done]. by apply isMeridiem_meridiem.
Qed.

Lemma tailCaptures_lookup rest hh mi :
  let cs := tailCaptures rest (<[2 := mi]> (<[1 := hh]> ∅)) in
  cs !! 1 = Some hh ∧ cs !! 2 = Some mi ∧ cs !! 3 = markerAt rest.
Proof.
  unfold tailCaptures. destruct (markerAt rest); simpl; by simplify_map_eq.
Qed.

(** The hour [parseUserDate] computes from the captures of a time. *)
Lemma parsed_hours hh period :
  match period with Some p => meridiem p | None => True end →
  (if truthy period then
     if bool_decide (toUpperCase (default [] period) = lit "PM")
        && negb (digitsValue hh =? 12)%Z
     then (digitsValue hh + 12)%Z
     else if bool_decide (toUpperCase (default [] period) = lit "AM")
             && (digitsValue hh =? 12)%Z
     then 0%Z else digitsValue hh
   else digitsValue hh) = to24Hour (digitsValue hh) period.
Proof.
  destruct period as [p|]; [|done]. intros Hp.
  rewrite (meridiem_nonempty _ Hp). by apply hours_to24Hour.
Qed.

(** What [parseUserDate] returns, from the first date of the string (with
    its longest year) and the first time of the string (with the marker that
    follows it). *)
Lemma parseUserDate_exact str pre dd s1 mm s2 yy post :
  str = pre ++ (dd ++ s1 :: mm ++ s2 :: yy) ++ post →
  digitRun 1 2 dd → is_sep s1 = true → digitRun 1 2 mm → is_sep s2 = true →
  digitRun 2 4 yy → length yy = 4 ∨ headNot is_digit post →
  firstAt dateShape str pre →
  (¬ contains timeWord str →
   parseUserDate (Some str)
   = Some (mkDate (fullYear (digitsValue yy)) (digitsValue mm - 1) (digitsValue dd) 0 0))
  ∧ (∀ pre' hh mi rest,
       str = pre' ++ hh ++ 58%N :: mi ++ rest →
       digitRun 1 2 hh → digitRun 2 2 mi → firstAt timeWord str pre' →
       parseUserDate (Some str)
       = Some (mkDate (fullYear (digitsValue yy)) (digitsValue mm - 1) (digitsValue dd)
                 (to24Hour (digitsValue hh) (markerAt rest)) (digitsValue mi))).
Proof.
  intros Hs D1 S1 D2 S2 D3 Hmax Hfirst.
  assert (str ≠ []) as Hne.
  { rewrite Hs. intros H. apply app_eq_nil in H as [_ H]. apply app_eq_nil in H as [H _].
    by destruct dd. }
  rewrite (parseUserDate_eq _ Hne).
  rewrite (dateMatch_first str pre dd s1 mm s2 yy post Hs D1 S1 D2 S2 D3 Hmax Hfirst).
  unfold capture. simpl. simplify_map_eq.
  rewrite !(parseInt_digitRun _ _ _ D1), !(parseInt_digitRun _ _ _ D2),
    !(parseInt_digitRun _ _ _ D3). split.
  - intros Hno. apply timeMatch_None in Hno. by rewrite Hno.
  - intros pre' hh mi rest Hs' T1 T2 Hfirst'.
    rewrite (timeMatch_first _ pre' hh mi rest Hs' T1 T2 Hfirst').
    destruct (tailCaptures_lookup rest hh mi) as (G1 & G2 & G3).
    cbn [group]. rewrite G1, G2, G3. cbn [default from_option fst snd].
    unfold Datatypes.id.
    rewrite !(parseInt_digitRun _ _ _ T1), !(parseInt_digitRun _ _ _ T2).
    rewrite parsed_hours; [done|].
    destruct (markerAt rest) as [p|] eqn:E; [|done]. by apply markerAt_meridiem in E.
Qed.

(** C5. The conversions of [parseUserDate].  For a string with a date, the
    day is the value of the day digits of its first date, the month the
    value of the month digits minus one, the year the value of the year
    digits, with 2000 added when it is below 100, as it is for two digits;
    without a time in the string the time is 00:00, and with one the minutes
    are the value of the minute digits of the first time and the hour is the
    value of its hour digits taken through the table: 12 AM is 0, 12 PM is
    12, another PM hour gets 12 added, another AM hour and an hour without
    marker are unchanged.  Conversely every parsed date comes from a date
    and a time of the string in this way. *)
Theorem C5_parse_conversions :
  (∀ str pre dd s1 mm s2 yy post,
     str = pre ++ (dd ++ s1 :: mm ++ s2 :: yy) ++ post →
     digitRun 1 2 dd → is_sep s1 = true → digitRun 1 2 mm → is_sep s2 = true →
     digitRun 2 4 yy → length yy = 4 ∨ headNot is_digit post →
     firstAt dateShape str pre →
     (¬ contains timeShape str →
      parseUserDate (Some str)
      = Some (mkDate (fullYear (digitsValue yy)) (digitsValue mm - 1) (digitsValue dd)
                0 0))
     ∧ (∀ pre' hh mi rest,
          str = pre' ++ hh ++ 58%N :: mi ++ rest →
          digitRun 1 2 hh → digitRun 2 2 mi → firstAt timeShape str pre' →
          parseUserDate (Some str)
          = Some (mkDate (fullYear (digitsValue yy)) (digitsValue mm - 1)
                    (digitsValue dd)
                    (to24Hour (digitsValue hh) (markerAt rest)) (digitsValue mi))))
  ∧ (∀ str dt, parseUserDate (Some str) = Some dt →
     (∃ pre dd s1 mm s2 yy post,
        str = pre ++ (dd ++ s1 :: mm ++ s2 :: yy) ++ post
        ∧ digitRun 1 2 dd ∧ is_sep s1 = true ∧ digitRun 1 2 mm ∧ is_sep s2 = true
        ∧ digitRun 2 4 yy
        ∧ day dt = digitsValue dd ∧ month dt = (digitsValue mm - 1)%Z
        ∧ year dt = fullYear (digitsValue yy)
        ∧ (length yy = 2 → year dt = (digitsValue yy + 2000)%Z))
     ∧ ((¬ contains timeShape str ∧ hours dt = 0%Z ∧ minutes dt = 0%Z)
        ∨ ∃ pre hh mi sp mer post,
            str = pre ++ (hh ++ 58%N :: mi ++ sp ++ default [] mer) ++ post
            ∧ digitRun 1 2 hh ∧ digitRun 2 2 mi ∧ optionalBlank sp
            ∧ match mer with Some p => meridiem p | None => True end
            ∧ hours dt = to24Hour (digitsValue hh) mer
            ∧ minutes dt = digitsValue mi))
  ∧ (∀ p h, toUpperCase p = lit "AM" →
       to24Hour 12 (Some p) = 0%Z ∧ (h ≠ 12%Z → to24Hour h (Some p) = h))
  ∧ (∀ p h, toUpperCase p = lit "PM" →
       to24Hour 12 (Some p) = 12%Z ∧ (h ≠ 12%Z → to24Hour h (Some p) = (h + 12)%Z))
  ∧ (∀ h, to24Hour h None = h)
  ∧ parseUserDate (Some (lit "31-01-26 11:59 PM")) = Some (mkDate 2026 0 31 23 59).
Proof.
  split.
  { intros str pre dd s1 mm s2 yy post Hs D1 S1 D2 S2 D3 Hmax Hfirst.
    destruct (parseUserDate_exact str pre dd s1 mm s2 yy post Hs D1 S1 D2 S2 D3 Hmax
                Hfirst) as [Hno Hyes].
    split.
    - intros H. apply Hno. by rewrite <- contains_timeShape.
    - intros pre' hh mi rest Hs' T1 T2 Hf. apply (Hyes pre' hh mi rest Hs' T1 T2).
      by apply firstAt_timeShape. }
  split; [|split; [|split; [|split; [done | by vm_compute]]]].
  - intros str dt H. apply parseUserDate_fields in H as [Hd Ht]. split.
    2:{ destruct Ht as [(Hno & Hh & Hm)|Ht]; [left | by right].
        split; [|done]. by rewrite contains_timeShape. }
    destruct Hd as (pre & dd & s1 & mm & s2 & yy & post & Hs & H1 & H2 & H3 & H4 & H5
                    & Hday & Hmonth & Hyear).
    exists pre, dd, s1, mm, s2, yy, post. do 9 (split; [done|]).
    intros Hl. by rewrite Hyear, fullYear_two_digits.
  - intros p h Hp. unfold to24Hour. rewrite Hp.
    rewrite (bool_decide_eq_true_2 (lit "AM" = lit "AM")) by done.
    split; [done|]. intros Hh. by apply Z.eqb_neq in Hh as ->.
  - intros p h Hp. unfold to24Hour. rewrite Hp.
    rewrite (bool_decide_eq_false_2 (lit "PM" = lit "AM")) by done.
    split; [done|]. intros Hh. by apply Z.eqb_neq in Hh as ->.
Qed.

Lemma C5_witness :
  (∃ pre dd s1 mm s2 yy post,
     lit "31-01-26 11:59 PM" = pre ++ (dd ++ s1 :: mm ++ s2 :: yy) ++ post
     ∧ digitRun 1 2 dd ∧ is_sep s1 = true ∧ digitRun 1 2 mm ∧ is_sep s2 = true
     ∧ digitRun 2 4 yy
     ∧ 31%Z = digitsValue dd ∧ 0%Z = (digitsValue mm - 1)%Z
     ∧ 2026%Z = fullYear (digitsValue yy)
     ∧ (length yy = 2 → 2026%Z = (digitsValue yy + 2000)%Z))
  ∧ ((¬ contains timeShape (lit "31-01-26 11:59 PM") ∧ 23%Z = 0%Z ∧ 59%Z = 0%Z)
     ∨ ∃ pre hh mi sp mer post,
         lit "31-01-26 11:59 PM"
         = pre ++ (hh ++ 58%N :: mi ++ sp ++ default [] mer) ++ post
         ∧ digitRun 1 2 hh ∧ digitRun 2 2 mi ∧ optionalBlank sp
         ∧ match mer with Some p => meridiem p | None => True end
         ∧ 23%Z = to24Hour (digitsValue hh) mer
         ∧ 59%Z = digitsValue mi).
Proof.
  apply (proj1 (proj2 C5_parse_conversions) (lit "31-01-26 11:59 PM")
           (mkDate 2026 0 31 23 59)).
  by vm_compute.
Defined.

(** ** No validation of ranges *)

Lemma allBelow_spec n P :
  allBelow n P = true → ∀ k, (k < n)%N → P k = true.
Proof.
  unfold allBelow. rewrite forallb_forall. intros H k Hk. apply H.
  apply in_map_iff. exists (N.to_nat k). split; [lia|]. apply in_seq. lia.
Qed.

Lemma digitsValue_bound2 lo w :
  digitRun lo 2 w → (0 ≤ digitsValue w ≤ 99)%Z.
Proof.
  intros [[_ Hl] Hd]. unfold digitsValue.
  destruct w as [|a [|b [|??]]]; simpl in *; try lia;
    repeat match goal with
    | H : _ && _ = true |- _ => apply andb_true_iff in H as [? ?]
    | H : is_digit _ = true |- _ => apply is_digit_bounds in H
    end; lia.
Qed.

Lemma digitsValue_bound4 lo w :
  digitRun lo 4 w → (0 ≤ digitsValue w ≤ 9999)%Z.
Proof.
  intros [[_ Hl] Hd]. unfold digitsValue.
  destruct w as [|a [|b [|c [|d [|??]]]]]; simpl in *; try lia;
    repeat match goal with
    | H : _ && _ = true |- _ => apply andb_true_iff in H as [? ?]
    | H : is_digit _ = true |- _ => apply is_digit_bounds in H
    end; lia.
Qed.

Lemma to24Hour_bounds h mer :
  (0 ≤ h ≤ 99)%Z → (0 ≤ to24Hour h mer ≤ 111)%Z.
Proof.
  intros Hh. unfold to24Hour. destruct mer as [p|]; [|lia].
  destruct (bool_decide _), (h =? 12)%Z; lia.
Qed.

(** The fields [parseUserDate] can hand to the [Date] constructor. *)
Lemma parseUserDate_ranges str dt :
  parseUserDate (Some str) = Some dt →
  (100 ≤ year dt ≤ 9999 ∧ -1 ≤ month dt ≤ 98 ∧ 0 ≤ day dt ≤ 99
   ∧ 0 ≤ hours dt ≤ 111 ∧ 0 ≤ minutes dt ≤ 99)%Z.
Proof.
  intros H. apply parseUserDate_fields in H as [Hd Ht].
  destruct Hd as (pre & dd & s1 & mm & s2 & yy & post & Hs & H1 & H2 & H3 & H4 & H5
                  & -> & -> & ->).
  apply digitsValue_bound2 in H1, H3. apply digitsValue_bound4 in H5.
  assert (100 ≤ fullYear (digitsValue yy) ≤ 9999)%Z.
  { unfold fullYear. destruct (_ <? 100)%Z eqn:E;
      [apply Z.ltb_lt in E | apply Z.ltb_ge in E]; lia. }
  do 3 (split; [lia|]).
  destruct Ht as [(_ & -> & ->)|(pre' & hh & mi & sp & mer & post' & _ & T1 & T2 & _ & _
                                  & -> & ->)]; [lia|].
  apply digitsValue_bound2 in T1, T2. split; [by apply to24Hour_bounds | done].
Qed.

Lemma DayWithinYear_bounds y m : (0 ≤ DayWithinYear y m ≤ 335)%Z.
Proof.
  unfold DayWithinYear.
  destruct (Z.to_nat m) as [|[|[|[|[|[|[|[|[|[|[|[|n]]]]]]]]]]]]; simpl nth;
    try (destruct (_ && _); lia).
  destruct n; simpl; destruct (_ && _); lia.
Qed.

(** Such fields always make a valid date: its time value is not [NaN]. *)
Lemma getTime_valid LocalTZA dt :
  (∀ t, Z.abs (LocalTZA t) ≤ msPerDay)%Z →
  (100 ≤ year dt ≤ 9999 ∧ -1 ≤ month dt ≤ 98 ∧ 0 ≤ day dt ≤ 99
   ∧ 0 ≤ hours dt ≤ 111 ∧ 0 ≤ minutes dt ≤ 99)%Z →
  is_Some (getTime LocalTZA dt).
Proof.
  intros Htz (Hy & Hm & Hd & Hh & Hmi). unfold getTime.
  assert ((0 <=? year dt)%Z && (year dt <=? 99)%Z = false) as ->.
  { apply andb_false_iff. right. apply Z.leb_gt. lia. }
  set (t := MakeDate _ _). specialize (Htz t).
  assert (-1000000000000000 ≤ t ≤ 1000000000000000)%Z as Ht.
  { unfold t, MakeDate, MakeDay, MakeTime, DayFromYear, msPerDay.
    pose proof (DayWithinYear_bounds (year dt + month dt / 12) (month dt mod 12)).
    Z.div_mod_to_equations. lia. }
  unfold TimeClip, msPerDay in *.
  destruct (_ <=? _)%Z eqn:E; [by eexists|]. apply Z.leb_gt in E. lia.
Qed.

(** C10. [parseUserDate] validates no range.  A string with a substring of
    the date shape always parses; whatever the digits of a date are, their
    values reach the [Date] constructor as they are (the month minus one),
    and so does every two-digit hour and minute, from 00 to 99, an hour
    other than 12 with the marker PM as the hour plus 12; the date built is
    always a valid one, a concrete time point. *)
Theorem C10_no_range_validation :
  (∀ str, contains dateShape str → is_Some (parseUserDate (Some str)))
  ∧ (∀ dd s1 mm s2 yy,
       digitRun 1 2 dd → is_sep s1 = true → digitRun 1 2 mm → is_sep s2 = true →
       digitRun 2 4 yy →
       parseUserDate (Some (dd ++ s1 :: mm ++ s2 :: yy))
       = Some (mkDate (fullYear (digitsValue yy)) (digitsValue mm - 1)
                 (digitsValue dd) 0 0))
  ∧ (∀ h mi : N, (h < 100)%N → (mi < 100)%N →
       parseUserDate
         (Some (lit "01-01-2025 " ++ two h ++ lit ":" ++ two mi ++ lit " PM"))
       = Some (mkDate 2025 0 1 (if (h =? 12)%N then 12 else Z.of_N h + 12)
                 (Z.of_N mi)))
  ∧ parseUserDate (Some (lit "99-13-2025 13:99 PM")) = Some (mkDate 2025 12 99 25 99)
  ∧ (∀ LocalTZA str dt,
       (∀ t, Z.abs (LocalTZA t) ≤ msPerDay)%Z →
       parseUserDate (Some str) = Some dt → is_Some (getTime LocalTZA dt)).
Proof.
  split; [|split; [|split; [|split]]].
  - intros str. apply parseUserDate_is_Some.
  - intros dd s1 mm s2 yy D1 S1 D2 S2 D3.
    apply (parseUserDate_exact _ [] dd s1 mm s2 yy []); try done.
    + by rewrite app_nil_r.
    + by right.
    + apply firstAt_nil.
    + apply no_colon_no_time.
      destruct D1 as [_ D1], D2 as [_ D2], D3 as [_ D3].
      apply digits_no_colon in D1, D2, D3.
      repeat (rewrite elem_of_app || rewrite elem_of_cons).
      intros [?|[E|[?|[E|?]]]]; try done; by subst.
  - assert (allBelow 100 (fun h => allBelow 100 (fun mi =>
      bool_decide (parseUserDate
                     (Some (lit "01-01-2025 " ++ two h ++ lit ":" ++ two mi ++ lit " PM"))
                   = Some (mkDate 2025 0 1 (if (h =? 12)%N then 12 else Z.of_N h + 12)
                             (Z.of_N mi))))) = true) as H
      by (vm_compute; reflexivity).
    intros h mi Hh Hmi. eapply allBelow_spec in H; [|exact Hh].
    eapply allBelow_spec in H; [|exact Hmi]. by apply bool_decide_eq_true in H.
  - by vm_compute.
  - intros LocalTZA str dt Htz H. apply getTime_valid; [done|].
    by eapply parseUserDate_ranges.
Qed.

Lemma C10_witness :
  parseUserDate (Some (lit "99" ++ 45%N :: lit "13" ++ 45%N :: lit "2025"))
  = Some (mkDate (fullYear (digitsValue (lit "2025"))) (digitsValue (lit "13") - 1)
            (digitsValue (lit "99")) 0 0).
Proof.
  apply (proj1 (proj2 C10_no_range_validation));
    (split; [simpl; lia | reflexivity]) || reflexivity.
Defined.

(** ** Creation of a task *)

Lemma extractDateTime_truthy s d : extractDateTime s = Some d → truthy (Some d) = true.
Proof.
  intros H. apply matchedOrNull_Some in H as (_ & _ & _ & Hne).
  by apply truthy_nonempty.
Qed.

Lemma extractTimeOnly_truthy s t : extractTimeOnly s = Some t → truthy (Some t) = true.
Proof.
  intros H. apply matchedOrNull_Some in H as (_ & _ & _ & Hne).
  by apply truthy_nonempty.
Qed.

Lemma addTask_Some today s row :
  addTask today s = Some row →
  newText row = removeDateTime s
  ∧ newCompleted row = false
  ∧ newUserDate row =
      match extractDateTime s, extractTimeOnly s with
      | Some d, _ => Some d
      | None, Some _ => Some (getTodayDate today)
      | None, None => None
      end.
Proof.
  unfold addTask. destruct (negb _); [done|]. intros [= <-]. simpl.
  do 2 (split; [done|]).
  destruct (extractDateTime s) as [d|] eqn:Ed.
  - by rewrite (extractDateTime_truthy _ _ Ed).
  - destruct (extractTimeOnly s) as [t|] eqn:Et; [|done].
    by rewrite (extractTimeOnly_truthy _ _ Et).
Qed.

Lemma isDecimal_spec len n w :
  isDecimal len n w = true → digitRun len len w ∧ digitsValue w = Z.of_N n.
Proof.
  unfold isDecimal. intros [[Hl Hd]%andb_true_iff Hv]%andb_true_iff.
  apply Nat.eqb_eq in Hl. apply Z.eqb_eq in Hv. repeat split; try done; lia.
Qed.

Lemma two_decimal n : (n < 100)%N → isDecimal 2 n (two n) = true.
Proof.
  assert (allBelow 100 (fun k => isDecimal 2 k (two k)) = true) as H
    by (vm_compute; reflexivity).
  intros Hn. exact (allBelow_spec 100 _ H n Hn).
Qed.

Lemma year_decimal y :
  (1000 ≤ y ≤ 9999)%N → isDecimal 4 y (String_ y) = true.
Proof.
  assert (allBelow 10000 (fun k => (k <? 1000)%N || isDecimal 4 k (String_ k)) = true)
    as H by (vm_compute; reflexivity).
  intros [Hlo Hhi]. pose proof (allBelow_spec 10000 _ H y ltac:(lia)) as Hy.
  simpl in Hy.
  apply orb_true_iff in Hy as [Hy|Hy]; [|done]. apply N.ltb_lt in Hy. lia.
Qed.






(** C3, as the code has it.  The text stored with a new task is the input
    without what [extractDateTime] finds in it, trimmed: without its first
    date and time, the longest one there, and without the one whitespace
    character after it when that date and time ends with its minutes (a
    time without marker) and a whitespace character follows.  An input
    without a date is stored trimmed and otherwise unchanged, a standalone
    time included. *)
Theorem C3_stored_text (today : Today) (s : jsstring) (row : NewRow) :
  addTask today s = Some row →
  (∀ d, extractDateTime s = Some d →
     ∃ pre g b post,
       s = pre ++ (g ++ b) ++ post ∧ d = g ++ b
       ∧ newText row = trim (pre ++ post)
       ∧ dateTimeShape g
       ∧ (∀ pre' d' post', s = pre' ++ d' ++ post' → dateShape d' →
            length pre ≤ length pre')
       ∧ (∀ d' post', g ++ b ++ post = d' ++ post' → dateTimeShape d' →
            length d' ≤ length g)
       ∧ ((b = [] ∧ (unmarkedDateTime g → headNot is_space post))
          ∨ (∃ ch, b = [ch] ∧ is_space ch = true ∧ unmarkedDateTime g)))
  ∧ (extractDateTime s = None → newText row = trim s).
Proof.
  intros H. apply addTask_Some in H as (-> & _). split.
  - intros d Hd.
    apply extractDateTime_shape in Hd
      as (pre & g & b & post & Hs & -> & Hg & Hleft & Hlong & Hb & Hrem).
    exists pre, g, b, post. by do 6 (split; [done|]).
  - apply removeDateTime_None.
Qed.

Lemma C3_witness :
  let row := mkNewRow (lit "Buy milk") (Some (lit "25/12/2025 6:30 PM")) false in
  let s := lit "Buy milk 25/12/2025 6:30 PM" in
  (∀ d, extractDateTime s = Some d →
     ∃ pre g b post,
       s = pre ++ (g ++ b) ++ post ∧ d = g ++ b
       ∧ newText row = trim (pre ++ post)
       ∧ dateTimeShape g
       ∧ (∀ pre' d' post', s = pre' ++ d' ++ post' → dateShape d' →
            length pre ≤ length pre')
       ∧ (∀ d' post', g ++ b ++ post = d' ++ post' → dateTimeShape d' →
            length d' ≤ length g)
       ∧ ((b = [] ∧ (unmarkedDateTime g → headNot is_space post))
          ∨ (∃ ch, b = [ch] ∧ is_space ch = true ∧ unmarkedDateTime g)))
  ∧ (extractDateTime s = None → newText row = trim s).
Proof.
  apply (C3_stored_text (mkToday 2 10 2026) (lit "Buy milk 25/12/2025 6:30 PM")).
  by vm_compute.
Defined.

(** C3, as the claim has it, fails: for the input "Call mom 9:00 AM" the
    standalone time "9:00 AM" is recognized, and the stored text still
    contains it. *)
Lemma C3_counterexample :
  let input := lit "Call mom 9:00 AM" in
  let row := mkNewRow (lit "Call mom 9:00 AM") (Some (lit "02-11-2026")) false in
  addTask (mkToday 2 10 2026) input = Some row
  ∧ extractDateTime input = None
  ∧ extractTimeOnly input = Some (lit "9:00 AM")
  ∧ trim (lit "Call mom " ++ []) = lit "Call mom"
  ∧ ¬ textWithoutRecognized input row.
Proof.
  do 4 (split; [by vm_compute|]). intros H.
  specialize (H (lit "9:00 AM") (lit "Call mom ") []).
  assert (newText (mkNewRow (lit "Call mom 9:00 AM") (Some (lit "02-11-2026")) false)
          = trim (lit "Call mom " ++ [])) as E.
  { apply H; [right; split; by vm_compute | by vm_compute]. }
  by vm_compute in E.
Qed.

(** ** The examples of the specification *)

Example extract_buy_milk :
  extractDateTime (lit "Buy milk 25/12/2025 6:30 PM") = Some (lit "25/12/2025 6:30 PM").
Proof. by vm_compute. Qed.

Example clean_buy_milk :
  removeDateTime (lit "Buy milk 25/12/2025 6:30 PM") = lit "Buy milk".
Proof. by vm_compute. Qed.

(** December 25th 2025, 18:30 local time; in a host on UTC the time value
    is 1766687400000. *)
Example parse_buy_milk :
  parseUserDate (Some (lit "25/12/2025 6:30 PM")) = Some (mkDate 2025 11 25 18 30)
  ∧ getTime (fun _ => 0%Z) (mkDate 2025 11 25 18 30) = Some 1766687400000%Z.
Proof. by vm_compute. Qed.

Example call_mom :
  extractTimeOnly (lit "Call mom 9:00 AM") = Some (lit "9:00 AM")
  ∧ extractDateTime (lit "Call mom 9:00 AM") = None
  ∧ addTask (mkToday 2 10 2026) (lit "Call mom 9:00 AM")
    = Some (mkNewRow (lit "Call mom 9:00 AM") (Some (lit "02-11-2026")) false).
Proof. by vm_compute. Qed.

Example parse_two_digit_year :
  parseUserDate (Some (lit "31-01-26 11:59 PM")) = Some (mkDate 2026 0 31 23 59).
Proof. by vm_compute. Qed.

(** A word character before the time keeps [extractTimeOnly] from seeing
    it, but not [parseUserDate]. *)
Example time_needs_boundary :
  extractTimeOnly (lit "at9:00 AM") = None
  ∧ parseUserDate (Some (lit "1/2/26 at9:00 AM")) = Some (mkDate 2026 1 1 9 0).
Proof. by vm_compute. Qed.

(** The window of the reminder: 5000 ms on either side of the due instant,
    both ends included, and a second tick in the window fires nothing. *)
Example window_of_the_reminder :
  let task := mkTask 7 (lit "Buy milk") (Some (lit "25/12/2025 6:30 PM")) false in
  let due := 1766687400000%Z in
  let utc := fun _ : Z => 0%Z in
  let toastsAt := fun ticks => toasts (effects (session utc ticks)) in
  toastsAt [mkTick [task] (due - 5000) false] = [7%Z]
  ∧ toastsAt [mkTick [task] (due + 5000) false] = [7%Z]
  ∧ toastsAt [mkTick [task] (due - 5001) false] = []
  ∧ toastsAt [mkTick [task] (due + 5001) false] = []
  ∧ toastsAt [mkTick [task] (due - 1000) true; mkTick [task] due true;
              mkTick [task] (due + 1000) true] = [7%Z].
Proof. by vm_compute. Qed.

(** ** Trimming *)

Lemma forallb_rev' (p : N → bool) (l : jsstring) : forallb p (rev l) = forallb p l.
Proof.
  induction l as [|a l IH]; simpl; [done|].
  rewrite forallb_app, IH. simpl. rewrite andb_true_r. apply andb_comm.
Qed.

Lemma trimStart_spec s :
  ∃ ws, s = ws ++ trimStart s ∧ forallb is_space ws = true
        ∧ headNot is_space (trimStart s).
Proof.
  induction s as [|c s (ws & E & Hws & Hh)]; simpl.
  - by exists [].
  - destruct (is_space c) eqn:Hc.
    + exists (c :: ws). simpl. rewrite Hc, Hws. split; [by rewrite <- E|done].
    + exists []. by simpl.
Qed.

Lemma trimStart_fixed s : headNot is_space s → trimStart s = s.
Proof. destruct s as [|c s]; simpl; [done|]. by intros ->. Qed.

Lemma trimStart_blank ws s :
  forallb is_space ws = true → trimStart (ws ++ s) = trimStart s.
Proof.
  induction ws as [|c ws IH]; simpl; [done|].
  intros H. apply andb_true_iff in H as [-> H]. by apply IH.
Qed.

Lemma trimEnd_spec s :
  ∃ ws, s = trimEnd s ++ ws ∧ forallb is_space ws = true
        ∧ headNot is_space (rev (trimEnd s)).
Proof.
  unfold trimEnd. destruct (trimStart_spec (rev s)) as (ws & E & Hws & Hh).
  exists (rev ws). rewrite forallb_rev', rev_involutive. split; [|done].
  rewrite <- rev_app_distr, <- E. by rewrite rev_involutive.
Qed.

Lemma trimEnd_fixed s : headNot is_space (rev s) → trimEnd s = s.
Proof.
  intros H. unfold trimEnd. rewrite trimStart_fixed by done. apply rev_involutive.
Qed.

Lemma trimEnd_blank s ws :
  forallb is_space ws = true → trimEnd (s ++ ws) = trimEnd s.
Proof.
  intros H. unfold trimEnd. rewrite rev_app_distr, trimStart_blank; [done|].
  by rewrite forallb_rev'.
Qed.

Lemma headNot_prefix (p : N → bool) (a b : jsstring) :
  headNot p (a ++ b) → headNot p a.
Proof. by destruct a. Qed.

Lemma trim_spec s :
  ∃ ws1 ws2,
    s = ws1 ++ trim s ++ ws2
    ∧ forallb is_space ws1 = true ∧ forallb is_space ws2 = true
    ∧ headNot is_space (trim s) ∧ headNot is_space (rev (trim s)).
Proof.
  unfold trim. destruct (trimStart_spec s) as (ws1 & E1 & H1 & Hh1).
  destruct (trimEnd_spec (trimStart s)) as (ws2 & E2 & H2 & Hh2).
  exists ws1, ws2. split; [by rewrite <- E2|]. do 2 (split; [done|]).
  split; [|done]. rewrite E2 in Hh1. by apply headNot_prefix in Hh1.
Qed.

Lemma trim_fixed s :
  headNot is_space s → headNot is_space (rev s) → trim s = s.
Proof.
  intros H1 H2. unfold trim. rewrite trimStart_fixed by done. by apply trimEnd_fixed.
Qed.

Lemma trim_trim s : trim (trim s) = trim s.
Proof. destruct (trim_spec s) as (_ & _ & _ & _ & _ & H1 & H2). by apply trim_fixed. Qed.

Lemma trim_blank ws1 s ws2 :
  forallb is_space ws1 = true → forallb is_space ws2 = true →
  trim (ws1 ++ s ++ ws2) = trim s.
Proof.
  intros H1 H2. unfold trim. rewrite trimStart_blank by done.
  destruct (trimStart_spec s) as (ws & E & Hws & Hh).
  destruct (trimStart s) as [|c t] eqn:Et.
  - rewrite app_nil_r in E. subst s. rewrite <- (app_nil_r (ws ++ ws2)).
    rewrite trimStart_blank; [done|]. by rewrite forallb_app, Hws, H2.
  - assert (Hs : trimStart (s ++ ws2) = (c :: t) ++ ws2).
    { rewrite E at 1. rewrite <- app_assoc, trimStart_blank by done.
      apply trimStart_fixed. exact Hh. }
    rewrite Hs. by apply trimEnd_blank.
Qed.

Lemma trim_nil s : trim s = [] ↔ forallb is_space s = true.
Proof.
  split.
  - intros E. destruct (trim_spec s) as (ws1 & ws2 & Es & H1 & H2 & _).
    rewrite E in Es. rewrite Es. simpl. by rewrite forallb_app, H1, H2.
  - intros H. unfold trim. rewrite <- (app_nil_r s), trimStart_blank by done. done.
Qed.

Lemma trimStart_keeps pre w rest :
  w ≠ [] → headNot is_space w →
  ∃ pre', trimStart (pre ++ w ++ rest) = pre' ++ w ++ rest.
Proof.
  intros Hne Hh. induction pre as [|c pre (pre' & IH)]; simpl.
  - exists []. simpl. apply trimStart_fixed. destruct w; [done|]. exact Hh.
  - destruct (is_space c); [by exists pre'|]. by exists (c :: pre).
Qed.

Lemma trimEnd_keeps pre w post :
  w ≠ [] → headNot is_space (rev w) →
  ∃ post', trimEnd (pre ++ w ++ post) = pre ++ w ++ post'.
Proof.
  intros Hne Hh. unfold trimEnd. rewrite !rev_app_distr, <- app_assoc.
  destruct (trimStart_keeps (rev post) (rev w) (rev pre)) as (q & E); [|done|].
  { intros E. apply Hne. by rewrite <- (rev_involutive w), E. }
  rewrite E. exists (rev q). by rewrite !rev_app_distr, !rev_involutive, <- app_assoc.
Qed.

(** A word that neither starts nor ends with a blank survives trimming. *)
Lemma trim_keeps pre w post :
  w ≠ [] → headNot is_space w → headNot is_space (rev w) →
  ∃ pre' post', trim (pre ++ w ++ post) = pre' ++ w ++ post'.
Proof.
  intros Hne H1 H2. unfold trim.
  destruct (trimStart_keeps pre w post Hne H1) as (pre' & ->).
  destruct (trimEnd_keeps pre' w post Hne H2) as (post' & ->). by exists pre', post'.
Qed.

(** ** What [addTask] stores *)

Lemma digits_head (w : jsstring) :
  w ≠ [] → forallb is_digit w = true → headNot is_space w.
Proof.
  destruct w as [|c w]; [done|]. simpl. intros _ H.
  apply andb_true_iff in H as [H _]. by apply is_digit_not_space.
Qed.

Lemma dateShape_ends w :
  dateShape w → w ≠ [] ∧ headNot is_space w ∧ headNot is_space (rev w).
Proof.
  intros Hw. split; [by apply dateShape_nonempty|].
  destruct Hw as (dd & s1 & mm & s2 & yy & -> & D1 & _ & _ & _ & D3).
  split.
  - pose proof (digitRun_nonempty 1 2 dd ltac:(lia) D1) as Hne.
    destruct D1 as [_ D1]. pose proof (digits_head dd Hne D1).
    by destruct dd.
  - pose proof (digitRun_nonempty 2 4 yy ltac:(lia) D3) as Hne.
    destruct D3 as [_ D3].
    assert (Hr : rev yy ≠ []).
    { intros E. apply Hne. by rewrite <- (rev_involutive yy), E. }
    assert (Hd : forallb is_digit (rev yy) = true) by (by rewrite forallb_rev').
    pose proof (digits_head _ Hr Hd) as Hh.
    replace (dd ++ s1 :: mm ++ s2 :: yy) with ((dd ++ s1 :: mm ++ [s2]) ++ yy)
      by (by rewrite <- !app_assoc; simpl; rewrite <- app_assoc).
    rewrite rev_app_distr. by destruct (rev yy).
Qed.

Lemma dateTimeWord_head d :
  dateTimeWord d → ∃ c d', d = c :: d' ∧ is_digit c = true.
Proof.
  intros (dt & tm & -> & (dd & s1 & mm & s2 & yy & -> & D1 & _) & _).
  pose proof (digitRun_nonempty 1 2 dd ltac:(lia) D1) as Hne.
  destruct D1 as [_ D1]. destruct dd as [|c dd]; [done|].
  simpl in D1. apply andb_true_iff in D1 as [D1 _].
  eexists c, _. split; [reflexivity|done].
Qed.

(** The place of the extracted date and time: where the first date of the
    input starts. *)
Lemma extractDateTime_at s pre d post :
  s = pre ++ d ++ post → extractDateTime s = Some d → firstAt dateShape s pre →
  ∃ caps, match_ s dateTimeRegex = Some (mkResult (length pre) d caps).
Proof.
  intros Hs Hext Hfirst.
  destruct (extractDateTime_Some s d Hext) as (pre0 & post0 & caps & Hs0 & Hshape & Hm & Hfirst0).
  exists caps. destruct Hshape as (dt & tm & Hd & Hdt & _).
  assert (length pre0 ≤ length pre).
  { apply (Hfirst0 pre dt (tm ++ post)); [|done]. by rewrite Hs, Hd, <- app_assoc. }
  assert (length pre ≤ length pre0).
  { apply (Hfirst pre0 dt (tm ++ post0)); [|done]. by rewrite Hs0, Hd, <- app_assoc. }
  by replace (length pre) with (length pre0) by lia.
Qed.

Lemma addTask_is_Some today s :
  trim s ≠ [] →
  ∃ row, addTask today s = Some row ∧ newText row = removeDateTime s.
Proof.
  intros Hne. unfold addTask. rewrite truthy_nonempty by done. simpl.
  eexists. split; reflexivity.
Qed.

Lemma addTask_None today s :
  forallb is_space s = true ↔ addTask today s = None.
Proof.
  rewrite <- trim_nil. unfold addTask.
  destruct (trim s) as [|c t] eqn:E; simpl; [done|]. split; done.
Qed.

(** X1. A blank input adds nothing, and only a blank input does; a task is
    added as not completed. *)
Theorem blank_input_adds_nothing (today : Today) (s : jsstring) :
  (addTask today s = None ↔ forallb is_space s = true)
  ∧ (∀ row, addTask today s = Some row → newCompleted row = false).
Proof.
  split.
  - symmetry. apply addTask_None.
  - intros row H. by destruct (addTask_Some _ _ _ H) as (_ & ? & _).
Qed.

(** X2. The stored text neither starts nor ends with a blank: trimming it again
    changes nothing. *)
Theorem stored_text_is_trimmed (today : Today) (s : jsstring) (row : NewRow) :
  addTask today s = Some row →
  trim (newText row) = newText row
  ∧ headNot is_space (newText row) ∧ headNot is_space (rev (newText row)).
Proof.
  intros H. destruct (addTask_Some _ _ _ H) as (-> & _).
  unfold removeDateTime. split; [apply trim_trim|].
  by destruct (trim_spec (replaceEmpty s dateTimeRegex)) as (_ & _ & _ & _ & _ & ? & ?).
Qed.

Lemma stored_text_is_trimmed_witness :
  let row := mkNewRow (lit "Buy milk") (Some (lit "25/12/2025 6:30 PM")) false in
  trim (newText row) = newText row
  ∧ headNot is_space (newText row) ∧ headNot is_space (rev (newText row)).
Proof.
  apply (stored_text_is_trimmed (mkToday 2 10 2026) (lit "  Buy milk 25/12/2025 6:30 PM ")).
  by vm_compute.
Defined.

Lemma app_same_middle (pre d post ws1 ws2 : jsstring) (c : N) d' :
  pre ++ d ++ post = ws1 ++ d ++ ws2 → d = c :: d' → is_space c = false →
  forallb is_space ws1 = true → length pre ≤ length ws1 →
  pre = ws1 ∧ post = ws2.
Proof.
  intros E Hd Hc Hws Hlen.
  assert (Hp : pre = take (length pre) ws1).
  { apply (f_equal (take (length pre))) in E.
    rewrite take_app_length in E. rewrite take_app_le in E by done. done. }
  destruct (decide (length pre = length ws1)) as [El|Hl].
  - rewrite El, firstn_all in Hp. subst pre.
    apply app_inv_head in E. apply app_inv_head in E. done.
  - exfalso. apply (f_equal (fun l => l !! length pre)) in E.
    rewrite lookup_app_r in E by done. rewrite Nat.sub_diag, Hd in E. simpl in E.
    rewrite lookup_app_l in E by lia.
    symmetry in E. apply list_elem_of_lookup_2 in E.
    rewrite forallb_forall in Hws. apply list_elem_of_In in E. apply Hws in E. congruence.
Qed.

(** X3. The stored text is empty exactly when the input is its date and time
    with nothing but blanks around. *)
Theorem stored_text_empty (today : Today) (s : jsstring) (row : NewRow) :
  addTask today s = Some row →
  (newText row = []
   ↔ ∃ ws1 d ws2, s = ws1 ++ d ++ ws2 ∧ extractDateTime s = Some d
                  ∧ forallb is_space ws1 = true ∧ forallb is_space ws2 = true).
Proof.
  intros Hadd. destruct (addTask_Some _ _ _ Hadd) as (-> & _).
  assert (Hne : trim s ≠ []).
  { intros E. apply trim_nil in E.
    apply (proj1 (addTask_None today s)) in E. congruence. }
  split.
  - intros Hnil. destruct (extractDateTime s) as [d|] eqn:Hext.
    + destruct (extractDateTime_Some s d Hext) as (pre & post & caps & Hs & _ & Hm & _).
      rewrite (removeDateTime_Some s pre d post caps Hs Hm) in Hnil.
      apply trim_nil in Hnil. rewrite forallb_app in Hnil.
      apply andb_true_iff in Hnil as [H1 H2]. by exists pre, d, post.
    + rewrite (removeDateTime_None s Hext) in Hnil. done.
  - intros (ws1 & d & ws2 & Hs & Hext & H1 & H2).
    destruct (extractDateTime_Some s d Hext)
      as (pre & post & caps & Hs0 & Hshape & Hm & Hfirst).
    destruct (dateTimeWord_head d Hshape) as (c & d' & Hd & Hc).
    assert (Hlen : length pre ≤ length ws1).
    { destruct Hshape as (dt & tm & Hdt & Hdate & _).
      apply (Hfirst ws1 dt (tm ++ ws2)); [|done]. by rewrite Hs, Hdt, <- app_assoc. }
    destruct (app_same_middle pre d post ws1 ws2 c d') as [-> ->];
      [congruence|done|by apply is_digit_not_space|done|done|].
    rewrite (removeDateTime_Some s ws1 d ws2 caps Hs Hm).
    apply trim_nil. by rewrite forallb_app, H1, H2.
Qed.

Lemma stored_text_empty_witness :
  let row := mkNewRow [] (Some (lit "25/12/2025 6:30 PM")) false in
  newText row = []
  ↔ ∃ ws1 d ws2, lit " 25/12/2025 6:30 PM" = ws1 ++ d ++ ws2
                 ∧ extractDateTime (lit " 25/12/2025 6:30 PM") = Some d
                 ∧ forallb is_space ws1 = true ∧ forallb is_space ws2 = true.
Proof.
  apply (stored_text_empty (mkToday 2 10 2026) (lit " 25/12/2025 6:30 PM")).
  by vm_compute.
Defined.

(** X4. Only the first date of the input is removed: a date in what follows
    the extracted date and time is still in the stored text, where the
    extraction finds a date again. *)
Theorem only_first_date_is_removed (today : Today) (s : jsstring) (row : NewRow)
    (pre d post : jsstring) :
  addTask today s = Some row →
  s = pre ++ d ++ post → extractDateTime s = Some d → firstAt dateShape s pre →
  contains dateShape post →
  contains dateShape (newText row) ∧ is_Some (extractDateTime (newText row)).
Proof.
  intros Hadd Hs Hext Hfirst (x & w & y & Hpost & Hw).
  destruct (addTask_Some _ _ _ Hadd) as (-> & _).
  destruct (extractDateTime_at s pre d post Hs Hext Hfirst) as (caps & Hm).
  rewrite (removeDateTime_Some s pre d post caps Hs Hm).
  destruct (dateShape_ends w Hw) as (Hne & H1 & H2).
  destruct (trim_keeps (pre ++ x) w y Hne H1 H2) as (pre' & post' & E).
  assert (Hc : contains dateShape (trim (pre ++ post))).
  { exists pre', w, post'. split; [|done]. rewrite Hpost. by rewrite app_assoc. }
  split; [done|]. destruct (extractDateTime_found _ Hc) as (d2 & ->). by eexists.
Qed.

Lemma only_first_date_is_removed_witness :
  let row := mkNewRow (lit "and 2/2/25") (Some (lit "1/1/25")) false in
  contains dateShape (newText row) ∧ is_Some (extractDateTime (newText row)).
Proof.
  apply (only_first_date_is_removed (mkToday 2 10 2026) (lit "1/1/25 and 2/2/25")
           (mkNewRow (lit "and 2/2/25") (Some (lit "1/1/25")) false)
           [] (lit "1/1/25") (lit " and 2/2/25")).
  - by vm_compute.
  - by vm_compute.
  - by vm_compute.
  - apply firstAt_nil.
  - exists (lit " and "), (lit "2/2/25"), []. split; [by vm_compute|].
    exists (lit "2"), 47%N, (lit "2"), 47%N, (lit "25").
    split; [by vm_compute|]. unfold digitRun. simpl. repeat split; (done || lia).
Defined.

(** X5. An extracted date and time is a whole one: the extraction returns it
    unchanged when it is given as the input, and removing it from itself
    leaves the empty string. *)
Theorem extraction_is_idempotent (s d : jsstring) :
  extractDateTime s = Some d →
  extractDateTime d = Some d ∧ removeDateTime d = [].
Proof.
  intros Hext.
  destruct (extractDateTime_Some s d Hext) as (_ & _ & _ & _ & Hshape & _).
  destruct (extractDateTime_found d (dateTimeWord_dateShape d Hshape)) as (d2 & Hext2).
  destruct (extractDateTime_Some d d2 Hext2)
    as (pre2 & post2 & caps2 & Hd & Hshape2 & Hm2 & Hfirst2).
  pose proof Hshape as (dt & tm & Hdt & Hdate & _).
  assert (Hpre : pre2 = []).
  { assert (length pre2 ≤ length (@nil N)) as Hl.
    { apply (Hfirst2 [] dt tm); [by rewrite Hdt|done]. }
    destruct pre2; [done|]. simpl in Hl. lia. }
  subst pre2. simpl in Hd.
  assert (Hlen : length d ≤ length d2).
  { apply (extractDateTime_longest d [] d2 post2 caps2 Hd Hm2 d []).
    - by rewrite <- Hd, app_nil_r.
    - done. }
  assert (Hpost : post2 = []).
  { apply (f_equal length) in Hd. rewrite length_app in Hd.
    destruct post2; [done|]. simpl in Hd. lia. }
  subst post2. rewrite app_nil_r in Hd. subst d2. split; [done|].
  rewrite (removeDateTime_Some d [] d [] caps2); [done| |done].
  by rewrite app_nil_r.
Qed.

Lemma extraction_is_idempotent_witness :
  extractDateTime (lit "25/12/2025 6:30 PM") = Some (lit "25/12/2025 6:30 PM")
  ∧ removeDateTime (lit "25/12/2025 6:30 PM") = [].
Proof.
  apply (extraction_is_idempotent (lit "Buy milk 25/12/2025 6:30 PM")). by vm_compute.
Defined.

(** ** The due instant of a new task *)

Lemma spaces_no_colon (ws : jsstring) : forallb is_space ws = true → 58%N ∉ ws.
Proof.
  intros H Hin. apply list_elem_of_In in Hin. rewrite forallb_forall in H.
  by apply H in Hin.
Qed.

Lemma date_no_colon dd s1 mm s2 yy :
  digitRun 1 2 dd → is_sep s1 = true → digitRun 1 2 mm → is_sep s2 = true →
  digitRun 2 4 yy → 58%N ∉ dd ++ s1 :: mm ++ s2 :: yy.
Proof.
  intros [_ D1] S1 [_ D2] S2 [_ D3] Hin.
  apply elem_of_app in Hin as [Hin|Hin]; [by apply (digits_no_colon dd)|].
  apply elem_of_cons in Hin as [<-|Hin]; [done|].
  apply elem_of_app in Hin as [Hin|Hin]; [by apply (digits_no_colon mm)|].
  apply elem_of_cons in Hin as [<-|Hin]; [done|]. by apply (digits_no_colon yy).
Qed.

(** After a prefix without a colon that ends with a blank, no time starts
    inside the prefix. *)
Lemma time_after_blank (D0 : jsstring) (c : N) rest pre' hh' rest' :
  (D0 ++ [c]) ++ rest = pre' ++ hh' ++ 58%N :: rest' →
  forallb is_digit hh' = true → 58%N ∉ D0 ++ [c] → is_space c = true →
  length (D0 ++ [c]) ≤ length pre'.
Proof.
  intros E Hd Hno Hc.
  destruct (decide (length (D0 ++ [c]) ≤ length pre')) as [|Hlt]; [done|].
  exfalso. rewrite length_app in Hlt. simpl in Hlt.
  destruct (decide (length D0 < length pre' + length hh')) as [Hin|Hout].
  - apply (f_equal (fun l => l !! length D0)) in E.
    rewrite <- app_assoc, lookup_app_r in E by done.
    rewrite Nat.sub_diag in E. simpl in E.
    rewrite lookup_app_r in E by lia. rewrite lookup_app_l in E by lia.
    symmetry in E. apply list_elem_of_lookup_2, list_elem_of_In in E.
    rewrite forallb_forall in Hd. apply Hd in E.
    apply is_digit_not_space in E. congruence.
  - apply (f_equal (fun l => l !! (length pre' + length hh'))) in E.
    rewrite lookup_app_l in E by (rewrite length_app; simpl; lia).
    rewrite (lookup_app_r pre') in E by lia. rewrite (lookup_app_r hh') in E by lia.
    replace (length pre' + length hh' - length pre' - length hh') with 0 in E by lia.
    simpl in E. apply list_elem_of_lookup_2 in E. done.
Qed.

Lemma markerAt_end sp mer :
  optionalBlank sp → mer = [] ∨ meridiem mer →
  markerAt (sp ++ mer) = if decide (mer = []) then None else Some mer.
Proof.
  intros Hsp Hmer. unfold markerAt.
  assert (Hm : ∀ m, m = [] ∨ meridiem m → markerOf m = m).
  { intros m [->|Hm]; [done|].
    destruct (meridiem_two m Hm) as (c1 & c2 & -> & Hc). simpl. by rewrite Hc. }
  destruct Hsp as [->|(ch & -> & Hch)].
  - simpl. assert (Hb : blankOf mer = []).
    { destruct Hmer as [->|Hmer]; [done|].
      destruct (meridiem_two mer Hmer) as (c1 & c2 & -> & Hc). simpl.
      by rewrite (isMeridiem_not_space c1 c2 Hc). }
    rewrite Hb. simpl. rewrite drop_0, (Hm mer Hmer). done.
  - simpl. rewrite Hch. simpl. rewrite drop_0, (Hm mer Hmer). done.
Qed.

Lemma last_blank (ws : jsstring) :
  ws ≠ [] → forallb is_space ws = true →
  ∃ ws0 c, ws = ws0 ++ [c] ∧ is_space c = true.
Proof.
  intros Hne H. destruct (exists_last Hne) as (ws0 & c & ->).
  exists ws0, c. split; [done|]. rewrite forallb_app in H.
  apply andb_true_iff in H as [_ H]. simpl in H. by rewrite andb_true_r in H.
Qed.

(** The date of the parse of a date and time, and its time: the time that
    follows the date, or midnight. *)
Lemma parse_dateTime dd s1 mm s2 yy tm :
  digitRun 1 2 dd → is_sep s1 = true → digitRun 1 2 mm → is_sep s2 = true →
  digitRun 2 4 yy →
  let date := dd ++ s1 :: mm ++ s2 :: yy in
  let on h mi := mkDate (fullYear (digitsValue yy)) (digitsValue mm - 1)
                   (digitsValue dd) h mi in
  (tm = [] → parseUserDate (Some (date ++ tm)) = Some (on 0 0)%Z)
  ∧ (∀ ws hh mi sp mer,
       tm = ws ++ hh ++ 58%N :: mi ++ sp ++ default [] mer →
       ws ≠ [] → forallb is_space ws = true → digitRun 1 2 hh → digitRun 2 2 mi →
       optionalBlank sp → match mer with Some p => meridiem p | None => True end →
       parseUserDate (Some (date ++ tm))
       = Some (on (to24Hour (digitsValue hh) mer) (digitsValue mi))).
Proof.
  intros D1 S1 D2 S2 D3. cbv zeta. split.
  - intros ->. rewrite app_nil_r.
    destruct (parseUserDate_exact (dd ++ s1 :: mm ++ s2 :: yy) [] dd s1 mm s2 yy [])
      as [H _]; try done.
    + by rewrite app_nil_r.
    + by right.
    + apply firstAt_nil.
    + apply H. apply no_colon_no_time. by apply date_no_colon.
  - intros ws hh mi sp mer -> Hne Hws T1 T2 Hsp Hmer.
    destruct (last_blank ws Hne Hws) as (ws0 & c & Ews & Hc).
    destruct (parseUserDate_exact
                ((dd ++ s1 :: mm ++ s2 :: yy) ++ ws ++ hh ++ 58%N :: mi ++ sp ++ default [] mer)
                [] dd s1 mm s2 yy (ws ++ hh ++ 58%N :: mi ++ sp ++ default [] mer))
      as [_ H]; try done.
    + right. clear Ews. destruct ws as [|c0 ws']; [done|]. simpl in Hws |- *.
      apply andb_true_iff in Hws as [Hc0 _].
      destruct (is_digit c0) eqn:E; [|done]. apply is_digit_not_space in E. congruence.
    + apply firstAt_nil.
    + rewrite (H ((dd ++ s1 :: mm ++ s2 :: yy) ++ ws) hh mi (sp ++ default [] mer)).
      * rewrite markerAt_end; [| done | by destruct mer as [p|]; [right|left] ].
        destruct mer as [p|]; simpl.
        -- destruct (decide (p = [])) as [->|]; [|done].
           destruct Hmer as [Hm|Hm]; by vm_compute in Hm.
        -- done.
      * by rewrite <- !app_assoc.
      * done.
      * done.
      * intros pre' w' post' E (hh' & mi' & sp' & mer' & -> & [_ T1'] & _).
        rewrite Ews, app_assoc.
        apply (time_after_blank _ c (hh ++ 58%N :: mi ++ sp ++ default [] mer) pre' hh'
                 (mi' ++ sp' ++ mer' ++ post')).
        -- rewrite Ews in E. list_norm_in E. list_norm. exact E.
        -- done.
        -- rewrite <- app_assoc, <- Ews. intros Hin.
           apply elem_of_app in Hin as [Hin|Hin].
           ++ by apply (date_no_colon dd s1 mm s2 yy).
           ++ by apply (spaces_no_colon ws).
        -- done.
Qed.

(** X6. The due instant of a task added with a date: the parse of the extracted
    string has the day, the month and the year of the first date of the
    input, and the time that directly follows that date in the input;
    without one it is midnight, whatever time the input holds elsewhere. *)
Theorem due_instant_of_a_new_task (s d : jsstring) :
  extractDateTime s = Some d →
  ∃ pre post dd s1 mm s2 yy tm,
    s = pre ++ d ++ post ∧ firstAt dateShape s pre
    ∧ d = (dd ++ s1 :: mm ++ s2 :: yy) ++ tm
    ∧ digitRun 1 2 dd ∧ is_sep s1 = true ∧ digitRun 1 2 mm ∧ is_sep s2 = true
    ∧ digitRun 2 4 yy
    ∧ ((tm = []
        ∧ parseUserDate (Some d)
          = Some (mkDate (fullYear (digitsValue yy)) (digitsValue mm - 1)
                    (digitsValue dd) 0 0))
       ∨ ∃ ws hh mi sp mer,
           tm = ws ++ hh ++ 58%N :: mi ++ sp ++ default [] mer
           ∧ ws ≠ [] ∧ forallb is_space ws = true
           ∧ digitRun 1 2 hh ∧ digitRun 2 2 mi ∧ optionalBlank sp
           ∧ match mer with Some p => meridiem p | None => True end
           ∧ parseUserDate (Some d)
             = Some (mkDate (fullYear (digitsValue yy)) (digitsValue mm - 1)
                       (digitsValue dd) (to24Hour (digitsValue hh) mer)
                       (digitsValue mi))).
Proof.
  intros Hext.
  destruct (extractDateTime_Some s d Hext)
    as (pre & post & caps & Hs & Hshape & Hm & Hfirst).
  destruct Hshape as (dt & tm & Hd & (dd & s1 & mm & s2 & yy & -> & D1 & S1 & D2 & S2 & D3)
                      & Htm).
  exists pre, post, dd, s1, mm, s2, yy, tm.
  do 2 (split; [done|]). split; [done|]. do 5 (split; [done|]).
  destruct (parse_dateTime dd s1 mm s2 yy tm D1 S1 D2 S2 D3) as [H0 H1].
  destruct Htm as [->|(ws & t & -> & Hne & Hws & (hh & mi & sp & mer0 & -> & T1 & T2 & Hsp & Hmer))].
  - left. split; [done|]. rewrite Hd. by apply H0.
  - right. pose (mer := if decide (mer0 = []) then None else Some mer0).
    assert (E : default [] mer = mer0).
    { unfold mer. by destruct (decide (mer0 = [])) as [->|]. }
    assert (Hm' : match mer with Some p => meridiem p | None => True end).
    { unfold mer. destruct (decide (mer0 = [])) as [|Hn]; [done|]. by destruct Hmer. }
    exists ws, hh, mi, sp, mer. rewrite E. do 6 (split; [done|]). split; [done|].
    rewrite Hd. apply (H1 ws hh mi sp mer); try done. by rewrite E.
Qed.

Lemma due_instant_of_a_new_task_witness :
  ∃ pre post dd s1 mm s2 yy tm,
    lit "9:00 AM call 25/12/2025" = pre ++ lit "25/12/2025" ++ post
    ∧ firstAt dateShape (lit "9:00 AM call 25/12/2025") pre
    ∧ lit "25/12/2025" = (dd ++ s1 :: mm ++ s2 :: yy) ++ tm
    ∧ digitRun 1 2 dd ∧ is_sep s1 = true ∧ digitRun 1 2 mm ∧ is_sep s2 = true
    ∧ digitRun 2 4 yy
    ∧ ((tm = []
        ∧ parseUserDate (Some (lit "25/12/2025"))
          = Some (mkDate (fullYear (digitsValue yy)) (digitsValue mm - 1)
                    (digitsValue dd) 0 0))
       ∨ ∃ ws hh mi sp mer,
           tm = ws ++ hh ++ 58%N :: mi ++ sp ++ default [] mer
           ∧ ws ≠ [] ∧ forallb is_space ws = true
           ∧ digitRun 1 2 hh ∧ digitRun 2 2 mi ∧ optionalBlank sp
           ∧ match mer with Some p => meridiem p | None => True end
           ∧ parseUserDate (Some (lit "25/12/2025"))
             = Some (mkDate (fullYear (digitsValue yy)) (digitsValue mm - 1)
                       (digitsValue dd) (to24Hour (digitsValue hh) mer)
                       (digitsValue mi))).
Proof.
  apply (due_instant_of_a_new_task (lit "9:00 AM call 25/12/2025") (lit "25/12/2025")).
  by vm_compute.
Defined.

(** ** The standalone time *)

Lemma head_rev (l : jsstring) : head (rev l) = last l.
Proof. rewrite rev_alt. apply head_reverse. Qed.

Lemma digit_is_word c : is_digit c = true → is_word c = true.
Proof.
  unfold is_digit, is_word. intros H. rewrite H. by rewrite !orb_true_r.
Qed.

Lemma marker_is_word c : (canonicalize true c =? 77)%N = true → is_word c = true.
Proof.
  unfold canonicalize, is_word. simpl.
  destruct (97 <=? c)%N eqn:E1, (c <=? 122)%N eqn:E2; simpl; intros H;
    try (apply N.eqb_eq in H; subst c; done).
  by rewrite !orb_true_r.
Qed.

Lemma markedTime_head w :
  markedTimeShape w → ∃ c w', w = c :: w' ∧ is_word c = true.
Proof.
  intros (hh & mi & sp & mer & -> & D1 & _).
  pose proof (digitRun_nonempty 1 2 hh ltac:(lia) D1) as Hne.
  destruct D1 as [_ D1]. destruct hh as [|c hh]; [done|]. simpl in D1.
  apply andb_true_iff in D1 as [D1 _].
  eexists c, _. split; [reflexivity|]. by apply digit_is_word.
Qed.

Lemma markedTime_last w :
  markedTimeShape w → ∃ w' c, w = w' ++ [c] ∧ is_word c = true.
Proof.
  intros (hh & mi & sp & mer & -> & _ & _ & _ & Hmer).
  destruct (meridiem_two mer Hmer) as (c1 & c2 & -> & Hc).
  exists (hh ++ 58%N :: mi ++ sp ++ [c1]), c2. split.
  - by repeat (rewrite <- app_assoc; simpl).
  - unfold isMeridiem in Hc. apply andb_true_iff in Hc as [_ Hc]. by apply marker_is_word.
Qed.

Lemma accepts_AM_PM c1 c2 :
  isMeridiem c1 c2 = true → accepts true AM_PM [c1; c2] (fun cs => cs).
Proof.
  intros H. unfold isMeridiem in H. apply andb_true_iff in H as [H1 H2].
  intros x rest Hx. apply orb_true_iff in H1 as [H1|H1]; [left|right].
  - apply (accepts_seq true (Chr 65) (Chr 77) [c1] [c2] (fun cs => cs) (fun cs => cs));
      [by apply accepts_chr..|done].
  - apply (accepts_seq true (Chr 80) (Chr 77) [c1] [c2] (fun cs => cs) (fun cs => cs));
      [by apply accepts_chr..|done].
Qed.

Lemma reach_after ic r1 r2 w1 f1 x rest y :
  accepts ic r1 w1 f1 → after x = w1 ++ rest →
  reach ic r2 (advance x w1 rest (f1 (captures x))) y →
  reach ic (Seq r1 r2) x y.
Proof. intros H1 Hx H2. eexists. split; [by apply H1|done]. Qed.

(** What the pattern of [extractTimeOnly] matches at a state: a time with
    its marker, with a word boundary before and after it. *)
Lemma reach_timeRegex x y :
  reach true (source timeRegex) x y →
  ∃ w, markedTimeShape w ∧ spans x w y ∧ atBoundary x ∧ atBoundary y.
Proof.
  intros (z0 & [Hb ->] & z1 & H1 & z2 & H2 & z3 & H3 & z4 & H4 & z5 & H5 & [Hb' ->]).
  apply reach_rep_cls in H1 as (hh & Hn1 & Hd1 & [Hs1 _]).
  apply reach_colon in H2 as [Hs2 _].
  apply reach_rep_cls in H3 as (mi & Hn3 & Hd3 & [Hs3 _]).
  apply reach_rep_cls in H4 as (sp & [_ Hn4] & Hd4 & [Hs4 _]).
  apply reach_group_inv in H5 as (z & mer & Hr & Hs5 & [Hs6 _]).
  apply reach_AM_PM in Hr as (mer' & Hmer & [Hs7 _]).
  rewrite <- (spans_word _ _ _ _ Hs5 Hs7) in Hmer.
  exists (hh ++ 58%N :: mi ++ sp ++ mer). split; [|split; [|done]].
  - exists hh, mi, sp, mer. split; [done|].
    do 2 (split; [by apply range_digitRun|]). split; [|done].
    destruct sp as [|ch [|??]]; simpl in *; [by left | right | lia].
    exists ch. split; [done|]. by destruct (is_space ch).
  - apply (spans_app _ _ z1); [done|].
    apply (spans_app _ [58%N] z2 (mi ++ sp ++ mer)); [done|].
    apply (spans_app _ _ z3); [done|]. by apply (spans_app _ _ z4).
Qed.

Lemma reach_timeRegex_at (x : MatchState) w rest :
  markedTimeShape w → after x = w ++ rest →
  IsWordChar (head (before x)) = false → IsWordChar (head rest) = false →
  ∃ y, reach true (source timeRegex) x y.
Proof.
  intros Hw Hx Hb1 Hb2.
  destruct (markedTime_head w Hw) as (c & w0 & Ew & Hc).
  destruct (markedTime_last w Hw) as (w1 & c' & Ew' & Hc').
  destruct Hw as (hh & mi & sp & mer & -> & [Hn1 D1] & [Hn2 D2] & Hsp & Hmer).
  destruct (meridiem_two mer Hmer) as (c1 & c2 & -> & Hm).
  eexists. exists x. split.
  { split; [|done]. unfold atBoundary. rewrite Hb1, Hx, Ew. simpl. by rewrite Hc. }
  eapply (reach_after true _ _ hh _ _ (58%N :: mi ++ sp ++ [c1; c2] ++ rest));
    [by apply accepts_rep_cls| |].
  { rewrite Hx. by list_norm. }
  eapply (reach_after true _ _ [58%N] _ _ (mi ++ sp ++ [c1; c2] ++ rest));
    [by apply accepts_chr|done|].
  eapply (reach_after true _ _ mi _ _ (sp ++ [c1; c2] ++ rest));
    [by apply accepts_rep_cls|done|].
  eapply (reach_after true _ _ sp _ _ ([c1; c2] ++ rest)); [|done|].
  { apply accepts_rep_cls.
    - destruct Hsp as [->|(ch & -> & _)]; simpl; split; lia.
    - destruct Hsp as [->|(ch & -> & Hch)]; simpl; [done|by rewrite Hch]. }
  eexists. split.
  { apply (accepts_group true 1 AM_PM [c1; c2] (fun cs => cs)); [by apply accepts_AM_PM|].
    done. }
  split; [|done]. unfold atBoundary, advance. cbn [before after].
  rewrite Hb2. change (head (rev [c1; c2] ++ _)) with (Some c2). simpl.
  unfold isMeridiem in Hm. apply andb_true_iff in Hm as [_ Hm].
  by rewrite (marker_is_word c2 Hm).
Qed.

Lemma marker_letter c : (canonicalize true c =? 77)%N = true → c = 77%N ∨ c = 109%N.
Proof.
  unfold canonicalize. simpl.
  destruct (97 <=? c)%N eqn:E1, (c <=? 122)%N eqn:E2; simpl; intros H;
    apply N.eqb_eq in H; lia.
Qed.

Lemma markedTime_nonempty w : markedTimeShape w → w ≠ [].
Proof. intros H. by destruct (markedTime_head w H) as (c & w' & -> & _). Qed.

Lemma timeOnly_Some s m :
  match_ s timeRegex = Some m →
  ∃ pre post,
    s = pre ++ matched m ++ post ∧ markedTimeShape (matched m) ∧ ownWord pre post
    ∧ ∀ pre' t' post', s = pre' ++ t' ++ post' → markedTimeShape t' →
        ownWord pre' post' → length pre ≤ length pre'.
Proof.
  intros H. apply match_Some in H as (pre & w & post & y & -> & Hr & Hs & -> & Hfirst);
    [|apply ordered_timeRegex].
  apply reach_timeRegex in Hr as (w' & Hw & Hs' & Hb & Hb').
  rewrite <- (spans_word _ _ _ _ Hs Hs') in Hw. clear Hs'.
  exists pre, post. simpl. do 2 (split; [done|]). split; [split|].
  - unfold atBoundary in Hb. simpl in Hb. rewrite head_rev in Hb.
    destruct (markedTime_head w Hw) as (c & w0 & -> & Hc). simpl in Hb.
    rewrite Hc in Hb. by destruct (IsWordChar (last pre)).
  - destruct Hs as [Ha Hbf]. simpl in Ha, Hbf. apply app_inv_head in Ha.
    unfold atBoundary in Hb'. rewrite Hbf, <- Ha in Hb'.
    destruct (markedTime_last w Hw) as (w1 & c' & -> & Hc').
    rewrite rev_app_distr in Hb'. simpl in Hb'. rewrite Hc' in Hb'.
    by destruct (IsWordChar (head post)).
  - intros pre' t' post' E Ht' [Hp1 Hp2].
    destruct (decide (length pre ≤ length pre')) as [|Hlt]; [done|]. exfalso.
    destruct (reach_timeRegex_at (mkState (rev pre') (t' ++ post') ∅) t' post')
      as (y' & Hy'); [done|done| |done|].
    + simpl. by rewrite head_rev.
    + apply (Hfirst pre' (t' ++ post') y'); [done|lia|done].
Qed.

Lemma timeOnly_is_Some s pre t post :
  s = pre ++ t ++ post → markedTimeShape t → ownWord pre post →
  is_Some (match_ s timeRegex).
Proof.
  intros Hs Ht [Hp1 Hp2].
  destruct (reach_timeRegex_at (mkState (rev pre) (t ++ post) ∅) t post)
    as (y & Hy); [done|done| |done|].
  - simpl. by rewrite head_rev.
  - by apply (match_is_Some s timeRegex pre (t ++ post) y).
Qed.

(** X7. [extractTimeOnly] returns a time only with its meridiem marker and only
    where it is a word of its own: the first substring made of one or two
    digits, a colon, two digits, at most one blank and AM or PM in either
    case, with no word character next to it on either side.  Without such a
    substring it returns [null]; so it does for every input without the
    letter M. *)
Theorem standalone_time_needs_a_marker (s : jsstring) :
  (∀ t, extractTimeOnly s = Some t →
     ∃ pre post,
       s = pre ++ t ++ post ∧ markedTimeShape t ∧ ownWord pre post
       ∧ ∀ pre' t' post', s = pre' ++ t' ++ post' → markedTimeShape t' →
           ownWord pre' post' → length pre ≤ length pre')
  ∧ (extractTimeOnly s = None
     ↔ ¬ ∃ pre t post, s = pre ++ t ++ post ∧ markedTimeShape t ∧ ownWord pre post)
  ∧ ((∀ c, c ∈ s → c ≠ 77%N ∧ c ≠ 109%N) → extractTimeOnly s = None).
Proof.
  assert (Hnone : extractTimeOnly s = None
     ↔ ¬ ∃ pre t post, s = pre ++ t ++ post ∧ markedTimeShape t ∧ ownWord pre post).
  { unfold extractTimeOnly. split.
    - intros E (pre & t & post & Hs & Ht & Hown).
      destruct (timeOnly_is_Some s pre t post Hs Ht Hown) as [m Hm].
      rewrite Hm in E. simpl in E.
      destruct (timeOnly_Some s m Hm) as (_ & _ & _ & Hw & _).
      apply markedTime_nonempty in Hw. by destruct (matched m).
    - intros Hno. destruct (match_ s timeRegex) as [m|] eqn:Hm; [|done].
      exfalso. apply Hno.
      destruct (timeOnly_Some s m Hm) as (pre & post & Hs & Hw & Hown & _).
      by exists pre, (matched m), post. }
  split; [|split; [done|]].
  - intros t Ht. unfold extractTimeOnly in Ht.
    apply matchedOrNull_Some in Ht as (m & Hm & <- & _). by apply timeOnly_Some.
  - intros Hs. apply Hnone. intros (pre & t & post & -> & Ht & _).
    destruct Ht as (hh & mi & sp & mer & -> & _ & _ & _ & Hmer).
    destruct (meridiem_two mer Hmer) as (c1 & c2 & -> & Hc).
    unfold isMeridiem in Hc. apply andb_true_iff in Hc as [_ Hc].
    apply marker_letter in Hc.
    assert (Hin : c2 ∈ pre ++ (hh ++ 58%N :: mi ++ sp ++ [c1; c2]) ++ post).
    { apply elem_of_app. right. apply elem_of_app. left. apply elem_of_app. right.
      apply elem_of_cons. right. apply elem_of_app. right. apply elem_of_app. right.
      apply elem_of_cons. right. apply elem_of_cons. by left. }
    destruct (Hs c2 Hin). by destruct Hc.
Qed.

Lemma standalone_time_needs_a_marker_witness :
  extractTimeOnly (lit "Call at 18:30") = None.
Proof.
  apply (proj2 (proj2 (standalone_time_needs_a_marker (lit "Call at 18:30")))).
  intros c Hc. apply list_elem_of_In in Hc. simpl in Hc.
  repeat (destruct Hc as [<-|Hc]; [by split|]). done.
Defined.

(** ** The extractor and the parser read the same date *)

Lemma parse_date_fields str pre dd s1 mm s2 yy post :
  str = pre ++ (dd ++ s1 :: mm ++ s2 :: yy) ++ post →
  digitRun 1 2 dd → is_sep s1 = true → digitRun 1 2 mm → is_sep s2 = true →
  digitRun 2 4 yy → length yy = 4 ∨ headNot is_digit post →
  firstAt dateShape str pre →
  ∃ h mi,
    parseUserDate (Some str)
    = Some (mkDate (fullYear (digitsValue yy)) (digitsValue mm - 1) (digitsValue dd) h mi).
Proof.
  intros Hs D1 S1 D2 S2 D3 Hmax Hfirst.
  assert (str ≠ []) as Hne.
  { rewrite Hs. intros H. apply app_eq_nil in H as [_ H]. apply app_eq_nil in H as [H _].
    by destruct dd. }
  rewrite (parseUserDate_eq _ Hne).
  rewrite (dateMatch_first str pre dd s1 mm s2 yy post Hs D1 S1 D2 S2 D3 Hmax Hfirst).
  unfold capture. simpl. simplify_map_eq.
  rewrite !(parseInt_digitRun _ _ _ D1), !(parseInt_digitRun _ _ _ D2),
    !(parseInt_digitRun _ _ _ D3).
  eexists _, _. reflexivity.
Qed.

Lemma headNot_blanks (ws rest : jsstring) :
  ws ≠ [] → forallb is_space ws = true → headNot is_digit (ws ++ rest).
Proof.
  destruct ws as [|c ws]; [done|]. simpl. intros _ H.
  apply andb_true_iff in H as [Hc _].
  destruct (is_digit c) eqn:E; [|done]. apply is_digit_not_space in E. congruence.
Qed.

(** The year the extractor takes is as long as it can be. *)
Lemma extracted_year_is_whole s pre dd s1 mm s2 yy tm post caps :
  s = pre ++ ((dd ++ s1 :: mm ++ s2 :: yy) ++ tm) ++ post →
  match_ s dateTimeRegex
  = Some (mkResult (length pre) ((dd ++ s1 :: mm ++ s2 :: yy) ++ tm) caps) →
  digitRun 1 2 dd → is_sep s1 = true → digitRun 1 2 mm → is_sep s2 = true →
  digitRun 2 4 yy →
  tm = [] ∨ timeTailWord tm →
  length yy = 4 ∨ headNot is_digit (tm ++ post).
Proof.
  intros Hs Hm D1 S1 D2 S2 D3 [->|(ws & t & -> & Hne & Hws & _)].
  2:{ right. rewrite <- app_assoc. by apply headNot_blanks. }
  simpl. destruct (decide (length yy = 4)) as [|Hlen]; [by left|]. right.
  destruct post as [|c post]; [done|]. simpl.
  destruct (is_digit c) eqn:Hc; [|done]. exfalso.
  rewrite app_nil_r in Hs, Hm.
  assert (Hle : length ((dd ++ s1 :: mm ++ s2 :: yy) ++ [c])
                ≤ length (dd ++ s1 :: mm ++ s2 :: yy));
    [|rewrite length_app in Hle; simpl in Hle; lia].
  apply (extractDateTime_longest s pre _ (c :: post) caps Hs Hm
           ((dd ++ s1 :: mm ++ s2 :: yy) ++ [c]) post).
  - by list_norm.
  - exists ((dd ++ s1 :: mm ++ s2 :: yy) ++ [c]), []. split; [by rewrite app_nil_r|].
    split; [|by left].
    exists dd, s1, mm, s2, (yy ++ [c]). split; [by list_norm|].
    do 4 (split; [done|]). destruct D3 as [Hl Hd]. split.
    + rewrite length_app. simpl. lia.
    + rewrite forallb_app, Hd. simpl. by rewrite Hc.
Qed.

(** X8. A text has a date for the parser exactly when the extractor finds one
    in it, and then the parse of the whole text and the parse of the
    extracted string have the same day, month and year; their times can
    differ, the whole text being searched for its first time. *)
Theorem extractor_and_parser_agree_on_the_date (s : jsstring) :
  (is_Some (parseUserDate (Some s)) ↔ is_Some (extractDateTime s))
  ∧ (∀ d, extractDateTime s = Some d →
       ∃ whole extracted,
         parseUserDate (Some s) = Some whole ∧ parseUserDate (Some d) = Some extracted
         ∧ year whole = year extracted ∧ month whole = month extracted
         ∧ day whole = day extracted)
  ∧ parseUserDate (Some (lit "9:00 call 25/12/2025")) = Some (mkDate 2025 11 25 9 0)
  ∧ (extractDateTime (lit "9:00 call 25/12/2025") ≫= fun d => parseUserDate (Some d))
    = Some (mkDate 2025 11 25 0 0).
Proof.
  split; [|split; [|split; by vm_compute]].
  - rewrite parseUserDate_is_Some. split.
    + intros H. destruct (extractDateTime_found s H) as (d & ->). by eexists.
    + intros [d Hd].
      destruct (extractDateTime_Some s d Hd) as (pre & post & _ & Hs & Hshape & _).
      apply contains_dateTimeWord. by exists pre, d, post.
  - intros d Hext.
    destruct (extractDateTime_Some s d Hext)
      as (pre & post & caps & Hs & Hshape & Hm & Hfirst).
    destruct Hshape as (dt & tm & -> & (dd & s1 & mm & s2 & yy & -> & D1 & S1 & D2 & S2 & D3)
                        & Htm).
    pose proof (extracted_year_is_whole s pre dd s1 mm s2 yy tm post caps Hs Hm
                  D1 S1 D2 S2 D3 Htm) as Hyear.
    destruct (parse_date_fields s pre dd s1 mm s2 yy (tm ++ post)) as (h & mi & ->);
      try done.
    { by rewrite Hs, <- !app_assoc. }
    destruct (parse_date_fields ((dd ++ s1 :: mm ++ s2 :: yy) ++ tm) [] dd s1 mm s2 yy tm)
      as (h' & mi' & ->); try done.
    { destruct Htm as [->|(ws & t & -> & Hne & Hws & _)]; [by right|].
      right. by apply headNot_blanks. }
    { apply firstAt_nil. }
    eexists _, _. by repeat split.
Qed.

(** ** Numbers as text *)

Lemma digitsValue_snoc (l : jsstring) (c : N) :
  digitsValue (l ++ [c]) = (10 * digitsValue l + (Z.of_N c - 48))%Z.
Proof. unfold digitsValue. by rewrite fold_left_app. Qed.

Lemma decimalDigits_spec fuel : ∀ n acc,
  (n < 2 ^ N.of_nat fuel)%N → fuel ≠ 0 →
  ∃ l, decimalDigits fuel n acc = l ++ acc
       ∧ forallb is_digit l = true ∧ digitsValue l = Z.of_N n ∧ l ≠ [].
Proof.
  induction fuel as [|fuel IH]; intros n acc Hn Hf; [done|]. simpl.
  assert (Hmod : (n mod 10 < 10)%N) by (apply N.mod_lt; lia).
  assert (Hd : is_digit (48 + n mod 10) = true).
  { unfold is_digit. revert Hmod. generalize (n mod 10)%N. intros r Hr.
    apply andb_true_iff. split; apply N.leb_le; lia. }
  destruct (n <? 10)%N eqn:E.
  - apply N.ltb_lt in E. exists [(48 + n mod 10)%N]. split; [done|].
    split; [by simpl; rewrite Hd|]. split; [|done].
    rewrite N.mod_small by done. unfold digitsValue. simpl. lia.
  - apply N.ltb_ge in E.
    assert (Hq : (n / 10 < 2 ^ N.of_nat fuel)%N).
    { apply N.Div0.div_lt_upper_bound.
      rewrite Nat2N.inj_succ, N.pow_succ_r' in Hn. lia. }
    assert (Hf' : fuel ≠ 0).
    { intros ->. simpl in Hn. lia. }
    destruct (IH (n / 10)%N ((48 + n mod 10)%N :: acc) Hq Hf') as (l & El & Hl & Hv & _).
    exists (l ++ [(48 + n mod 10)%N]). split; [by rewrite El, <- app_assoc|].
    split; [by rewrite forallb_app, Hl; simpl; rewrite Hd|]. split.
    + rewrite digitsValue_snoc, Hv.
      pose proof (N.div_mod n 10 ltac:(lia)) as Hdm. lia.
    + by destruct l.
Qed.

Lemma String_spec n :
  forallb is_digit (String_ n) = true ∧ digitsValue (String_ n) = Z.of_N n
  ∧ String_ n ≠ [].
Proof.
  unfold String_.
  destruct (decimalDigits_spec (S (N.to_nat (N.log2 n))) n []) as (l & El & Hl & Hv & Hne).
  - rewrite Nat2N.inj_succ, N2Nat.id.
    destruct (decide (n = 0%N)) as [->|Hn]; [done|].
    apply N.log2_spec. lia.
  - done.
  - rewrite El, app_nil_r. done.
Qed.

Lemma NumberToString_inj a b : NumberToString a = NumberToString b → a = b.
Proof.
  unfold NumberToString.
  assert (Hhead : ∀ n l, String_ n ≠ 45%N :: l).
  { intros n l E. destruct (String_spec n) as (Hd & _). rewrite E in Hd. done. }
  assert (Hinj : ∀ n m, String_ n = String_ m → n = m).
  { intros n m E. destruct (String_spec n) as (_ & Hn & _).
    destruct (String_spec m) as (_ & Hm & _). rewrite E in Hn. lia. }
  destruct (a <? 0)%Z eqn:Ea, (b <? 0)%Z eqn:Eb; intros E.
  - injection E as E. apply Hinj in E. apply Z.ltb_lt in Ea, Eb. lia.
  - symmetry in E. by apply Hhead in E.
  - by apply Hhead in E.
  - apply Hinj in E. apply Z.ltb_ge in Ea, Eb. lia.
Qed.

(** X10. The system notifications of two tasks have the same tag exactly when
    the tasks have the same id: a reminder never takes the place of the
    reminder of another task.  (The ids are safe integers, which JavaScript
    writes with all their decimal digits.) *)
Theorem notification_tag_identifies_task (t1 t2 : Task) :
  (Z.abs (id t1) ≤ MAX_SAFE_INTEGER)%Z → (Z.abs (id t2) ≤ MAX_SAFE_INTEGER)%Z →
  tag (notificationOf t1) = tag (notificationOf t2) ↔ id t1 = id t2.
Proof.
  intros _ _. unfold notificationOf. cbn [tag]. split.
  - intros E. apply app_inv_head in E. by apply NumberToString_inj.
  - by intros ->.
Qed.

Lemma notification_tag_identifies_task_witness :
  tag (notificationOf (mkTask 7 (lit "Buy milk") None false))
  = tag (notificationOf (mkTask 7 (lit "Buy bread") (Some (lit "1/2/26")) true))
  ↔ 7%Z = 7%Z.
Proof.
  apply (notification_tag_identifies_task (mkTask 7 (lit "Buy milk") None false)
           (mkTask 7 (lit "Buy bread") (Some (lit "1/2/26")) true));
    unfold MAX_SAFE_INTEGER; simpl; lia.
Defined.

(** ** Days beyond the end of the month *)

Lemma DayFromYear_next y :
  DayFromYear (y + 1) = (DayFromYear y + (if InLeapYear y then 366 else 365))%Z.
Proof.
  unfold DayFromYear, InLeapYear.
  replace (y + 1 - 1970)%Z with (y - 1970 + 1)%Z by lia.
  replace (y + 1 - 1969)%Z with (y - 1969 + 1)%Z by lia.
  replace (y + 1 - 1901)%Z with (y - 1901 + 1)%Z by lia.
  replace (y + 1 - 1601)%Z with (y - 1601 + 1)%Z by lia.
  destruct (Z.eqb_spec (y mod 4) 0) as [H4|H4];
    destruct (Z.eqb_spec (y mod 100) 0) as [H100|H100];
    destruct (Z.eqb_spec (y mod 400) 0) as [H400|H400]; simpl;
    Z.div_mod_to_equations; lia.
Qed.

Lemma MakeDay_next_month y m k :
  (0 ≤ m ≤ 11)%Z → MakeDay y m (daysInMonth y m + k) = MakeDay y (m + 1) k.
Proof.
  intros Hm. unfold MakeDay.
  assert (Hcases : (m = 0 ∨ m = 1 ∨ m = 2 ∨ m = 3 ∨ m = 4 ∨ m = 5 ∨ m = 6 ∨ m = 7
                    ∨ m = 8 ∨ m = 9 ∨ m = 10 ∨ m = 11)%Z) by lia.
  repeat (destruct Hcases as [Hcases|Hcases]); subst m;
    cbn -[DayFromYear InLeapYear Z.add Z.sub];
    rewrite ?Z.add_0_r, ?DayFromYear_next; generalize (DayFromYear y); intros D;
    unfold DayWithinYear, daysInMonth;
    destruct (InLeapYear y), (InLeapYear (y + 1)); simpl; try lia.
  all: change ((11 + 1) `mod` 12)%Z with 0%Z; change (2 <=? 0)%Z with false;
    rewrite andb_false_r; lia.
Qed.

Lemma getTime_next_month LocalTZA y m k h mi :
  (100 ≤ y)%Z → (0 ≤ m ≤ 11)%Z →
  getTime LocalTZA (mkDate y m (daysInMonth y m + k) h mi)
  = getTime LocalTZA (mkDate y (m + 1) k h mi).
Proof.
  intros Hy Hm. unfold getTime. cbn [year month day hours minutes].
  replace ((0 <=? y) && (y <=? 99))%Z with false
    by (symmetry; apply andb_false_iff; right; apply Z.leb_gt; lia).
  by rewrite MakeDay_next_month.
Qed.

Lemma getTime_month_12 LocalTZA y k h mi :
  (100 ≤ y)%Z →
  getTime LocalTZA (mkDate y 12 k h mi) = getTime LocalTZA (mkDate (y + 1) 0 k h mi).
Proof.
  intros Hy. unfold getTime. cbn [year month day hours minutes].
  replace ((0 <=? y) && (y <=? 99))%Z with false
    by (symmetry; apply andb_false_iff; right; apply Z.leb_gt; lia).
  replace ((0 <=? y + 1) && (y + 1 <=? 99))%Z with false
    by (symmetry; apply andb_false_iff; right; apply Z.leb_gt; lia).
  unfold MakeDay. change (12 `div` 12)%Z with 1%Z. change (12 `mod` 12)%Z with 0%Z.
  change (0 `div` 12)%Z with 0%Z. change (0 `mod` 12)%Z with 0%Z.
  by rewrite (Z.add_0_r (y + 1)).
Qed.

Lemma two_digitRun n : (n < 100)%N → digitRun 1 2 (two n) ∧ digitsValue (two n) = Z.of_N n.
Proof.
  intros Hn. destruct (isDecimal_spec 2 n (two n) (two_decimal n Hn)) as [[Hl Hd] Hv].
  split; [|done]. split; [lia|done].
Qed.

Lemma year_digitRun y :
  (1000 ≤ y ≤ 9999)%N → digitRun 2 4 (String_ y) ∧ digitsValue (String_ y) = Z.of_N y.
Proof.
  intros Hy. destruct (isDecimal_spec 4 y (String_ y) (year_decimal y Hy)) as [[Hl Hd] Hv].
  split; [|done]. split; [lia|done].
Qed.

Lemma parse_dateText d m y :
  (d < 100)%N → (m < 100)%N → (1000 ≤ y ≤ 9999)%N →
  parseUserDate (Some (dateText d m y))
  = Some (mkDate (Z.of_N y) (Z.of_N m - 1) (Z.of_N d) 0 0).
Proof.
  intros Hd Hm Hy.
  destruct (two_digitRun d Hd) as [D1 V1]. destruct (two_digitRun m Hm) as [D2 V2].
  destruct (year_digitRun y Hy) as [D3 V3].
  destruct (parse_dateTime (two d) 47%N (two m) 47%N (String_ y) [] D1 eq_refl D2 eq_refl D3)
    as [H _].
  specialize (H eq_refl). rewrite app_nil_r in H.
  unfold dateText. change (lit "/") with [47%N]. simpl ([47%N] ++ _).
  rewrite H, V1, V2, V3. unfold fullYear.
  replace (Z.of_N y <? 100)%Z with false by (symmetry; apply Z.ltb_ge; lia). done.
Qed.

(** X11. A day past the end of its month is due on the corresponding day of the
    month after: the 31st of a month of 30 days at the instant of the 1st
    of the next month, the 30th of February at that of the 1st or 2nd of
    March, and so on through December into the next year. *)
Theorem day_past_the_month_rolls_over (LocalTZA : Z → Z) (y m k : N) :
  (1000 ≤ y ≤ 9998)%N → (1 ≤ m ≤ 12)%N →
  let days := Z.to_N (daysInMonth (Z.of_N y) (Z.of_N m - 1)) in
  (days + k < 100)%N →
  let next := if (m =? 12)%N then dateText k 1 (y + 1) else dateText k (m + 1) y in
  is_Some (parseUserDate (Some (dateText (days + k) m y)))
  ∧ parseUserDate (Some (dateText (days + k) m y)) ≫= getTime LocalTZA
    = parseUserDate (Some next) ≫= getTime LocalTZA.
Proof.
  intros Hy Hm days Hk next.
  assert (Hdays : (28 ≤ daysInMonth (Z.of_N y) (Z.of_N m - 1) ≤ 31)%Z).
  { unfold daysInMonth.
    repeat match goal with |- context [if ?b then _ else _] => destruct b end; lia. }
  rewrite parse_dateText by lia. split; [by eexists|]. simpl.
  replace (Z.of_N (days + k)) with (daysInMonth (Z.of_N y) (Z.of_N m - 1) + Z.of_N k)%Z
    by (unfold days; lia).
  rewrite getTime_next_month by lia. unfold next.
  destruct (m =? 12)%N eqn:E.
  - apply N.eqb_eq in E. subst m. rewrite parse_dateText by lia. simpl.
    replace (Z.of_N (y + 1)) with (Z.of_N y + 1)%Z by lia.
    rewrite <- getTime_month_12 by lia. done.
  - apply N.eqb_neq in E. rewrite parse_dateText by lia. simpl.
    by replace (Z.of_N (m + 1) - 1)%Z with (Z.of_N m - 1 + 1)%Z by lia.
Qed.

Lemma day_past_the_month_rolls_over_witness :
  is_Some (parseUserDate (Some (lit "31/04/2025")))
  ∧ parseUserDate (Some (lit "31/04/2025")) ≫= getTime (fun _ => 0%Z)
    = parseUserDate (Some (lit "01/05/2025")) ≫= getTime (fun _ => 0%Z).
Proof.
  apply (day_past_the_month_rolls_over (fun _ => 0%Z) 2025 4 1); [lia|lia|by vm_compute].
Defined.

(** ** The loop in its host *)

Section HostFacts.

Variable LocalTZA : Z → Z.

Lemma firesAt_shouldFire now st task :
  firesAt LocalTZA now st task = true ↔ shouldFire LocalTZA now st task.
Proof.
  unfold firesAt, shouldFire, dueNow. rewrite andb_true_iff, negb_true_iff, orb_false_iff.
  rewrite bool_decide_eq_false. split.
  - intros [[Hc Hn] Hd]. split; [|done].
    destruct (parseUserDate (userDate task)) as [taskDate|] eqn:Ep; [|done].
    destruct (getTime LocalTZA taskDate) as [due|] eqn:Eg; [|done].
    apply andb_true_iff in Hd as [H1 H2]. apply Z.leb_le in H1, H2.
    exists taskDate, due. split; [done|]. split; [done|]. lia.
  - intros ((taskDate & due & -> & -> & H1 & H2) & Hc & Hn). split; [done|].
    apply andb_true_iff. split; apply Z.leb_le; lia.
Qed.

Lemma firesAt_ext now st st' task :
  (id task ∈ notifiedTasks st ↔ id task ∈ notifiedTasks st') →
  firesAt LocalTZA now st task = firesAt LocalTZA now st' task.
Proof.
  intros H. unfold firesAt. f_equal. f_equal. f_equal. by apply bool_decide_ext.
Qed.

Lemma checkTask_firesAt now granted st task :
  checkTask LocalTZA now granted st task
  = if firesAt LocalTZA now st task then fired granted st task else st.
Proof.
  unfold checkTask, firesAt, fired.
  destruct (completed task || bool_decide (id task ∈ notifiedTasks st)); simpl; [done|].
  destruct (parseUserDate (userDate task)) as [taskDate|]; [|done].
  destruct (getTime LocalTZA taskDate) as [due|]; [|done]. done.
Qed.

Lemma sendNotification_returns h task :
  returns h = true →
  sendNotification h task = Some (if creates h then [SendNotification task] else []).
Proof.
  destruct h as [|p c]; simpl; [done|]. by destruct (bool_decide (p = permGranted)), c.
Qed.

Lemma sendNotification_throws h task : returns h = false → sendNotification h task = None.
Proof.
  destruct h as [|p c]; simpl; [done|]. by destruct (bool_decide (p = permGranted)), c.
Qed.

(** Where [sendNotification] returns, the body of the loop is [checkTask]. *)
Lemma checkTaskIn_returns h now st task :
  returns h = true →
  checkTaskIn LocalTZA h now st task = (checkTask LocalTZA now (creates h) st task, false).
Proof.
  intros Hr. unfold checkTaskIn, checkTask.
  destruct (completed task || bool_decide (id task ∈ notifiedTasks st)); simpl; [done|].
  destruct (parseUserDate (userDate task)) as [taskDate|]; [|done].
  destruct (getTime LocalTZA taskDate) as [due|]; [|done].
  destruct ((-5000 <=? due - now)%Z && (due - now <=? 5000)%Z); [|done].
  rewrite (sendNotification_returns _ _ Hr). by rewrite <- app_assoc.
Qed.

(** Where it throws, a task that is to fire gets its toast and is not
    recorded. *)
Lemma checkTaskIn_throws h now st task :
  returns h = false →
  checkTaskIn LocalTZA h now st task
  = if firesAt LocalTZA now st task
    then (mkReminder (notifiedTasks st) (effects st ++ [ShowToast task]), true)
    else (st, false).
Proof.
  intros Hr. unfold checkTaskIn, firesAt.
  destruct (completed task || bool_decide (id task ∈ notifiedTasks st)); simpl; [done|].
  destruct (parseUserDate (userDate task)) as [taskDate|]; [|done].
  destruct (getTime LocalTZA taskDate) as [due|]; [|done].
  by rewrite (sendNotification_throws _ _ Hr).
Qed.

(** A task that is not to fire is passed over in every host. *)
Lemma checkTaskIn_skips h now st task :
  firesAt LocalTZA now st task = false → checkTaskIn LocalTZA h now st task = (st, false).
Proof.
  intros Hf. destruct (returns h) eqn:Hr.
  - by rewrite checkTaskIn_returns, checkTask_firesAt, Hf.
  - by rewrite checkTaskIn_throws, Hf.
Qed.

Lemma checkDueTasksIn_returns h tasks now st :
  returns h = true →
  checkDueTasksIn LocalTZA h tasks now st
  = (checkDueTasks LocalTZA tasks now (creates h) st, false).
Proof.
  intros Hr. revert st. induction tasks as [|t tasks IH]; intros st; simpl; [done|].
  rewrite (checkTaskIn_returns _ _ _ _ Hr). apply IH.
Qed.

Lemma checkDueTasksIn_throws h tasks now st :
  returns h = false →
  checkDueTasksIn LocalTZA h tasks now st
  = match List.find (firesAt LocalTZA now st) tasks with
    | Some task => (mkReminder (notifiedTasks st) (effects st ++ [ShowToast task]), true)
    | None => (st, false)
    end.
Proof.
  intros Hr. induction tasks as [|t tasks IH]; simpl; [done|].
  rewrite (checkTaskIn_throws _ _ _ _ Hr). by destruct (firesAt LocalTZA now st t).
Qed.

Lemma runCalls_unmounted calls performed :
  runCalls LocalTZA calls (Unmounted performed) = Unmounted performed.
Proof. unfold runCalls. by induction calls as [|c calls IH]. Qed.

(** A session of calls in which [sendNotification] returns is a session of
    ticks. *)
Lemma runCalls_returns calls : ∀ st,
  (∀ c, c ∈ calls → returns (host c) = true) →
  runCalls LocalTZA calls (Mounted st) = Mounted (runTicks LocalTZA (tickOf <$> calls) st).
Proof.
  unfold runCalls, runTicks. induction calls as [|c calls IH]; intros st Hr; [done|].
  simpl. rewrite checkDueTasksIn_returns by (by apply Hr, elem_of_cons; left).
  apply IH. intros c' Hc'. by apply Hr, elem_of_cons; right.
Qed.

(** The calls of the timer where [sendNotification] throws: nothing is
    recorded, and each call shows the toast of its first task to fire. *)
Lemma runCalls_timer_throws calls : ∀ st,
  (∀ c, c ∈ calls → caller c = IntervalTimer ∧ returns (host c) = false) →
  ∃ st', runCalls LocalTZA calls (Mounted st) = Mounted st'
    ∧ notifiedTasks st' = notifiedTasks st
    ∧ effects st'
      = effects st
        ++ omap (fun c => ShowToast <$> List.find (firesAt LocalTZA (clock c) st) (seen c))
             calls.
Proof.
  unfold runCalls. induction calls as [|c calls IH]; intros st Hc; simpl.
  { exists st. by rewrite app_nil_r. }
  destruct (Hc c) as [Hcaller Hr]; [by apply elem_of_cons; left|].
  assert (Hc' : ∀ c', c' ∈ calls → caller c' = IntervalTimer ∧ returns (host c') = false).
  { intros c' Hin. by apply Hc, elem_of_cons; right. }
  rewrite (checkDueTasksIn_throws _ _ _ _ Hr), Hcaller.
  destruct (List.find (firesAt LocalTZA (clock c) st) (seen c)) as [task|] eqn:Ef; simpl.
  - destruct (IH (mkReminder (notifiedTasks st) (effects st ++ [ShowToast task])) Hc')
      as (st' & E & Hn & He).
    exists st'. split; [done|]. split; [done|]. rewrite He. simpl.
    by rewrite <- app_assoc.
  - destruct (IH st Hc') as (st' & E & Hn & He). by exists st'.
Qed.

(** What a call dispatches, in any host, is about tasks that were to
    fire. *)
Lemma checkDueTasksIn_dispatches h tasks now st :
  ∃ es, effects (checkDueTasksIn LocalTZA h tasks now st).1 = effects st ++ es
    ∧ ∀ e, e ∈ es → shouldFire LocalTZA now st (effectTask e) ∨
                     (dueNow LocalTZA now (effectTask e)
                      ∧ completed (effectTask e) = false
                      ∧ id (effectTask e) ∉ notifiedTasks st).
Proof.
  destruct (returns h) eqn:Hr.
  - rewrite (checkDueTasksIn_returns _ _ _ _ Hr). cbn [fst].
    revert st. unfold checkDueTasks.
    induction tasks as [|t tasks IH]; intros st; simpl.
    { exists []. rewrite app_nil_r. split; [done|]. intros e He.
      by apply elem_of_nil in He. }
    destruct (IH (checkTask LocalTZA now (creates h) st t)) as (es & E & Hes).
    destruct (checkTask_continues LocalTZA now (creates h) st t) as [Hsub _].
    destruct (checkTask_cases LocalTZA now (creates h) st t) as [[Hf Ec]|[Hf Ec]];
      rewrite Ec in *.
    + eexists. split; [rewrite E; simpl; by rewrite <- app_assoc|].
      intros e He.
      assert (Hcases : effectTask e = t ∨ e ∈ es).
      { apply elem_of_cons in He as [->|He]; [by left|]. destruct (creates h).
        - apply elem_of_cons in He as [->|He]; [by left|by right].
        - by right. }
      destruct Hcases as [->|He']; [by left|]. right.
      destruct (Hes e He') as [(Hd & Hc & Hnot)|(Hd & Hc & Hnot)];
        (do 2 (split; [done|])); intros Hin; apply Hnot; by apply Hsub.
    + exists es. split; [done|]. exact Hes.
  - rewrite (checkDueTasksIn_throws _ _ _ _ Hr).
    destruct (List.find (firesAt LocalTZA now st) tasks) as [task|] eqn:Ef; cbn [fst].
    + exists [ShowToast task]. split; [done|]. intros e He.
      apply list_elem_of_singleton in He as ->. left. simpl.
      apply firesAt_shouldFire. by apply find_some in Ef as [_ Hf].
    + exists []. rewrite app_nil_r. split; [done|]. intros e He.
      by apply elem_of_nil in He.
Qed.

End HostFacts.

(** C1, on the code.  The claim fails in a host without the Notification
    API, where [sendNotification] throws after the toast is shown and
    before the id is added to the fired set.  A task due at 18:30:00 on UTC
    is seen by the effect at 18:29:54.5, before its window, and then by the
    timer every second: each call of the timer from 18:29:55.5 on shows the
    toast again, and the fired set stays empty.  In a host that has the
    API, the permission denied, the same calls show the toast once and
    record the task. *)
Theorem C1_toast_repeats_without_notification :
  let task := mkTask 7 (lit "Buy milk") (Some (lit "25/12/2025 6:30 PM")) false in
  let utc := fun _ : Z => 0%Z in
  let calls h := [mkCall InitialCheck h [task] 1766687394500;
                  mkCall IntervalTimer h [task] 1766687395500;
                  mkCall IntervalTimer h [task] 1766687396500;
                  mkCall IntervalTimer h [task] 1766687397500] in
  runCalls utc (calls NoNotification) (Mounted (mkReminder ∅ []))
  = Mounted (mkReminder ∅ [ShowToast task; ShowToast task; ShowToast task])
  ∧ toasts [ShowToast task; ShowToast task; ShowToast task] = [7%Z; 7%Z; 7%Z]
  ∧ runCalls utc (calls (HasNotification permDenied true)) (Mounted (mkReminder ∅ []))
    = Mounted (mkReminder {[7%Z]} [ShowToast task]).
Proof. cbv zeta. split; [|split]; by vm_compute. Qed.

(** C2, on the code.  The claim fails in a host without the Notification
    API.  Two tasks due at the clock of a call of the timer, neither
    completed nor in the fired set: both are to fire, but the call shows
    the toast of the first, adds no id to the fired set, and ends with the
    exception of [sendNotification] before it reaches the second. *)
Theorem C2_due_task_not_fired_without_notification :
  let a := mkTask 7 (lit "Buy milk") (Some (lit "25/12/2025 6:30 PM")) false in
  let b := mkTask 8 (lit "Call mom") (Some (lit "25/12/2025 6:30 PM")) false in
  let utc := fun _ : Z => 0%Z in
  let now := 1766687400000%Z in
  let st := mkReminder ∅ [] in
  shouldFire utc now st a ∧ shouldFire utc now st b
  ∧ checkDueTasksIn utc NoNotification [a; b] now st
    = (mkReminder ∅ [ShowToast a], true)
  ∧ runCall utc (mkCall IntervalTimer NoNotification [a; b] now) (Mounted st)
    = Mounted (mkReminder ∅ [ShowToast a]).
Proof.
  cbv zeta. split; [|split; [|split; by vm_compute]].
  - apply firesAt_shouldFire. by vm_compute.
  - apply firesAt_shouldFire. by vm_compute.
Qed.

(** X12. Where [sendNotification] throws (a host without the Notification API,
    or one whose constructor throws while the permission is granted), it
    does so after the toast has been set and before the task is recorded as
    notified.  A call of [checkDueTasks] then sets the toast of the first
    task of the list that is due, not completed and not recorded, and ends
    there with the exception; without such a task it returns.  The calls of
    the timer record nothing, so each of them shows the toast of its first
    due task again.  When the effect's own call meets such a task, the
    exception unmounts the component: its toast is not shown, and no later
    call does anything. *)
Theorem toast_repeats_without_notification_api (LocalTZA : Z → Z)
    (h : NotificationHost) (st : Reminder) :
  returns h = false →
  (∀ tasks now,
     checkDueTasksIn LocalTZA h tasks now st
     = match List.find (firesAt LocalTZA now st) tasks with
       | Some task =>
           (mkReminder (notifiedTasks st) (effects st ++ [ShowToast task]), true)
       | None => (st, false)
       end)
  ∧ (∀ calls,
       (∀ c, c ∈ calls → caller c = IntervalTimer ∧ host c = h) →
       ∃ st', runCalls LocalTZA calls (Mounted st) = Mounted st'
         ∧ notifiedTasks st' = notifiedTasks st
         ∧ effects st'
           = effects st
             ++ omap (fun c => ShowToast
                                 <$> List.find (firesAt LocalTZA (clock c) st) (seen c))
                  calls)
  ∧ (∀ c more,
       caller c = InitialCheck → host c = h →
       (is_Some (List.find (firesAt LocalTZA (clock c) st) (seen c)) →
        runCalls LocalTZA (c :: more) (Mounted st) = Unmounted (effects st))
       ∧ (List.find (firesAt LocalTZA (clock c) st) (seen c) = None →
          runCall LocalTZA c (Mounted st) = Mounted st))
  ∧ (∀ now task,
       firesAt LocalTZA now st task = true ↔ shouldFire LocalTZA now st task).
Proof.
  intros Hr. split; [|split; [|split]].
  - intros tasks now. by apply checkDueTasksIn_throws.
  - intros calls Hc. apply runCalls_timer_throws. intros c Hin.
    destruct (Hc c Hin) as [? ->]. by split.
  - intros c more Hcaller Hh. unfold runCalls. simpl.
    rewrite Hh, (checkDueTasksIn_throws _ _ _ _ _ Hr), Hcaller. split.
    + intros [task ->]. apply runCalls_unmounted.
    + by intros ->.
  - intros now task. apply firesAt_shouldFire.
Qed.

Lemma toast_repeats_without_notification_api_witness :
  let task := mkTask 7 (lit "Buy milk") (Some (lit "25/12/2025 6:30 PM")) false in
  runCalls (fun _ => 0%Z)
    [mkCall InitialCheck NoNotification [task] 1766687398000;
     mkCall IntervalTimer NoNotification [task] 1766687399000]
    (Mounted (mkReminder ∅ []))
  = Unmounted [].
Proof.
  pose proof (toast_repeats_without_notification_api (fun _ => 0%Z) NoNotification
                (mkReminder ∅ []) eq_refl) as (_ & _ & H & _).
  destruct (H (mkCall InitialCheck NoNotification
                 [mkTask 7 (lit "Buy milk") (Some (lit "25/12/2025 6:30 PM")) false]
                 1766687398000)
              [mkCall IntervalTimer NoNotification
                 [mkTask 7 (lit "Buy milk") (Some (lit "25/12/2025 6:30 PM")) false]
                 1766687399000] eq_refl eq_refl) as [Hthrows _].
  apply Hthrows. vm_compute. by eexists.
Defined.

(** One task due at 18:30:00, seen by the timer at 18:29:58, :59 and
    18:30:00: three toasts in a host without the Notification API, one in a
    host that has it.  Seen first by the effect itself, at 18:29:58, in a
    host without the API: the component is unmounted and shows nothing. *)
Example three_toasts_for_one_task :
  let task := mkTask 7 (lit "Buy milk") (Some (lit "25/12/2025 6:30 PM")) false in
  let utc := fun _ : Z => 0%Z in
  let calls h := [mkCall IntervalTimer h [task] 1766687398000;
                  mkCall IntervalTimer h [task] 1766687399000;
                  mkCall IntervalTimer h [task] 1766687400000] in
  toasts (effectsOf (runCalls utc (calls NoNotification) (Mounted (mkReminder ∅ []))))
  = [7%Z; 7%Z; 7%Z]
  ∧ toasts (effectsOf (runCalls utc (calls (HasNotification permDenied true))
                         (Mounted (mkReminder ∅ []))))
    = [7%Z]
  ∧ runCalls utc (mkCall InitialCheck NoNotification [task] 1766687398000
                    :: calls NoNotification) (Mounted (mkReminder ∅ []))
    = Unmounted [].
Proof. by vm_compute. Qed.

(** States that agree on what the permission does not touch: the set of
    notified tasks and the toasts. *)
Lemma checkDueTasks_permission LocalTZA tasks now g1 g2 : ∀ st1 st2,
  notifiedTasks st1 = notifiedTasks st2 →
  toasts (effects st1) = toasts (effects st2) →
  notifiedTasks (checkDueTasks LocalTZA tasks now g1 st1)
  = notifiedTasks (checkDueTasks LocalTZA tasks now g2 st2)
  ∧ toasts (effects (checkDueTasks LocalTZA tasks now g1 st1))
    = toasts (effects (checkDueTasks LocalTZA tasks now g2 st2)).
Proof.
  unfold checkDueTasks. induction tasks as [|t tasks IH]; intros st1 st2 Hn Ht; simpl.
  { done. }
  apply IH; rewrite !checkTask_firesAt;
    rewrite (firesAt_ext LocalTZA now st1 st2 t) by (by rewrite Hn);
    destruct (firesAt LocalTZA now st2 t); try done; simpl.
  - by rewrite Hn.
  - unfold toasts in *. rewrite !omap_app, Ht. by destruct g1, g2.
Qed.

Lemma checkDueTasks_silent LocalTZA tasks now : ∀ st,
  notifications (effects (checkDueTasks LocalTZA tasks now false st))
  = notifications (effects st).
Proof.
  unfold checkDueTasks. induction tasks as [|t tasks IH]; intros st; simpl; [done|].
  rewrite IH, checkTask_firesAt. destruct (firesAt LocalTZA now st t); [|done].
  simpl. unfold notifications. rewrite omap_app. simpl. by rewrite app_nil_r.
Qed.

(** X13. In a host with the Notification API, [sendNotification] constructs a
    notification only when the permission is "granted".  So where the
    permission is not granted a call of [checkDueTasks] does not throw,
    whatever the constructor would do; where it is granted the call does
    not throw when the constructor returns.  In these hosts the permission
    decides one thing only: system notifications are sent when it is
    "granted" and none otherwise; the toasts and the set of notified tasks
    are the same as with the permission granted. *)
Theorem permission_gates_system_notifications_only (LocalTZA : Z → Z)
    (p : Permission) (constructs : bool) (tasks : list Task) (now : Z) (st : Reminder) :
  (p = permGranted → constructs = true) →
  let result := checkDueTasksIn LocalTZA (HasNotification p constructs) tasks now st in
  let granted := checkDueTasksIn LocalTZA (HasNotification permGranted true) tasks now st in
  result.2 = false
  ∧ notifiedTasks result.1 = notifiedTasks granted.1
  ∧ toasts (effects result.1) = toasts (effects granted.1)
  ∧ notifications (effects result.1)
    = if bool_decide (p = permGranted) then notifications (effects granted.1)
      else notifications (effects st).
Proof.
  intros Hc. cbv zeta.
  assert (Hr : returns (HasNotification p constructs) = true).
  { simpl. case_bool_decide as Hp; [|done]. by rewrite (Hc Hp). }
  rewrite (checkDueTasksIn_returns _ _ _ _ _ Hr).
  rewrite (checkDueTasksIn_returns _ (HasNotification permGranted true)) by done.
  cbn [fst snd]. split; [done|].
  destruct (checkDueTasks_permission LocalTZA tasks now
              (creates (HasNotification p constructs))
              (creates (HasNotification permGranted true)) st st eq_refl eq_refl)
    as [H1 H2].
  do 2 (split; [done|]). simpl. case_bool_decide as Hp.
  - by rewrite (Hc Hp).
  - apply checkDueTasks_silent.
Qed.

Lemma permission_gates_system_notifications_only_witness :
  let task := mkTask 7 (lit "Buy milk") (Some (lit "25/12/2025 6:30 PM")) false in
  let st := mkReminder ∅ [] in
  let result := checkDueTasksIn (fun _ => 0%Z) (HasNotification permDenied false) [task]
                  1766687400000 st in
  let granted := checkDueTasksIn (fun _ => 0%Z) (HasNotification permGranted true) [task]
                   1766687400000 st in
  result.2 = false
  ∧ notifiedTasks result.1 = notifiedTasks granted.1
  ∧ toasts (effects result.1) = toasts (effects granted.1)
  ∧ notifications (effects result.1)
    = if bool_decide (permDenied = permGranted) then notifications (effects granted.1)
      else notifications (effects st).
Proof.
  apply (permission_gates_system_notifications_only (fun _ => 0%Z) permDenied false).
  intros H. discriminate H.
Defined.

Section TickOrder.

Variable LocalTZA : Z → Z.

(** What firing [task] dispatches. *)
Lemma checkDueTasks_in_order tasks now granted : ∀ st st0,
  NoDup (id <$> tasks) →
  (∀ t, t ∈ tasks → id t ∈ notifiedTasks st ↔ id t ∈ notifiedTasks st0) →
  effects (checkDueTasks LocalTZA tasks now granted st)
  = effects st
    ++ flat_map (fun t => if firesAt LocalTZA now st0 t
                          then ShowToast t :: (if granted then [SendNotification t] else [])
                          else []) tasks.
Proof.
  unfold checkDueTasks. induction tasks as [|t tasks IH]; intros st st0 Hnd Hst; simpl.
  { by rewrite app_nil_r. }
  rewrite fmap_cons in Hnd. apply NoDup_cons in Hnd as [Hnot Hnd].
  assert (Et : firesAt LocalTZA now st t = firesAt LocalTZA now st0 t).
  { apply firesAt_ext, Hst. by apply elem_of_cons; left. }
  rewrite (IH _ st0 Hnd).
  - rewrite checkTask_firesAt, Et. destruct (firesAt LocalTZA now st0 t); [|done].
    simpl. by rewrite <- app_assoc.
  - intros t' Ht'. rewrite <- (Hst t') by (by apply elem_of_cons; right).
    rewrite checkTask_firesAt. destruct (firesAt LocalTZA now st t); [|done].
    simpl. rewrite elem_of_union, elem_of_singleton. split; [|by right].
    intros [E|?]; [|done]. exfalso. apply Hnot. rewrite <- E.
    by apply list_elem_of_fmap_2.
Qed.

(** The ids a tick adds to the set of notified tasks. *)
Lemma checkDueTasks_recorded tasks now granted st i :
  NoDup (id <$> tasks) →
  i ∈ notifiedTasks (checkDueTasks LocalTZA tasks now granted st)
  ↔ i ∈ notifiedTasks st
    ∨ ∃ t, t ∈ tasks ∧ firesAt LocalTZA now st t = true ∧ id t = i.
Proof.
  intros Hnd. split.
  - intros Hi.
    destruct (checkDueTasks_about LocalTZA tasks now granted st) as (es & _ & _ & Hn).
    destruct (Hn _ Hi) as [Hi'|Hi']; [by left|].
    apply list_elem_of_fmap in Hi' as (t & -> & Ht).
    destruct (tick_transition LocalTZA tasks now granted Hnd st t Ht) as (_ & _ & HN).
    apply HN in Hi as [Hi|Hi]; [by left|]. right.
    exists t. split; [done|]. split; [|done]. by apply firesAt_shouldFire.
  - intros [Hi|(t & Ht & Hf & <-)].
    + by apply (checkDueTasks_continues LocalTZA tasks now granted st).
    + destruct (tick_transition LocalTZA tasks now granted Hnd st t Ht) as (_ & _ & HN).
      apply HN. right. by apply firesAt_shouldFire.
Qed.

End TickOrder.

(** X14. What a call of [checkDueTasks] over tasks with distinct ids does, in
    order.  Where [sendNotification] returns: for each task of the list
    that is to fire at the start of the call, in the order of the list, its
    toast and then, when the permission is granted, its system
    notification; nothing for the other tasks; the tasks that fired are
    recorded as notified.  Where [sendNotification] throws: the toast of the
    first task of the list that is to fire, and nothing more; nothing is
    recorded. *)
Theorem call_effects_in_list_order (LocalTZA : Z → Z) (h : NotificationHost)
    (tasks : list Task) (now : Z) (st : Reminder) :
  NoDup (id <$> tasks) →
  let fires := firesAt LocalTZA now st in
  let result := checkDueTasksIn LocalTZA h tasks now st in
  (returns h = true →
   result.2 = false
   ∧ effects result.1
     = effects st
       ++ flat_map (fun t => if fires t
                             then ShowToast t
                                  :: (if creates h then [SendNotification t] else [])
                             else []) tasks
   ∧ ∀ i, i ∈ notifiedTasks result.1
          ↔ i ∈ notifiedTasks st ∨ ∃ t, t ∈ tasks ∧ fires t = true ∧ id t = i)
  ∧ (returns h = false →
     result = match List.find fires tasks with
              | Some t =>
                  (mkReminder (notifiedTasks st) (effects st ++ [ShowToast t]), true)
              | None => (st, false)
              end).
Proof.
  intros Hnd. cbv zeta. split; intros Hr.
  - rewrite (checkDueTasksIn_returns _ _ _ _ _ Hr). cbn [fst snd]. split; [done|].
    split; [by apply checkDueTasks_in_order|].
    intros i. by apply checkDueTasks_recorded.
  - by apply checkDueTasksIn_throws.
Qed.

Lemma call_effects_in_list_order_witness :
  let a := mkTask 7 (lit "Buy milk") (Some (lit "25/12/2025 6:30 PM")) false in
  let b := mkTask 8 (lit "Call mom") (Some (lit "25/12/2025 6:30 PM")) false in
  let h := HasNotification permGranted true in
  let st := mkReminder ∅ [] in
  let fires := firesAt (fun _ => 0%Z) 1766687400000 st in
  let result := checkDueTasksIn (fun _ => 0%Z) h [a; b] 1766687400000 st in
  (returns h = true →
   result.2 = false
   ∧ effects result.1
     = effects st
       ++ flat_map (fun t => if fires t
                             then ShowToast t
                                  :: (if creates h then [SendNotification t] else [])
                             else []) [a; b]
   ∧ ∀ i, i ∈ notifiedTasks result.1
          ↔ i ∈ notifiedTasks st ∨ ∃ t, t ∈ [a; b] ∧ fires t = true ∧ id t = i)
  ∧ (returns h = false →
     result = match List.find fires [a; b] with
              | Some t =>
                  (mkReminder (notifiedTasks st) (effects st ++ [ShowToast t]), true)
              | None => (st, false)
              end).
Proof.
  apply (call_effects_in_list_order (fun _ => 0%Z) (HasNotification permGranted true)
           [mkTask 7 (lit "Buy milk") (Some (lit "25/12/2025 6:30 PM")) false;
            mkTask 8 (lit "Call mom") (Some (lit "25/12/2025 6:30 PM")) false]
           1766687400000 (mkReminder ∅ [])).
  apply (bool_decide_unpack _). by vm_compute.
Defined.

(** ** When a reminder comes *)

Section Liveness.

Variable LocalTZA : Z → Z.

Lemma checkTask_notifies now granted st t :
  completed t = false → dueNow LocalTZA now t →
  id t ∈ notifiedTasks (checkTask LocalTZA now granted st t).
Proof.
  intros Hc Hd. destruct (checkTask_cases LocalTZA now granted st t) as [[_ ->]|[Hn ->]].
  - simpl. apply elem_of_union. left. by apply elem_of_singleton.
  - destruct (decide (id t ∈ notifiedTasks st)) as [|Hnot]; [done|].
    exfalso. apply Hn. by split.
Qed.

Lemma checkDueTasks_notifies tasks now granted st t :
  t ∈ tasks → completed t = false → dueNow LocalTZA now t →
  id t ∈ notifiedTasks (checkDueTasks LocalTZA tasks now granted st).
Proof.
  intros Hin Hc Hd. unfold checkDueTasks. revert st.
  induction tasks as [|a tasks IH]; intros st; [by apply elem_of_nil in Hin|].
  simpl. apply elem_of_cons in Hin as [<-|Hin]; [|by apply IH].
  destruct (checkDueTasks_continues LocalTZA tasks now granted
              (checkTask LocalTZA now granted st t)) as [Hsub _].
  apply Hsub. by apply checkTask_notifies.
Qed.

Lemma runTicks_notifies ticks st tk t :
  tk ∈ ticks → t ∈ tasks tk → completed t = false → dueNow LocalTZA (now tk) t →
  id t ∈ notifiedTasks (runTicks LocalTZA ticks st).
Proof.
  intros Htk Hin Hc Hd. unfold runTicks. revert st.
  induction ticks as [|a ticks IH]; intros st; [by apply elem_of_nil in Htk|].
  simpl. apply elem_of_cons in Htk as [<-|Htk]; [|by apply IH].
  destruct (runTicks_continues LocalTZA ticks
              (checkDueTasks LocalTZA (tasks tk) (now tk) (granted tk) st)) as [Hsub _].
  apply Hsub. by apply checkDueTasks_notifies.
Qed.

(** Every notified task has had its toast; and its system notification,
    where the permission was granted throughout. *)
Lemma checkTask_toasted now granted st t :
  (∀ i, i ∈ notifiedTasks st → i ∈ toasts (effects st)) →
  ∀ i, i ∈ notifiedTasks (checkTask LocalTZA now granted st t) →
       i ∈ toasts (effects (checkTask LocalTZA now granted st t)).
Proof.
  intros H i. rewrite checkTask_firesAt. destruct (firesAt LocalTZA now st t); [|apply H].
  simpl. rewrite toasts_app, elem_of_union, elem_of_singleton, elem_of_app.
  intros [->|Hi]; [right|left; by apply H]. simpl. apply elem_of_cons. by left.
Qed.

Lemma checkTask_sent now st t :
  (∀ i, i ∈ notifiedTasks st → i ∈ notifications (effects st)) →
  ∀ i, i ∈ notifiedTasks (checkTask LocalTZA now true st t) →
       i ∈ notifications (effects (checkTask LocalTZA now true st t)).
Proof.
  intros H i. rewrite checkTask_firesAt. destruct (firesAt LocalTZA now st t); [|apply H].
  simpl. rewrite notifications_app, elem_of_union, elem_of_singleton, elem_of_app.
  intros [->|Hi]; [right|left; by apply H]. simpl. apply elem_of_cons. by left.
Qed.

Lemma runTicks_toasted ticks : ∀ st,
  (∀ i, i ∈ notifiedTasks st → i ∈ toasts (effects st)) →
  ∀ i, i ∈ notifiedTasks (runTicks LocalTZA ticks st) →
       i ∈ toasts (effects (runTicks LocalTZA ticks st)).
Proof.
  unfold runTicks. induction ticks as [|tk ticks IH]; intros st H; simpl; [done|].
  apply IH. unfold checkDueTasks. generalize (tasks tk). intros l. revert st H.
  induction l as [|t l IHl]; intros st H; simpl; [done|].
  by apply IHl, checkTask_toasted.
Qed.

Lemma runTicks_sent ticks : ∀ st,
  (∀ tk, tk ∈ ticks → granted tk = true) →
  (∀ i, i ∈ notifiedTasks st → i ∈ notifications (effects st)) →
  ∀ i, i ∈ notifiedTasks (runTicks LocalTZA ticks st) →
       i ∈ notifications (effects (runTicks LocalTZA ticks st)).
Proof.
  unfold runTicks. induction ticks as [|tk ticks IH]; intros st Hg H; simpl; [done|].
  apply IH; [intros tk' Htk'; apply Hg; by apply elem_of_cons; right|].
  rewrite (Hg tk) by (by apply elem_of_cons; left).
  unfold checkDueTasks. generalize (tasks tk). intros l. revert st H.
  induction l as [|t l IHl]; intros st H; simpl; [done|].
  by apply IHl, checkTask_sent.
Qed.

(** What a tick dispatches is about tasks that were to fire. *)
Lemma checkDueTasks_dispatches tasks now granted : ∀ st,
  ∃ es, effects (checkDueTasks LocalTZA tasks now granted st) = effects st ++ es
    ∧ ∀ e, e ∈ es →
        dueNow LocalTZA now (effectTask e) ∧ completed (effectTask e) = false
        ∧ id (effectTask e) ∉ notifiedTasks st.
Proof.
  unfold checkDueTasks. induction tasks as [|t tasks IH]; intros st; simpl.
  { exists []. rewrite app_nil_r. split; [done|]. intros e He. by apply elem_of_nil in He. }
  destruct (IH (checkTask LocalTZA now granted st t)) as (es & E & Hes).
  destruct (checkTask_continues LocalTZA now granted st t) as [Hsub _].
  destruct (checkTask_cases LocalTZA now granted st t) as [[Hf Ec]|[Hf Ec]];
    rewrite Ec in *.
  - eexists. split; [rewrite E; simpl; by rewrite <- app_assoc|].
    intros e He. destruct Hf as (Hd & Hc & Hn).
    assert (Hcases : effectTask e = t ∨ e ∈ es).
    { apply elem_of_cons in He as [->|He]; [by left|]. destruct granted.
      - apply elem_of_cons in He as [->|He]; [by left|by right].
      - by right. }
    destruct Hcases as [->|He']; [done|].
    destruct (Hes e He') as (? & ? & Hnot). do 2 (split; [done|]).
    intros Hin. apply Hnot. by apply Hsub.
  - exists es. split; [done|]. exact Hes.
Qed.

End Liveness.

(** X15. In a session where [sendNotification] returns in every call, a task
    that some call sees within its window, not completed, has had exactly
    one toast by the end of the session, and is recorded as notified; where
    the permission was granted throughout, it has had its system
    notification too. *)
Theorem due_task_gets_one_toast (LocalTZA : Z → Z) (calls : list Call) (c : Call)
    (t : Task) :
  (∀ c', c' ∈ calls → returns (host c') = true) →
  c ∈ calls → t ∈ seen c → completed t = false → dueNow LocalTZA (clock c) t →
  ∃ st, runCalls LocalTZA calls (Mounted (mkReminder ∅ [])) = Mounted st
    ∧ id t ∈ notifiedTasks st
    ∧ (∃ l1 l2, toasts (effects st) = l1 ++ id t :: l2 ∧ (id t ∉ l1) ∧ (id t ∉ l2))
    ∧ ((∀ c', c' ∈ calls → creates (host c') = true) →
       id t ∈ notifications (effects st)).
Proof.
  intros Hr Hc Hin Hcompl Hd.
  exists (runTicks LocalTZA (tickOf <$> calls) (mkReminder ∅ [])).
  split; [by apply runCalls_returns|].
  set (st := runTicks LocalTZA (tickOf <$> calls) (mkReminder ∅ [])).
  assert (Hn : id t ∈ notifiedTasks st).
  { apply (runTicks_notifies LocalTZA _ _ (tickOf c)); try done.
    by apply list_elem_of_fmap_2. }
  split; [done|]. split.
  - assert (Ht : id t ∈ toasts (effects st)).
    { apply runTicks_toasted; [|done]. simpl. intros i Hi. by apply elem_of_empty in Hi. }
    destruct (runTicks_onceEach LocalTZA (tickOf <$> calls) _ onceEach_start)
      as (Hnd & _).
    apply list_elem_of_split in Ht as (l1 & l2 & E). exists l1, l2. split; [done|].
    fold st in Hnd. rewrite E in Hnd. apply NoDup_app in Hnd as (_ & Hdis & Hnd2).
    apply NoDup_cons in Hnd2 as [Hnot _]. split; [|done].
    intros Hl1. apply (Hdis _ Hl1). by left.
  - intros Hg. apply runTicks_sent; [| |done].
    + intros tk (c' & -> & Hc')%list_elem_of_fmap. simpl. by apply Hg.
    + simpl. intros i Hi. by apply elem_of_empty in Hi.
Qed.

Lemma due_task_gets_one_toast_witness :
  let t := mkTask 7 (lit "Buy milk") (Some (lit "25/12/2025 6:30 PM")) false in
  let h := HasNotification permGranted true in
  let calls := [mkCall InitialCheck h [t] 1766687390000;
                mkCall IntervalTimer h [t] 1766687397000;
                mkCall IntervalTimer h [t] 1766687398000] in
  ∃ st, runCalls (fun _ => 0%Z) calls (Mounted (mkReminder ∅ [])) = Mounted st
    ∧ id t ∈ notifiedTasks st
    ∧ (∃ l1 l2, toasts (effects st) = l1 ++ id t :: l2 ∧ (id t ∉ l1) ∧ (id t ∉ l2))
    ∧ ((∀ c', c' ∈ calls → creates (host c') = true) →
       id t ∈ notifications (effects st)).
Proof.
  apply (due_task_gets_one_toast (fun _ => 0%Z)
           [mkCall InitialCheck (HasNotification permGranted true)
              [mkTask 7 (lit "Buy milk") (Some (lit "25/12/2025 6:30 PM")) false]
              1766687390000;
            mkCall IntervalTimer (HasNotification permGranted true)
              [mkTask 7 (lit "Buy milk") (Some (lit "25/12/2025 6:30 PM")) false]
              1766687397000;
            mkCall IntervalTimer (HasNotification permGranted true)
              [mkTask 7 (lit "Buy milk") (Some (lit "25/12/2025 6:30 PM")) false]
              1766687398000]
           (mkCall IntervalTimer (HasNotification permGranted true)
              [mkTask 7 (lit "Buy milk") (Some (lit "25/12/2025 6:30 PM")) false]
              1766687397000)).
  - intros c' Hc'. repeat (apply elem_of_cons in Hc' as [->|Hc']; [reflexivity|]).
    by apply elem_of_nil in Hc'.
  - apply elem_of_cons. right. apply elem_of_cons. by left.
  - apply elem_of_cons. by left.
  - done.
  - eexists _, _. split; [by vm_compute|]. split; [by vm_compute|]. simpl. lia.
Defined.

(** X16. [checkDueTasks] is called every second.  Take a task that the call
    before, at most a second earlier and with [sendNotification] returning,
    had in its list as the same row (same id, text, date and completed
    flag).  When a call shows the toast of that task, its clock lies
    between 5 and 4 seconds before the due instant: the reminder never
    comes at the due instant itself or after it. *)
Theorem reminder_comes_early (LocalTZA : Z → Z) (c1 c2 : Call) (st : Reminder)
    (t : Task) (taskDate : Date) (due : Z) :
  returns (host c1) = true →
  parseUserDate (userDate t) = Some taskDate → getTime LocalTZA taskDate = Some due →
  t ∈ seen c1 → (clock c1 ≤ clock c2 ≤ clock c1 + 1000)%Z →
  let st1 := (checkDueTasksIn LocalTZA (host c1) (seen c1) (clock c1) st).1 in
  let st2 := (checkDueTasksIn LocalTZA (host c2) (seen c2) (clock c2) st1).1 in
  ShowToast t ∈ drop (length (effects st1)) (effects st2) →
  (due - 5000 ≤ clock c2 < due - 4000)%Z.
Proof.
  intros Hr Hp Hg Hin Hnow st1 st2 Hshow. subst st2.
  destruct (checkDueTasksIn_dispatches LocalTZA (host c2) (seen c2) (clock c2) st1)
    as (es & E & Hes).
  rewrite E, drop_app_length in Hshow.
  assert (Hfire : dueNow LocalTZA (clock c2) t ∧ completed t = false
                  ∧ id t ∉ notifiedTasks st1).
  { destruct (Hes _ Hshow) as [(? & ? & ?)|?]; done. }
  destruct Hfire as ((taskDate' & due' & Hp' & Hg' & Hw) & Hc & Hnot).
  rewrite Hp in Hp'. injection Hp' as <-. rewrite Hg in Hg'. injection Hg' as <-.
  destruct (decide (-5000 ≤ due - clock c1 ≤ 5000)%Z) as [Hw1|Hw1]; [|lia].
  exfalso. apply Hnot. subst st1. rewrite (checkDueTasksIn_returns _ _ _ _ _ Hr).
  cbn [fst]. apply checkDueTasks_notifies; [done|done|]. by exists taskDate, due.
Qed.

Lemma reminder_comes_early_witness :
  (1766687400000 - 5000 ≤ 1766687395500 < 1766687400000 - 4000)%Z.
Proof.
  apply (reminder_comes_early (fun _ => 0%Z)
           (mkCall IntervalTimer (HasNotification permGranted true)
              [mkTask 7 (lit "Buy milk") (Some (lit "25/12/2025 6:30 PM")) false]
              1766687394500)
           (mkCall IntervalTimer (HasNotification permGranted true)
              [mkTask 7 (lit "Buy milk") (Some (lit "25/12/2025 6:30 PM")) false]
              1766687395500)
           (mkReminder ∅ [])
           (mkTask 7 (lit "Buy milk") (Some (lit "25/12/2025 6:30 PM")) false)
           (mkDate 2025 11 25 18 30) 1766687400000).
  - reflexivity.
  - by vm_compute.
  - by vm_compute.
  - apply elem_of_cons. by left.
  - simpl. lia.
  - match goal with |- _ ∈ ?l =>
      replace l with
        [ShowToast (mkTask 7 (lit "Buy milk") (Some (lit "25/12/2025 6:30 PM")) false);
         SendNotification
           (mkTask 7 (lit "Buy milk") (Some (lit "25/12/2025 6:30 PM")) false)]
        by (by vm_compute)
    end.
    apply elem_of_cons. by left.
Defined.

(** X27. Once per task, where [sendNotification] returns.  In a session whose
    calls all have [sendNotification] returning, whatever the calls
    [calls] and the later calls [more] see (a task may have been edited in
    between): the toasts and the system notifications of the whole run
    have no id twice; an id in the set of notified tasks stays there;
    every toast and notification is of a task recorded as notified; the
    later calls dispatch nothing for an id that was already recorded.  And
    in any host the body of the loop passes over a task whose id is
    recorded, whatever its due date. *)
Theorem once_per_task_where_notification_returns (LocalTZA : Z → Z)
    (calls more : list Call) :
  (∀ c, c ∈ calls ++ more → returns (host c) = true) →
  ∃ st st',
    runCalls LocalTZA calls (Mounted (mkReminder ∅ [])) = Mounted st
    ∧ runCalls LocalTZA more (Mounted st) = Mounted st'
    ∧ NoDup (toasts (effects st')) ∧ NoDup (notifications (effects st'))
    ∧ notifiedTasks st ⊆ notifiedTasks st'
    ∧ (∀ e, e ∈ effects st' → id (effectTask e) ∈ notifiedTasks st')
    ∧ (∃ es, effects st' = effects st ++ es
             ∧ ∀ e, e ∈ es → id (effectTask e) ∉ notifiedTasks st)
    ∧ (∀ h task now,
         id task ∈ notifiedTasks st →
         checkTaskIn LocalTZA h now st task = (st, false)).
Proof.
  intros Hr.
  set (st := runTicks LocalTZA (tickOf <$> calls) (mkReminder ∅ [])).
  set (st' := runTicks LocalTZA (tickOf <$> more) st).
  exists st, st'.
  split; [apply runCalls_returns; intros c Hc; apply Hr, elem_of_app; by left|].
  split; [apply runCalls_returns; intros c Hc; apply Hr, elem_of_app; by right|].
  assert (Hst : onceEach st) by apply runTicks_onceEach, onceEach_start.
  destruct (runTicks_onceEach LocalTZA (tickOf <$> more) st Hst) as (H1 & H2 & H3).
  destruct (runTicks_continues LocalTZA (tickOf <$> more) st) as (H4 & H5).
  do 5 (split; [done|]). intros h task now Hin. apply checkTaskIn_skips.
  unfold firesAt. rewrite (bool_decide_eq_true_2 _ Hin). by rewrite orb_true_r.
Qed.

Lemma once_per_task_where_notification_returns_witness :
  let task := mkTask 7 (lit "Buy milk") (Some (lit "25/12/2025 6:30 PM")) false in
  let edited := mkTask 7 (lit "Buy milk") (Some (lit "25/12/2025 6:31 PM")) false in
  let h := HasNotification permGranted true in
  let calls := [mkCall IntervalTimer h [task] 1766687403000] in
  let more := [mkCall InitialCheck h [edited] 1766687459000;
               mkCall IntervalTimer h [edited] 1766687460000] in
  ∃ st st',
    runCalls (fun _ => 0%Z) calls (Mounted (mkReminder ∅ [])) = Mounted st
    ∧ runCalls (fun _ => 0%Z) more (Mounted st) = Mounted st'
    ∧ NoDup (toasts (effects st')) ∧ NoDup (notifications (effects st'))
    ∧ notifiedTasks st ⊆ notifiedTasks st'
    ∧ (∀ e, e ∈ effects st' → id (effectTask e) ∈ notifiedTasks st')
    ∧ (∃ es, effects st' = effects st ++ es
             ∧ ∀ e, e ∈ es → id (effectTask e) ∉ notifiedTasks st)
    ∧ (∀ h task now,
         id task ∈ notifiedTasks st →
         checkTaskIn (fun _ => 0%Z) h now st task = (st, false)).
Proof.
  apply (once_per_task_where_notification_returns (fun _ => 0%Z)
           [mkCall IntervalTimer (HasNotification permGranted true)
              [mkTask 7 (lit "Buy milk") (Some (lit "25/12/2025 6:30 PM")) false]
              1766687403000]
           [mkCall InitialCheck (HasNotification permGranted true)
              [mkTask 7 (lit "Buy milk") (Some (lit "25/12/2025 6:31 PM")) false]
              1766687459000;
            mkCall IntervalTimer (HasNotification permGranted true)
              [mkTask 7 (lit "Buy milk") (Some (lit "25/12/2025 6:31 PM")) false]
              1766687460000]).
  intros c Hc. simpl in Hc.
  repeat (apply elem_of_cons in Hc as [->|Hc]; [reflexivity|]).
  by apply elem_of_nil in Hc.
Defined.

(** X28. The transition from pending to fired, where [sendNotification]
    returns.  The body of the loop fires a task (toast and, when the
    permission is granted, system notification dispatched, id added to the
    set of notified tasks) when its due date parses, the difference between
    the due instant and the clock lies in [-5000, 5000], the task is not
    completed and its id is not recorded; in any host it leaves the state
    as it is for a task that does not meet the condition.  So in a call
    over tasks with distinct ids a task of the list fires exactly under
    that condition, taken at the start of the call; its id is recorded
    afterwards exactly when it was before or the task fired; a completed
    task does not fire. *)
Theorem fires_exactly_when_due_where_notification_returns (LocalTZA : Z → Z) :
  (∀ h now st task,
     (returns h = true → shouldFire LocalTZA now st task →
      checkTaskIn LocalTZA h now st task = (fired (creates h) st task, false))
     ∧ (¬ shouldFire LocalTZA now st task →
        checkTaskIn LocalTZA h now st task = (st, false)))
  ∧ (∀ (c : Call) (st : Reminder) (task : Task),
       returns (host c) = true → NoDup (id <$> seen c) → task ∈ seen c →
       let st' := (checkDueTasksIn LocalTZA (host c) (seen c) (clock c) st).1 in
       let es := drop (length (effects st)) (effects st') in
       (ShowToast task ∈ es ↔ shouldFire LocalTZA (clock c) st task)
       ∧ (SendNotification task ∈ es
          ↔ creates (host c) = true ∧ shouldFire LocalTZA (clock c) st task)
       ∧ (id task ∈ notifiedTasks st'
          ↔ id task ∈ notifiedTasks st ∨ shouldFire LocalTZA (clock c) st task)
       ∧ (completed task = true →
          (ShowToast task ∉ es) ∧ (SendNotification task ∉ es)
          ∧ (id task ∈ notifiedTasks st' → id task ∈ notifiedTasks st))).
Proof.
  split.
  - intros h now st task. split.
    + intros Hr Hf. rewrite (checkTaskIn_returns _ _ _ _ _ Hr).
      destruct (checkTask_cases LocalTZA now (creates h) st task) as [[_ ->]|[Hn _]];
        done.
    + intros Hn. apply checkTaskIn_skips.
      destruct (firesAt LocalTZA now st task) eqn:E; [|done].
      by apply firesAt_shouldFire in E.
  - intros c st task Hr Hnd Hin. cbv zeta.
    rewrite (checkDueTasksIn_returns _ _ _ _ _ Hr). cbn [fst].
    destruct (tick_transition LocalTZA (seen c) (clock c) (creates (host c)) Hnd st
                task Hin) as (HT & HS & HN).
    unfold dispatched in HT, HS. simpl in HT, HS.
    do 3 (split; [done|]). intros Hc.
    assert (Hno : ¬ shouldFire LocalTZA (clock c) st task).
    { intros (_ & Hc' & _). congruence. }
    rewrite HT, HS, HN. tauto.
Qed.

Lemma fires_exactly_when_due_where_notification_returns_witness :
  let task := mkTask 7 (lit "Buy milk") (Some (lit "25/12/2025 6:30 PM")) false in
  let c := mkCall IntervalTimer (HasNotification permGranted true) [task]
             1766687403000 in
  let st := mkReminder ∅ [] in
  let st' := (checkDueTasksIn (fun _ => 0%Z) (host c) (seen c) (clock c) st).1 in
  let es := drop (length (effects st)) (effects st') in
  (ShowToast task ∈ es ↔ shouldFire (fun _ => 0%Z) (clock c) st task)
  ∧ (SendNotification task ∈ es
     ↔ creates (host c) = true ∧ shouldFire (fun _ => 0%Z) (clock c) st task)
  ∧ (id task ∈ notifiedTasks st'
     ↔ id task ∈ notifiedTasks st ∨ shouldFire (fun _ => 0%Z) (clock c) st task)
  ∧ (completed task = true →
     (ShowToast task ∉ es) ∧ (SendNotification task ∉ es)
     ∧ (id task ∈ notifiedTasks st' → id task ∈ notifiedTasks st)).
Proof.
  apply (proj2 (fires_exactly_when_due_where_notification_returns (fun _ => 0%Z))
           (mkCall IntervalTimer (HasNotification permGranted true)
              [mkTask 7 (lit "Buy milk") (Some (lit "25/12/2025 6:30 PM")) false]
              1766687403000)).
  - reflexivity.
  - apply NoDup_singleton.
  - apply list_elem_of_singleton. reflexivity.
Defined.

(** ** How long a toast stays *)

(** X17. A toast stays for 5000 ms when no other toast was shown in the 5000 ms
    before it.  A toast shown less than 5000 ms after another one goes when
    the timeout of the first fires: it stays for the rest of the first
    toast's 5000 ms only. *)
Theorem second_toast_is_cut_short (t1 t2 T : Z) (a b : Task) (v0 : ToastView) :
  hideAt v0 = [] → (t1 ≤ t2 < t1 + 5000)%Z → (t2 ≤ T)%Z →
  let first := showToast t1 a v0 in
  let second := showToast t2 b (elapse t2 first) in
  (toast (elapse T (showToast t2 b v0)) = Some (toastOf b) ↔ (T < t2 + 5000)%Z)
  ∧ toast (elapse t2 first) = Some (toastOf a)
  ∧ (toast (elapse T second) = Some (toastOf b) ↔ (T < t1 + 5000)%Z)
  ∧ ((t1 + 5000 ≤ T)%Z → toast (elapse T second) = None).
Proof.
  intros Hv [H1 H2] HT. cbv zeta. unfold elapse, showToast. cbn [toast hideAt].
  rewrite Hv. simpl.
  replace (t2 <? t1 + 5000)%Z with true by (symmetry; apply Z.ltb_lt; lia). simpl.
  destruct (Z.ltb_spec T (t2 + 5000)) as [Ha|Ha];
    destruct (Z.ltb_spec T (t1 + 5000)) as [Hb|Hb]; simpl;
    repeat split; try done; try lia; intros; try done; try lia.
Qed.

Lemma second_toast_is_cut_short_witness :
  let a := mkTask 7 (lit "Buy milk") None false in
  let b := mkTask 8 (lit "Call mom") None false in
  let first := showToast 0 a (mkToastView None []) in
  let second := showToast 3000 b (elapse 3000 first) in
  (toast (elapse 5000 (showToast 3000 b (mkToastView None []))) = Some (toastOf b)
   ↔ (5000 < 3000 + 5000)%Z)
  ∧ toast (elapse 3000 first) = Some (toastOf a)
  ∧ (toast (elapse 5000 second) = Some (toastOf b) ↔ (5000 < 0 + 5000)%Z)
  ∧ ((0 + 5000 ≤ 5000)%Z → toast (elapse 5000 second) = None).
Proof.
  apply (second_toast_is_cut_short 0 3000 5000 (mkTask 7 (lit "Buy milk") None false)
           (mkTask 8 (lit "Call mom") None false) (mkToastView None [])); [done|lia|lia].
Defined.

Lemma showToasts_app clock es1 es2 v :
  showToasts clock (es1 ++ es2) v = showToasts clock es2 (showToasts clock es1 v).
Proof. apply foldl_app. Qed.

Lemma showToasts_fired (clock : Z) (granted : bool) (fires : Task → bool)
    (tasks : list Task) : ∀ v,
  let v' := showToasts clock
              (flat_map (fun t => if fires t
                                  then ShowToast t
                                       :: (if granted then [SendNotification t] else [])
                                  else []) tasks) v in
  toast v' = match last (List.filter fires tasks) with
             | Some t => Some (toastOf t)
             | None => toast v
             end
  ∧ length (hideAt v') = length (hideAt v) + length (List.filter fires tasks).
Proof.
  induction tasks as [|t tasks IH]; intros v; simpl; [split; [done|lia]|].
  rewrite showToasts_app.
  destruct (fires t) eqn:E.
  - destruct (IH (showToasts clock
                    (ShowToast t :: (if granted then [SendNotification t] else [])) v))
      as [IH1 IH2].
    cbv zeta in IH1, IH2. rewrite IH1, IH2.
    assert (Hv : showToasts clock
                   (ShowToast t :: (if granted then [SendNotification t] else [])) v
                 = showToast clock t v) by (by destruct granted).
    rewrite Hv. simpl. rewrite length_app. simpl. split; [|lia].
    destruct (List.filter fires tasks) as [|t' l] eqn:El; [done|].
    change (last (t :: t' :: l)) with (last (t' :: l)).
    destruct (last (t' :: l)) eqn:E2; [done|]. by apply last_None in E2.
  - destruct (IH (showToasts clock [] v)) as [IH1 IH2]. cbv zeta in IH1, IH2.
    rewrite IH1, IH2. done.
Qed.

(** X18. When several tasks fire in one run of [checkDueTasks], each call of
    [showToast] replaces the toast of the call before: the toast shown
    after the run is that of the last task of the list that fired, the
    toasts of the others are never seen, and every call leaves its
    timeout. *)
Theorem last_toast_of_a_run_wins (LocalTZA : Z → Z) (tk : Tick) (st : Reminder)
    (v : ToastView) :
  NoDup (id <$> tasks tk) →
  let fired := List.filter (firesAt LocalTZA (now tk) st) (tasks tk) in
  let v' := showToasts (now tk) (dispatched LocalTZA tk st) v in
  toast v' = match last fired with
             | Some t => Some (toastOf t)
             | None => toast v
             end
  ∧ length (hideAt v') = length (hideAt v) + length fired.
Proof.
  intros Hnd. cbv zeta. unfold dispatched.
  rewrite (checkDueTasks_in_order LocalTZA (tasks tk) (now tk) (granted tk) st st Hnd)
    by done.
  rewrite drop_app_length. apply showToasts_fired.
Qed.

Lemma last_toast_of_a_run_wins_witness :
  let a := mkTask 7 (lit "Buy milk") (Some (lit "25/12/2025 6:30 PM")) false in
  let b := mkTask 8 (lit "Call mom") (Some (lit "25/12/2025 6:30 PM")) false in
  let tk := mkTick [a; b] 1766687400000 false in
  let st := mkReminder ∅ [] in
  let v := mkToastView None [] in
  let fired := List.filter (firesAt (fun _ => 0%Z) (now tk) st) (tasks tk) in
  let v' := showToasts (now tk) (dispatched (fun _ => 0%Z) tk st) v in
  toast v' = match last fired with
             | Some t => Some (toastOf t)
             | None => toast v
             end
  ∧ length (hideAt v') = length (hideAt v) + length fired.
Proof.
  apply (last_toast_of_a_run_wins (fun _ => 0%Z)
           (mkTick [mkTask 7 (lit "Buy milk") (Some (lit "25/12/2025 6:30 PM")) false;
                    mkTask 8 (lit "Call mom") (Some (lit "25/12/2025 6:30 PM")) false]
              1766687400000 false)).
  apply (bool_decide_unpack _). by vm_compute.
Defined.

(** Two tasks due at 18:30: after the run only the toast of the second is
    shown. *)
Example one_toast_for_two_tasks :
  let a := mkTask 7 (lit "Buy milk") (Some (lit "25/12/2025 6:30 PM")) false in
  let b := mkTask 8 (lit "Call mom") (Some (lit "25/12/2025 6:30 PM")) false in
  let tk := mkTick [a; b] 1766687400000 false in
  toast (showToasts (now tk) (dispatched (fun _ => 0%Z) tk (mkReminder ∅ []))
           (mkToastView None []))
  = Some (mkToast reminderTitle (lit "It's time for: Call mom")).
Proof. by vm_compute. Qed.

(** ** The counter and the filter *)

Lemma filter_all_true {A} (f : A → bool) (l : list A) :
  (∀ a, f a = true) → List.filter f l = l.
Proof.
  intros Hf. induction l as [|a l IH]; simpl; [done|]. by rewrite Hf, IH.
Qed.

Lemma filter_all_true' {A} (f : A → bool) (l : list A) :
  (∀ a, a ∈ l → f a = true) → List.filter f l = l.
Proof.
  induction l as [|a l IH]; simpl; [done|]. intros Hf.
  rewrite Hf by (by apply elem_of_cons; left).
  rewrite IH; [done|]. intros b Hb. apply Hf. by apply elem_of_cons; right.
Qed.

Lemma filteredTasks_active tasks :
  filteredTasks tasks (lit "active") = List.filter (fun t => negb (completed t)) tasks.
Proof. apply (filteredTasks_mode tasks active). Qed.

Lemma filteredTasks_completed tasks :
  filteredTasks tasks (lit "completed") = List.filter completed tasks.
Proof.
  etrans; [apply (filteredTasks_mode tasks completedOnly)|].
  apply List.filter_ext. by intros t.
Qed.

Lemma filter_filter_same {A} (f : A → bool) (l : list A) :
  List.filter f (List.filter f l) = List.filter f l.
Proof.
  induction l as [|a l IH]; simpl; [done|].
  destruct (f a) eqn:E; simpl; [by rewrite E, IH|done].
Qed.

Lemma filter_completed_of_active (tasks : list Task) :
  List.filter completed (List.filter (fun t => negb (completed t)) tasks) = [].
Proof.
  induction tasks as [|t tasks IH]; simpl; [done|].
  destruct (completed t) eqn:E; simpl; [done|]. by rewrite E.
Qed.

(** X19. The "items left" counter is the number of tasks the filter "active"
    shows; with the tasks the filter "completed" shows they are all the
    tasks; the counter is zero exactly when every task is completed. *)
Theorem items_left_counter (tasks : list Task) :
  activeCount tasks = length (filteredTasks tasks (lit "active"))
  ∧ activeCount tasks + length (filteredTasks tasks (lit "completed")) = length tasks
  ∧ (activeCount tasks = 0 ↔ ∀ t, t ∈ tasks → completed t = true).
Proof.
  unfold activeCount. rewrite filteredTasks_active, filteredTasks_completed.
  split; [done|]. split.
  - rewrite Nat.add_comm.
    rewrite <- (filter_split_length completed tasks). done.
  - induction tasks as [|t tasks IH]; simpl.
    + split; [|done]. intros _ t Ht. by apply elem_of_nil in Ht.
    + destruct (completed t) eqn:E; simpl.
      * rewrite IH. split.
        -- intros H t' Ht'. apply elem_of_cons in Ht' as [->|Ht']; [done|by apply H].
        -- intros H t' Ht'. apply H. by apply elem_of_cons; right.
      * split; [done|]. intros H. specialize (H t). rewrite E in H.
        exfalso. assert (false = true) by (apply H, elem_of_cons; by left). done.
Qed.

(** X20. A filter value other than "active" and "completed" shows every task;
    applying a filter a second time changes nothing; no task passes the
    active and the completed filter together. *)
Theorem filter_values (tasks : list Task) :
  (∀ filter : jsstring,
     filter ≠ lit "active" → filter ≠ lit "completed" →
     filteredTasks tasks filter = tasks)
  ∧ (∀ filter : jsstring,
       filteredTasks (filteredTasks tasks filter) filter = filteredTasks tasks filter)
  ∧ filteredTasks (filteredTasks tasks (lit "active")) (lit "completed") = [].
Proof.
  split; [|split].
  - intros filter H1 H2. unfold filteredTasks. apply filter_all_true. intros t.
    repeat case_bool_decide; done.
  - intros filter. unfold filteredTasks. apply filter_filter_same.
  - rewrite filteredTasks_active, filteredTasks_completed.
    apply filter_completed_of_active.
Qed.

Lemma filter_values_witness :
  filteredTasks [mkTask 1 (lit "a") None true; mkTask 2 (lit "b") None false] (lit "done")
  = [mkTask 1 (lit "a") None true; mkTask 2 (lit "b") None false].
Proof.
  apply (proj1 (filter_values _)); by vm_compute.
Defined.

(** ** The handlers and the table *)

#[local] Instance idDescending_transitive : Transitive idDescending.
Proof. intros a b c. unfold idDescending. lia. Qed.

#[local] Instance idDescending_total : Total idDescending.
Proof. intros a b. unfold idDescending. lia. Qed.

Lemma descending_strict (l : list Task) :
  NoDup (id <$> l) → StronglySorted idDescending l →
  StronglySorted (fun a b => (id b < id a)%Z) l.
Proof.
  intros Hnd Hs. induction Hs as [|a l Hs IH Hall]; [constructor|].
  rewrite fmap_cons in Hnd. apply NoDup_cons in Hnd as [Hnotin Hnd].
  constructor; [by apply IH|].
  rewrite Forall_forall in Hall |- *. intros b Hb.
  specialize (Hall b Hb). unfold idDescending in Hall.
  assert (id b ≠ id a).
  { intros E. apply Hnotin. rewrite <- E. by apply list_elem_of_fmap_2. }
  lia.
Qed.

Lemma selectByIdDescending_perm table : selectByIdDescending table ≡ₚ table.
Proof. apply merge_sort_Permutation. Qed.

Lemma selectByIdDescending_sorted table :
  StronglySorted idDescending (selectByIdDescending table).
Proof. apply StronglySorted_merge_sort; apply _. Qed.

Lemma selectByIdDescending_unique table l :
  NoDup (id <$> table) → l ≡ₚ table → StronglySorted idDescending l →
  selectByIdDescending table = l.
Proof.
  intros Hnd Hp Hs.
  apply (StronglySorted_unique_strong idDescending).
  - intros x1 x2 H1 H2 R1 R2. unfold idDescending in *.
    assert (E : id x1 = id x2) by lia.
    rewrite selectByIdDescending_perm in H1. rewrite Hp in H2.
    apply list_elem_of_lookup in H1 as [i Hi]. apply list_elem_of_lookup in H2 as [j Hj].
    assert (i = j).
    { eapply NoDup_lookup; [exact Hnd| |]; rewrite list_lookup_fmap.
      - by rewrite Hi.
      - rewrite Hj. simpl. by rewrite E. }
    subst. congruence.
  - apply selectByIdDescending_sorted.
  - done.
  - by rewrite selectByIdDescending_perm, Hp.
Qed.

(** X21. [loadTasks] keeps the task list when the request fails; otherwise the
    list is the rows of the table, each once, by descending id; when the
    ids of the table are distinct, so are those of the list, which then is
    strictly descending. *)
Theorem load_tasks_newest_first (table tasks : list Task) :
  loadTasks Error tasks = tasks
  ∧ (let shown := loadTasks (Data (selectByIdDescending table)) tasks in
     shown ≡ₚ table
     ∧ StronglySorted idDescending shown
     ∧ (NoDup (id <$> table) →
        NoDup (id <$> shown) ∧ StronglySorted (fun a b => (id b < id a)%Z) shown)).
Proof.
  split; [done|]. cbv zeta. simpl.
  split; [apply selectByIdDescending_perm|].
  split; [apply selectByIdDescending_sorted|].
  intros Hnd.
  assert (Hnd' : NoDup (id <$> selectByIdDescending table)).
  { by rewrite selectByIdDescending_perm. }
  split; [done|]. apply descending_strict; [done|apply selectByIdDescending_sorted].
Qed.

Lemma load_tasks_newest_first_witness :
  let table := [mkTask 1 (lit "a") None true; mkTask 3 (lit "c") None false;
                mkTask 2 (lit "b") None false] in
  NoDup (id <$> selectByIdDescending table)
  ∧ StronglySorted (fun a b => (id b < id a)%Z) (selectByIdDescending table).
Proof.
  apply (proj2 (load_tasks_newest_first
    [mkTask 1 (lit "a") None true; mkTask 3 (lit "c") None false;
     mkTask 2 (lit "b") None false] [])).
  apply (bool_decide_unpack _). by vm_compute.
Defined.

(** X22. A task added to a table of distinct ids, with an id above all of them,
    is the first task of the list loaded next, the rest of the list being
    as before. *)
Theorem new_task_comes_first (today : Today) (input : jsstring) (row : NewRow)
    (newId : Z) (table : list Task) :
  addTask today input = Some row →
  NoDup (id <$> table) → (∀ r, r ∈ table → (id r < newId)%Z) →
  loadTasks (Data (selectByIdDescending (insertRow newId row table))) []
  = mkTask newId (removeDateTime input) (newUserDate row) false
    :: selectByIdDescending table.
Proof.
  intros Hadd Hnd Hlt. simpl.
  destruct (addTask_Some _ _ _ Hadd) as (Ht & Hc & _).
  unfold insertRow. rewrite Ht, Hc.
  apply selectByIdDescending_unique.
  - rewrite fmap_app. apply NoDup_app. split; [done|]. split.
    + intros x Hx Hx'. simpl in Hx'. apply list_elem_of_singleton in Hx'. subst x.
      apply list_elem_of_fmap in Hx as (r & E & Hr). specialize (Hlt r Hr). lia.
    + simpl. apply NoDup_singleton.
  - rewrite selectByIdDescending_perm. apply Permutation_cons_append.
  - constructor; [apply selectByIdDescending_sorted|].
    rewrite Forall_forall. intros r Hr. rewrite selectByIdDescending_perm in Hr.
    specialize (Hlt r Hr). unfold idDescending. simpl. lia.
Qed.

Lemma new_task_comes_first_witness :
  loadTasks
    (Data (selectByIdDescending
             (insertRow 5 (mkNewRow (lit "Buy milk") (Some (lit "25/12/2025")) false)
                [mkTask 2 (lit "b") None false; mkTask 4 (lit "d") None true]))) []
  = mkTask 5 (removeDateTime (lit "Buy milk 25/12/2025")) (Some (lit "25/12/2025")) false
    :: selectByIdDescending [mkTask 2 (lit "b") None false; mkTask 4 (lit "d") None true].
Proof.
  apply (new_task_comes_first (mkToday 2 10 2026) (lit "Buy milk 25/12/2025")
           (mkNewRow (lit "Buy milk") (Some (lit "25/12/2025")) false) 5
           [mkTask 2 (lit "b") None false; mkTask 4 (lit "d") None true]).
  - by vm_compute.
  - apply (bool_decide_unpack _). by vm_compute.
  - intros r Hr. apply elem_of_cons in Hr as [->|Hr]; [simpl; lia|].
    apply list_elem_of_singleton in Hr as ->. simpl. lia.
Defined.

Lemma updateWhereId_other v change table :
  v ∉ id <$> table → updateWhereId v change table = table.
Proof.
  induction table as [|r table IH]; simpl; [done|]. intros Hnot.
  rewrite not_elem_of_cons in Hnot. destruct Hnot as [Hne Hnot].
  rewrite bool_decide_eq_false_2 by done. by rewrite IH.
Qed.

Lemma updateWhereId_same v change table :
  (∀ row, row ∈ table → id row = v → change row = row) →
  updateWhereId v change table = table.
Proof.
  induction table as [|r table IH]; simpl; [done|]. intros H.
  rewrite IH by (intros row Hrow; apply H; by apply elem_of_cons; right).
  case_bool_decide; [|done]. rewrite H; [done|by apply elem_of_cons; left|done].
Qed.

Lemma updateWhereId_twice v f g table :
  (∀ row, id (f row) = id row) →
  updateWhereId v g (updateWhereId v f table)
  = updateWhereId v (fun row => g (f row)) table.
Proof.
  intros Hid. induction table as [|r table IH]; simpl; [done|]. rewrite IH. f_equal.
  destruct (bool_decide (id r = v)) eqn:E.
  - apply bool_decide_eq_true_1 in E.
    rewrite bool_decide_eq_true_2; [done|]. by rewrite Hid.
  - by rewrite E.
Qed.

Lemma NoDup_ids_eq (table : list Task) (a b : Task) :
  NoDup (id <$> table) → a ∈ table → b ∈ table → id a = id b → a = b.
Proof.
  intros Hnd Ha Hb E.
  apply list_elem_of_lookup in Ha as [i Hi]. apply list_elem_of_lookup in Hb as [j Hj].
  assert (i = j).
  { eapply NoDup_lookup; [exact Hnd| |]; rewrite list_lookup_fmap.
    - by rewrite Hi.
    - rewrite Hj. simpl. by rewrite E. }
  subst. congruence.
Qed.

(** X23. [toggleComplete] writes the negation of the flag of the task the
    component holds: every row with the id of the task gets it, whatever
    the row held, the other rows stay, and a second call with the same task
    changes nothing more.  When the task is a row of a table of distinct
    ids, a call with the task as it is after the first call restores the
    table. *)
Theorem toggle_uses_the_task_held (task : Task) (table : list Task) :
  (∀ row, row ∈ toggleComplete task table → id row = id task →
     completed row = negb (completed task))
  ∧ (∀ row, id row ≠ id task → row ∈ toggleComplete task table ↔ row ∈ table)
  ∧ toggleComplete task (toggleComplete task table) = toggleComplete task table
  ∧ (NoDup (id <$> table) → task ∈ table →
     let task' := mkTask (id task) (text task) (userDate task) (negb (completed task)) in
     task' ∈ toggleComplete task table
     ∧ toggleComplete task' (toggleComplete task table) = table).
Proof.
  split; [|split; [|split]].
  - intros row Hrow E. unfold toggleComplete, updateWhereId in Hrow.
    apply list_elem_of_fmap in Hrow as (r & -> & Hr).
    destruct (bool_decide (id r = id task)) eqn:Er; [done|].
    apply bool_decide_eq_false_1 in Er. done.
  - intros row Hne. unfold toggleComplete, updateWhereId. rewrite list_elem_of_fmap. split.
    + intros (r & -> & Hr). destruct (bool_decide (id r = id task)) eqn:Er; [|done].
      apply bool_decide_eq_true_1 in Er. done.
    + intros Hrow. exists row. by rewrite bool_decide_eq_false_2.
  - unfold toggleComplete. rewrite updateWhereId_twice by done. done.
  - intros Hnd Hin. cbv zeta. split.
    + unfold toggleComplete, updateWhereId. apply list_elem_of_fmap.
      exists task. rewrite bool_decide_eq_true_2 by done. done.
    + unfold toggleComplete. simpl. rewrite updateWhereId_twice by done. simpl.
      apply updateWhereId_same. intros row Hrow E.
      rewrite (NoDup_ids_eq table row task Hnd Hrow Hin E).
      rewrite negb_involutive. by destruct task.
Qed.

Lemma toggle_uses_the_task_held_witness :
  let task := mkTask 2 (lit "b") None false in
  let table := [mkTask 3 (lit "c") None false; task] in
  let task' := mkTask (id task) (text task) (userDate task) (negb (completed task)) in
  task' ∈ toggleComplete task table
  ∧ toggleComplete task' (toggleComplete task table) = table.
Proof.
  apply (proj2 (proj2 (proj2 (toggle_uses_the_task_held (mkTask 2 (lit "b") None false)
                         [mkTask 3 (lit "c") None false; mkTask 2 (lit "b") None false])))).
  - apply (bool_decide_unpack _). by vm_compute.
  - apply elem_of_cons. right. apply list_elem_of_singleton. reflexivity.
Defined.

(** X24. Opening the editor on a task of a table of distinct ids and saving
    without a change: a task with a date is written back as it is and the
    table is the same; a task without a date gets the empty string as its
    date, which parses to no date as before.  In both cases the editor is
    closed. *)
Theorem edit_without_change (task : Task) (table : list Task) :
  NoDup (id <$> table) → task ∈ table →
  let saved := saveEdit (id task) (startEdit task) table in
  saved.2 = cancelEdit
  ∧ (truthy (userDate task) = true → saved.1 = table)
  ∧ (truthy (userDate task) = false →
     saved.1 = updateWhereId (id task)
                 (fun row => mkTask (id row) (text row) (Some []) (completed row)) table
     ∧ mkTask (id task) (text task) (Some []) (completed task) ∈ saved.1
     ∧ parseUserDate (Some []) = parseUserDate (userDate task)).
Proof.
  intros Hnd Hin. cbv zeta. split; [done|]. unfold saveEdit, startEdit. simpl.
  split.
  - intros Ht. rewrite Ht. apply updateWhereId_same. intros row Hrow E.
    rewrite (NoDup_ids_eq table row task Hnd Hrow Hin E).
    destruct task as [i t [[|c u]|] c']; simpl in *; done.
  - intros Ht. rewrite Ht. split; [|split].
    + unfold updateWhereId. apply map_ext_in. intros row Hrow.
      case_bool_decide as E; [|done].
      apply list_elem_of_In in Hrow.
      by rewrite (NoDup_ids_eq table row task Hnd Hrow Hin E).
    + unfold updateWhereId. apply list_elem_of_fmap. exists task.
      rewrite bool_decide_eq_true_2 by done. done.
    + destruct (userDate task) as [[|c u]|]; simpl in *; done.
Qed.

Lemma edit_without_change_witness :
  let task := mkTask 2 (lit "b") None false in
  let table := [mkTask 3 (lit "c") (Some (lit "1/2/26")) false; task] in
  let saved := saveEdit (id task) (startEdit task) table in
  saved.2 = cancelEdit
  ∧ (truthy (userDate task) = true → saved.1 = table)
  ∧ (truthy (userDate task) = false →
     saved.1 = updateWhereId (id task)
                 (fun row => mkTask (id row) (text row) (Some []) (completed row)) table
     ∧ mkTask (id task) (text task) (Some []) (completed task) ∈ saved.1
     ∧ parseUserDate (Some []) = parseUserDate (userDate task)).
Proof.
  apply (edit_without_change (mkTask 2 (lit "b") None false)
           [mkTask 3 (lit "c") (Some (lit "1/2/26")) false; mkTask 2 (lit "b") None false]).
  - apply (bool_decide_unpack _). by vm_compute.
  - apply elem_of_cons. right. apply list_elem_of_singleton. reflexivity.
Defined.

Lemma filter_Permutation' {A} (f : A → bool) (l1 l2 : list A) :
  l1 ≡ₚ l2 → List.filter f l1 ≡ₚ List.filter f l2.
Proof.
  induction 1 as [|a l1 l2 _ IH|a b l|l1 l2 l3 _ IH1 _ IH2]; simpl.
  - done.
  - destruct (f a); by rewrite IH.
  - destruct (f a), (f b); try done. apply perm_swap.
  - by rewrite IH1.
Qed.

Lemma filter_StronglySorted {A} (R : relation A) (f : A → bool) (l : list A) :
  StronglySorted R l → StronglySorted R (List.filter f l).
Proof.
  induction 1 as [|a l Hs IH Hall]; simpl; [constructor|].
  destruct (f a); [|done]. constructor; [done|].
  rewrite Forall_forall in Hall |- *. intros b Hb. apply Hall.
  apply list_elem_of_In in Hb. apply List.filter_In in Hb as [Hb _].
  by apply list_elem_of_In.
Qed.

Lemma filter_NoDup_ids (f : Task → bool) (table : list Task) :
  NoDup (id <$> table) → NoDup (id <$> List.filter f table).
Proof.
  induction table as [|r table IH]; simpl; [done|]. intros Hnd.
  apply NoDup_cons in Hnd as [Hnot Hnd]. destruct (f r); [|by apply IH].
  rewrite fmap_cons. apply NoDup_cons. split; [|by apply IH].
  intros Hin. apply Hnot. apply list_elem_of_fmap in Hin as (b & E & Hb).
  apply list_elem_of_In in Hb. apply List.filter_In in Hb as [Hb _].
  rewrite E. apply list_elem_of_fmap_2. by apply list_elem_of_In.
Qed.

Lemma select_filter (f : Task → bool) (table : list Task) :
  NoDup (id <$> table) →
  selectByIdDescending (List.filter f table)
  = List.filter f (selectByIdDescending table).
Proof.
  intros Hnd. apply selectByIdDescending_unique.
  - by apply filter_NoDup_ids.
  - apply filter_Permutation', selectByIdDescending_perm.
  - apply filter_StronglySorted, selectByIdDescending_sorted.
Qed.

Lemma checkDueTasks_skips_completed LocalTZA tasks now granted st :
  checkDueTasks LocalTZA (List.filter (fun t => negb (completed t)) tasks) now granted st
  = checkDueTasks LocalTZA tasks now granted st.
Proof.
  unfold checkDueTasks. revert st.
  induction tasks as [|t tasks IH]; intros st; simpl; [done|].
  destruct (completed t) eqn:E; simpl; [|apply IH].
  rewrite IH. by rewrite checkTask_completed.
Qed.

Lemma clearCompleted_filter table :
  clearCompleted table = List.filter (fun t => negb (completed t)) table.
Proof.
  unfold clearCompleted, deleteWhere. apply List.filter_ext. intros t.
  by destruct (completed t).
Qed.

(** X25. Clear Completed on a table of distinct ids: the list loaded afterwards
    is the list loaded before without its completed tasks, in the same
    order; the counter of items left is the same, the filter "completed"
    shows nothing, and the reminder loop does on it what it does on the list
    before. *)
Theorem clear_completed_keeps_the_rest (table : list Task) :
  NoDup (id <$> table) →
  let before := selectByIdDescending table in
  let after := selectByIdDescending (clearCompleted table) in
  after = filteredTasks before (lit "active")
  ∧ activeCount after = activeCount before
  ∧ filteredTasks after (lit "completed") = []
  ∧ ∀ LocalTZA now granted st,
      checkDueTasks LocalTZA after now granted st
      = checkDueTasks LocalTZA before now granted st.
Proof.
  intros Hnd. cbv zeta.
  rewrite clearCompleted_filter, select_filter by done.
  rewrite filteredTasks_active. split; [done|]. split; [|split].
  - unfold activeCount. by rewrite filter_filter_same.
  - rewrite filteredTasks_completed. apply filter_completed_of_active.
  - intros. apply checkDueTasks_skips_completed.
Qed.

Lemma clear_completed_keeps_the_rest_witness :
  let table := [mkTask 1 (lit "a") None true; mkTask 3 (lit "c") None false;
                mkTask 2 (lit "b") None false] in
  let before := selectByIdDescending table in
  let after := selectByIdDescending (clearCompleted table) in
  after = filteredTasks before (lit "active")
  ∧ activeCount after = activeCount before
  ∧ filteredTasks after (lit "completed") = []
  ∧ ∀ LocalTZA now granted st,
      checkDueTasks LocalTZA after now granted st
      = checkDueTasks LocalTZA before now granted st.
Proof.
  apply (clear_completed_keeps_the_rest
    [mkTask 1 (lit "a") None true; mkTask 3 (lit "c") None false;
     mkTask 2 (lit "b") None false]).
  apply (bool_decide_unpack _). by vm_compute.
Defined.

Lemma filter_without {A} (f : A → bool) (l1 l2 : list A) (a : A) :
  f a = false → (∀ b, b ∈ l1 ++ l2 → f b = true) →
  List.filter f (l1 ++ a :: l2) = l1 ++ l2.
Proof.
  intros Ha Hb. rewrite List.filter_app. simpl. rewrite Ha.
  rewrite <- List.filter_app. by apply filter_all_true'.
Qed.

(** X26. Deleting a task of a table of distinct ids: the list loaded afterwards
    is the list loaded before without that task, the others in their
    order; deleting an id the table does not hold changes nothing. *)
Theorem delete_removes_one_task (table : list Task) :
  NoDup (id <$> table) →
  (∀ l1 task l2,
     selectByIdDescending table = l1 ++ task :: l2 →
     selectByIdDescending (deleteTask (id task) table) = l1 ++ l2)
  ∧ (∀ taskId, taskId ∉ id <$> table → deleteTask taskId table = table).
Proof.
  intros Hnd. split.
  - intros l1 task l2 Hsel. unfold deleteTask, deleteWhere.
    rewrite select_filter by done. rewrite Hsel.
    assert (Hnd' : NoDup (id <$> (l1 ++ task :: l2))).
    { rewrite <- Hsel. by rewrite selectByIdDescending_perm. }
    apply filter_without.
    + by rewrite bool_decide_eq_true_2.
    + intros b Hb. rewrite bool_decide_eq_false_2; [done|]. intros E.
      assert (b = task).
      { apply (NoDup_ids_eq (l1 ++ task :: l2)); [done| | |done].
        - apply elem_of_app. apply elem_of_app in Hb as [?|?]; [by left|].
          right. by apply elem_of_cons; right.
        - apply elem_of_app. right. by apply elem_of_cons; left. }
      subst b. rewrite fmap_app, fmap_cons in Hnd'.
      apply NoDup_app in Hnd' as (_ & Hdisj & Hnd2).
      apply NoDup_cons in Hnd2 as [Hnot _].
      apply elem_of_app in Hb as [Hb|Hb].
      * apply (Hdisj (id task)); [by apply list_elem_of_fmap_2|]. by left.
      * apply Hnot. by apply list_elem_of_fmap_2.
  - intros taskId Hnot. unfold deleteTask, deleteWhere. apply filter_all_true'.
    intros b Hb. rewrite bool_decide_eq_false_2; [done|]. intros E.
    apply Hnot. rewrite <- E. by apply list_elem_of_fmap_2.
Qed.

Lemma delete_removes_one_task_witness :
  selectByIdDescending
    (deleteTask 3 [mkTask 1 (lit "a") None true; mkTask 3 (lit "c") None false;
                   mkTask 2 (lit "b") None false])
  = [] ++ [mkTask 2 (lit "b") None false; mkTask 1 (lit "a") None true].
Proof.
  apply (proj1 (delete_removes_one_task
    [mkTask 1 (lit "a") None true; mkTask 3 (lit "c") None false;
     mkTask 2 (lit "b") None false] ltac:(apply (bool_decide_unpack _); by vm_compute))
    [] (mkTask 3 (lit "c") None false)).
  by vm_compute.
Defined.
